(** * MutableList: a doubly-linked list whose links go through [Ref] cells

    Shallow embedding of [src/mutable_chain.cpp] (the templated
    [MutableList<T>] with its [Ref<T>] indirection cells, its bidirectional
    iterator and the [main] demo), with the claims of the specification
    stated and settled against it.

    Modelling decisions, all read off the source:
    - every [std::make_shared] call allocates one object at a fresh address;
      the address space is finite ([addr_limit]) and an exhausted address
      space makes [make_shared] throw [std::bad_alloc];
    - a [shared_ptr<Ref<..>>] member ([next], [prev]) may be null, which is
      [None]; a [shared_ptr<ListNode<..>>] is never null in this program
      (it always comes from [make_shared] or from reading [Ref::ptr]);
    - [->] through a null [shared_ptr] is undefined behaviour: [Undefined];
    - [size_] is a [std::size_t]: arithmetic modulo [2^64];
    - the store keeps every object that was ever allocated: an object the
      program has released (a cell that was replaced, a node nothing
      designates any more) is not removed from it. What is stated about an
      object is stated of one that the list or a cursor still holds;
    - loops take fuel; running out of fuel is the outcome [OutOfFuel]. *)

From stdpp Require Import base option list gmap strings.
From Stdlib Require Import ZArith Lia.
Local Open Scope Z_scope.

Abbreviation loc := Z.

(** Width of [std::size_t], and the number of distinct object addresses. *)
Definition size_bits : Z := 64.
Definition addr_limit : Z := 2 ^ size_bits.
Definition wrap (z : Z) : Z := z mod 2 ^ size_bits.

(** The only exception a function of the source can raise. *)
Inductive exn := bad_alloc.

Inductive outcome (A : Type) : Type :=
  | Ret (a : A)
  | Throw (e : exn)
  | Undefined
  | OutOfFuel.
Arguments Ret {A} a.
Arguments Throw {A} e.
Arguments Undefined {A}.
Arguments OutOfFuel {A}.

(** [struct Ref { std::shared_ptr<T> ptr; }] *)
Record Ref := mkRef { ptr : loc }.

(** What the demo prints for a visited element: [removing: v] or [- v]. *)
Inductive event (T : Type) : Type :=
  | Removing (v : T)
  | Listed (v : T).
Arguments Removing {T} v.
Arguments Listed {T} v.

(** [MutableList] object: two sentinel pointers and the element count. *)
Record MutableList := mkList { head_ : loc; tail_ : loc; size_ : Z }.

(** [IteratorImpl]: a pointer to the current node. *)
Record iterator := mkIter { current_ : loc }.

(** [std::reverse_iterator<iterator>]: wraps a base iterator. *)
Record reverse_iterator := mkRIter { base : iterator }.

Section Chain.
Context {T : Type}.

(** [struct ListNode { RefPtr next; RefPtr prev; T value; }] *)
Record ListNode := mkNode { next : option loc; prev : option loc; value : T }.

(** The heap: node objects, [Ref] objects, and the next unused address. *)
Record store := mkStore {
  nodes : gmap Z ListNode;
  refs : gmap Z Ref;
  brk : Z
}.

(** ** The monad of heap computations *)

Definition M (A : Type) : Type := store → outcome A * store.

Definition ret {A} (a : A) : M A := λ s, (Ret a, s).

Definition bind {A B} (m : M A) (k : A → M B) : M B := λ s,
  match m s with
  | (Ret a, s') => k a s'
  | (Throw e, s') => (Throw e, s')
  | (Undefined, s') => (Undefined, s')
  | (OutOfFuel, s') => (OutOfFuel, s')
  end.

Notation "'let*' x ':=' m 'in' k" := (bind m (λ x, k))
  (at level 10, x pattern, m at level 100, k at level 200, only parsing).
Notation "m ';;' k" := (bind m (λ _, k))
  (at level 100, k at level 200, right associativity, only parsing).

(** *** Heap primitives *)

(** [std::make_shared<Node>(...)] *)
Definition make_shared_Node (n : ListNode) : M loc := λ s,
  if brk s <? addr_limit
  then (Ret (brk s), mkStore (<[brk s := n]> (nodes s)) (refs s) (brk s + 1))
  else (Throw bad_alloc, s).

(** [std::make_shared<RefType>(p)] *)
Definition make_shared_Ref (p : loc) : M loc := λ s,
  if brk s <? addr_limit
  then (Ret (brk s), mkStore (nodes s) (<[brk s := mkRef p]> (refs s)) (brk s + 1))
  else (Throw bad_alloc, s).

(** [*p] for a node pointer [p]. *)
Definition node_load (p : loc) : M ListNode := λ s,
  match nodes s !! p with
  | Some n => (Ret n, s)
  | None => (Undefined, s)
  end.

(** [r->ptr] for a [RefPtr] [r]. *)
Definition ref_ptr (r : option loc) : M loc := λ s,
  match r with
  | None => (Undefined, s)
  | Some c =>
      match refs s !! c with
      | Some x => (Ret (ptr x), s)
      | None => (Undefined, s)
      end
  end.

(** [r->ptr = v]: overwrite the content of the cell, in place. The cell no
    longer holds the node it designated; the store keeps that node even
    when nothing else holds it. *)
Definition ref_assign (r : option loc) (v : loc) : M unit := λ s,
  match r with
  | None => (Undefined, s)
  | Some c =>
      match refs s !! c with
      | Some _ => (Ret tt, mkStore (nodes s) (<[c := mkRef v]> (refs s)) (brk s))
      | None => (Undefined, s)
      end
  end.

(** [p->next = c]: the node now holds another cell. The cell it held
    before is released; the store keeps it. *)
Definition set_next (p : loc) (c : loc) : M unit := λ s,
  match nodes s !! p with
  | Some n =>
      (Ret tt, mkStore (<[p := mkNode (Some c) (prev n) (value n)]> (nodes s))
                       (refs s) (brk s))
  | None => (Undefined, s)
  end.

(** [p->prev = c], likewise. *)
Definition set_prev (p : loc) (c : loc) : M unit := λ s,
  match nodes s !! p with
  | Some n =>
      (Ret tt, mkStore (<[p := mkNode (next n) (Some c) (value n)]> (nodes s))
                       (refs s) (brk s))
  | None => (Undefined, s)
  end.

(** [p->value = v]: assignment to the value member of a node. *)
Definition set_value (p : loc) (v : T) : M unit := λ s,
  match nodes s !! p with
  | Some n =>
      (Ret tt, mkStore (<[p := mkNode (next n) (prev n) v]> (nodes s))
                       (refs s) (brk s))
  | None => (Undefined, s)
  end.

(** ** [MutableList] *)

(** [static void link(a, b)]: two NEW [Ref] objects. *)
Definition link (a b : loc) : M unit :=
  let* c := make_shared_Ref b in
  set_next a c ;;
  let* d := make_shared_Ref a in
  set_prev b d.

(** [makeSentinel]: a node holding a value-initialised [T]. *)
Definition makeSentinel (T0 : T) : M loc :=
  make_shared_Node (mkNode None None T0).

(** [MutableList()] *)
Definition MutableList_new (T0 : T) : M MutableList :=
  let* h := makeSentinel T0 in
  let* t := makeSentinel T0 in
  link h t ;;
  ret (mkList h t 0).

(** *** Iterator *)

(** [operator*] returns the reference [current_->value]. A program either
    reads it, which is [deref], or assigns through it ([*it = v]), which is
    [deref_assign]. *)
Definition deref (it : iterator) : M T :=
  let* n := node_load (current_ it) in
  ret (value n).

Definition deref_assign (it : iterator) (v : T) : M unit :=
  set_value (current_ it) v.

(** [operator++] (pre-increment): [current_ = current_->next->ptr] *)
Definition incr (it : iterator) : M iterator :=
  let* n := node_load (current_ it) in
  let* p := ref_ptr (next n) in
  ret (mkIter p).

(** [operator--] (pre-decrement): [current_ = current_->prev->ptr] *)
Definition decr (it : iterator) : M iterator :=
  let* n := node_load (current_ it) in
  let* p := ref_ptr (prev n) in
  ret (mkIter p).

(** [operator==] *)
Definition iter_eq (a b : iterator) : bool := current_ a =? current_ b.

(** [begin()] and [end()] *)
Definition begin_ (l : MutableList) : M iterator :=
  let* h := node_load (head_ l) in
  let* p := ref_ptr (next h) in
  ret (mkIter p).

Definition end_ (l : MutableList) : M iterator := ret (mkIter (tail_ l)).

(** [rbegin()], [rend()] and the three operations of
    [std::reverse_iterator] the demo uses. *)
Definition rbegin (l : MutableList) : M reverse_iterator :=
  let* e := end_ l in ret (mkRIter e).

Definition rend (l : MutableList) : M reverse_iterator :=
  let* b := begin_ l in ret (mkRIter b).

Definition rderef (r : reverse_iterator) : M T :=
  let* tmp := decr (base r) in
  deref tmp.

Definition rincr (r : reverse_iterator) : M reverse_iterator :=
  let* b := decr (base r) in ret (mkRIter b).

Definition riter_eq (a b : reverse_iterator) : bool := iter_eq (base a) (base b).

(** *** Capacity and element access *)

Definition empty (l : MutableList) : bool := size_ l =? 0.
Definition size (l : MutableList) : Z := size_ l.

(** [front()] returns the reference [head_->next->ptr->value]; [front] reads
    it and [front_assign] is [l.front() = v]. *)
Definition front (l : MutableList) : M T :=
  let* h := node_load (head_ l) in
  let* p := ref_ptr (next h) in
  let* n := node_load p in
  ret (value n).

Definition front_assign (l : MutableList) (v : T) : M unit :=
  let* h := node_load (head_ l) in
  let* p := ref_ptr (next h) in
  set_value p v.

(** [back()] returns the reference [tail_->prev->ptr->value]; [back] reads
    it and [back_assign] is [l.back() = v]. *)
Definition back (l : MutableList) : M T :=
  let* t := node_load (tail_ l) in
  let* p := ref_ptr (prev t) in
  let* n := node_load p in
  ret (value n).

Definition back_assign (l : MutableList) (v : T) : M unit :=
  let* t := node_load (tail_ l) in
  let* p := ref_ptr (prev t) in
  set_value p v.

(** *** Modifiers *)

(** [clear()] *)
Definition clear (l : MutableList) : M MutableList :=
  link (head_ l) (tail_ l) ;;
  ret (mkList (head_ l) (tail_ l) 0).

(** [emplace_back] / [push_back] *)
Definition emplace_back (v : T) (l : MutableList) : M MutableList :=
  let* node := make_shared_Node (mkNode None None v) in
  let* t := node_load (tail_ l) in
  let* last := ref_ptr (prev t) in
  link last node ;;
  link node (tail_ l) ;;
  ret (mkList (head_ l) (tail_ l) (wrap (size_ l + 1))).

Definition push_back (v : T) (l : MutableList) : M MutableList := emplace_back v l.

(** [emplace_front] / [push_front] *)
Definition emplace_front (v : T) (l : MutableList) : M MutableList :=
  let* node := make_shared_Node (mkNode None None v) in
  let* h := node_load (head_ l) in
  let* first := ref_ptr (next h) in
  link (head_ l) node ;;
  link node first ;;
  ret (mkList (head_ l) (tail_ l) (wrap (size_ l + 1))).

Definition push_front (v : T) (l : MutableList) : M MutableList := emplace_front v l.

(** [erase(pos)]: two writes into existing cells, nothing else. *)
Definition erase (l : MutableList) (pos : iterator) : M (iterator * MutableList) :=
  let node := current_ pos in
  let* n := node_load node in
  let* pred := ref_ptr (prev n) in
  let* n' := node_load node in
  let* succ := ref_ptr (next n') in
  let* pn := node_load pred in
  ref_assign (next pn) succ ;;
  let* sn := node_load succ in
  ref_assign (prev sn) pred ;;
  ret (mkIter succ, mkList (head_ l) (tail_ l) (wrap (size_ l - 1))).

(** [erase_node(node)] *)
Definition erase_node (l : MutableList) (node : loc) : M MutableList :=
  let* n := node_load node in
  let* pred := ref_ptr (prev n) in
  let* n' := node_load node in
  let* succ := ref_ptr (next n') in
  let* pn := node_load pred in
  ref_assign (next pn) succ ;;
  let* sn := node_load succ in
  ref_assign (prev sn) pred ;;
  ret (mkList (head_ l) (tail_ l) (wrap (size_ l - 1))).

(** [pop_back()] and [pop_front()] *)
Definition pop_back (l : MutableList) : M MutableList :=
  if negb (empty l) then
    let* t := node_load (tail_ l) in
    let* p := ref_ptr (prev t) in
    let* r := erase l (mkIter p) in
    ret (snd r)
  else ret l.

Definition pop_front (l : MutableList) : M MutableList :=
  if negb (empty l) then
    let* b := begin_ l in
    let* r := erase l b in
    ret (snd r)
  else ret l.

(** [MutableList(std::initializer_list<T>)] *)
Fixpoint push_back_all (vs : list T) (l : MutableList) : M MutableList :=
  match vs with
  | [] => ret l
  | v :: vs' => let* l' := push_back v l in push_back_all vs' l'
  end.

Definition MutableList_init (T0 : T) (vs : list T) : M MutableList :=
  let* l := MutableList_new T0 in
  push_back_all vs l.

(** ** The loops of [main] *)

(** [for (auto it = list.begin(); it != list.end(); ++it)
       if (should_remove( *it)) list.erase(it); else show( *it);]
    The iterator is passed to [erase] by value and the returned iterator is
    dropped, so [++it] runs on the iterator still positioned at the erased
    node. *)
Fixpoint erase_loop (should_remove : T → bool) (fuel : nat)
    (l : MutableList) (it : iterator) : M (MutableList * list (event T)) :=
  match fuel with
  | O => λ s, (OutOfFuel, s)
  | S fuel' =>
      let* e := end_ l in
      if iter_eq it e then ret (l, [])
      else
        let* v := deref it in
        let* l' := (if should_remove v
                    then let* r := erase l it in ret (snd r)
                    else ret l) in
        let* it' := incr it in
        let* r := erase_loop should_remove fuel' l' it' in
        ret (fst r, (if should_remove v then Removing v else Listed v) :: snd r)
  end.

Definition erase_while_iterating (should_remove : T → bool) (fuel : nat)
    (l : MutableList) : M (MutableList * list (event T)) :=
  let* b := begin_ l in
  erase_loop should_remove fuel l b.

(** [for (const auto& x : list) show(x);] *)
Fixpoint range_loop (fuel : nat) (it e : iterator) : M (list T) :=
  match fuel with
  | O => λ s, (OutOfFuel, s)
  | S fuel' =>
      if iter_eq it e then ret []
      else
        let* v := deref it in
        let* it' := incr it in
        let* vs := range_loop fuel' it' e in
        ret (v :: vs)
  end.

Definition range_for (fuel : nat) (l : MutableList) : M (list T) :=
  let* b := begin_ l in
  let* e := end_ l in
  range_loop fuel b e.

(** [for (auto it = list.rbegin(); it != list.rend(); ++it) show( *it);] *)
Fixpoint reverse_loop (fuel : nat) (l : MutableList) (it : reverse_iterator)
    : M (list T) :=
  match fuel with
  | O => λ s, (OutOfFuel, s)
  | S fuel' =>
      let* e := rend l in
      if riter_eq it e then ret []
      else
        let* v := rderef it in
        let* it' := rincr it in
        let* vs := reverse_loop fuel' l it' in
        ret (v :: vs)
  end.

Definition reverse_for (fuel : nat) (l : MutableList) : M (list T) :=
  let* b := rbegin l in
  reverse_loop fuel l b.

End Chain.

Arguments ListNode : clear implicits.
Arguments store : clear implicits.
Arguments M : clear implicits.

Notation "'let*' x ':=' m 'in' k" := (bind m (λ x, k))
  (at level 10, x pattern, m at level 100, k at level 200, only parsing).
Notation "m ';;' k" := (bind m (λ _, k))
  (at level 100, k at level 200, right associativity, only parsing).

(** * Observations, invariant and reachable states

    Observations on a store, the stores the mutators produce, the chain
    invariant, the reachable states and the walks the claims speak of. *)

Inductive dir := Fwd | Bwd.

Section Model.
Context {T : Type}.
Implicit Types (s : store T) (l : MutableList) (a b c p q : Z) (d : dir)
  (r ns : list Z).

(** The member of a node that holds its cell for direction [d]. *)
Definition slot d (n : ListNode T) : option Z :=
  match d with Fwd => next n | Bwd => prev n end.

(** The cell a node holds for one direction ([a->next] or [a->prev]). *)
Definition cell s d a : option Z := n ← nodes s !! a; slot d n.

(** The node that cell currently designates ([a->next->ptr]). *)
Definition tgt s d a : option Z :=
  c ← cell s d a; r ← refs s !! c; Some (ptr r).

(** The value stored in a node ([a->value]). *)
Definition val s a : option T := value <$> nodes s !! a.

(** Every object lives below [brk]; a cell is held by one slot of one node. *)
Record store_ok s : Prop := {
  ok_brk : 0 < brk s ≤ addr_limit;
  ok_nodes : ∀ k, is_Some (nodes s !! k) → k < brk s;
  ok_refs : ∀ k, is_Some (refs s !! k) → k < brk s;
  ok_cells : ∀ d a c, cell s d a = Some c → c < brk s;
  ok_owner : ∀ d1 a1 d2 a2 c,
    cell s d1 a1 = Some c → cell s d2 a2 = Some c → d1 = d2 ∧ a1 = a2
}.

(** The node [n] after [n.next = c] or [n.prev = c]. *)
Definition with_slot d c (n : ListNode T) : ListNode T :=
  match d with
  | Fwd => mkNode (Some c) (prev n) (value n)
  | Bwd => mkNode (next n) (Some c) (value n)
  end.

(** The node [n] after [n.value = v]. *)
Definition with_value (v : T) (n : ListNode T) : ListNode T :=
  mkNode (next n) (prev n) v.

(** The store after [a->value = v]. *)
Definition value_store a (v : T) s : store T :=
  mkStore (alter (with_value v) a (nodes s)) (refs s) (brk s).

(** The store after [make_shared<Node>(v)]. *)
Definition node_store (v : T) s : store T :=
  mkStore (<[brk s := mkNode None None v]> (nodes s)) (refs s) (brk s + 1).

(** The store after [link(a, b)]. *)
Definition link_store a b s : store T :=
  mkStore (alter (with_slot Bwd (brk s + 1)) b
             (alter (with_slot Fwd (brk s)) a (nodes s)))
          (<[brk s + 1 := mkRef a]> (<[brk s := mkRef b]> (refs s)))
          (brk s + 2).

(** The store after the two writes of [erase]. *)
Definition unlink_store cp cs p q s : store T :=
  mkStore (nodes s) (<[cs := mkRef p]> (<[cp := mkRef q]> (refs s))) (brk s).

(** The store after [emplace_back] or [emplace_front] put a new node holding
    [v] between the neighbours [p] and [q]: one node allocation, then
    [link(p, node)] and [link(node, q)]. *)
Definition insert_store (v : T) p q s : store T :=
  link_store (brk s) q (link_store p (brk s) (node_store v s)).

(** From [s] to [s'], the link between [a] and [b] was (re)made and every
    other link, and every value, is as before. *)
Record relinked s s' a b : Prop := {
  rl_fwd : tgt s' Fwd a = Some b;
  rl_bwd : tgt s' Bwd b = Some a;
  rl_fwd_other : ∀ x, x ≠ a → tgt s' Fwd x = tgt s Fwd x;
  rl_bwd_other : ∀ x, x ≠ b → tgt s' Bwd x = tgt s Bwd x;
  rl_fcell_other : ∀ x, x ≠ a → cell s' Fwd x = cell s Fwd x;
  rl_bcell_other : ∀ x, x ≠ b → cell s' Bwd x = cell s Bwd x;
  rl_val : ∀ x, val s' x = val s x
}.

(** [a] and [b] are neighbours: each one's cell designates the other. *)
Definition linked s a b : Prop :=
  tgt s Fwd a = Some b ∧ tgt s Bwd b = Some a.

(** [a :: r] is a run of consecutive neighbours. *)
Fixpoint seg s a r : Prop :=
  match r with
  | [] => True
  | b :: r' => linked s a b ∧ seg s b r'
  end.

(** Last element of the non-empty list [a :: r]. *)
Fixpoint end_of a r : Z :=
  match r with
  | [] => a
  | b :: r' => end_of b r'
  end.

(** [ns] lists the ordinary nodes of the chain of [l], in order. *)
Record wf s l ns : Prop := {
  wf_ok : store_ok s;
  wf_nodup : NoDup (head_ l :: ns ++ [tail_ l]);
  wf_seg : seg s (head_ l) (ns ++ [tail_ l]);
  wf_head : cell s Bwd (head_ l) = None;
  wf_tail : cell s Fwd (tail_ l) = None;
  wf_size : size_ l = Z.of_nat (length ns);
  wf_room : Z.of_nat (length ns) < brk s
}.

(** A node is on the chain when following forward cells from the head
    sentinel reaches it; it is attached when, moreover, it is not a sentinel
    itself. *)
Definition on_chain s l p : Prop :=
  rtc (λ a b, tgt s Fwd a = Some b) (head_ l) p.

Definition attached s l n : Prop :=
  on_chain s l n ∧ n ≠ head_ l ∧ n ≠ tail_ l.

(** [k] times [++it]. *)
Fixpoint advance_n (k : nat) (it : iterator) : M T iterator :=
  match k with
  | O => ret it
  | S k' => let* it' := incr it in advance_n k' it'
  end.

(** One step of a cursor in either direction. *)
Definition step (d : dir) (it : iterator) : M T iterator :=
  match d with Fwd => incr it | Bwd => decr it end.

(** Number of nodes a cursor passes when it leaves [it] in direction [d]
    and stops as soon as it stands on [stop]. *)
Fixpoint count_until (d : dir) (stop : Z) (fuel : nat) (it : iterator)
    : M T nat :=
  match fuel with
  | O => λ s, (OutOfFuel, s)
  | S fuel' =>
      let* it' := step d it in
      if current_ it' =? stop then ret O
      else let* k := count_until d stop fuel' it' in ret (S k)
  end.

(** Ordinary nodes met from [head] following forward cells until [tail],
    and from [tail] following backward cells until [head]. *)
Definition count_forward (fuel : nat) (l : MutableList) : M T nat :=
  count_until Fwd (tail_ l) fuel (mkIter (head_ l)).

Definition count_backward (fuel : nat) (l : MutableList) : M T nat :=
  count_until Bwd (head_ l) fuel (mkIter (tail_ l)).

(** The values held by a list of nodes. *)
Definition vals (s : store T) (ns : list Z) : list T := omap (val s) ns.

(** What the deleting loop prints for a value, and whether it leaves the
    node holding it in the chain. *)
Definition event_of (should_remove : T → bool) (v : T) : event T :=
  if should_remove v then Removing v else Listed v.

Definition survives (should_remove : T → bool) (s : store T) (x : Z) : bool :=
  match val s x with
  | Some v => negb (should_remove v)
  | None => true
  end.

End Model.

Section ReachableStates.
Context {T : Type} (T0 : T).
Implicit Types (s : store T) (l : MutableList) (ns : list Z).

(** The states a program can bring a list into: construct it in some
    well-formed heap (the empty one, or one that already holds other
    lists), then push, erase attached nodes, pop, clear, or assign a value
    through a reference that [operator*], [front()] or [back()] returned.
    With [sentinel_writes = false] the assignments are restricted to those
    that do not go to a sentinel: through a cursor that is not at a
    sentinel, and through [front()] and [back()] of a list that is not
    empty. *)
Inductive reachable_by (sentinel_writes : bool)
    : store T → MutableList → Prop :=
  | reach_new s0 l s :
      store_ok s0 → MutableList_new T0 s0 = (Ret l, s) →
      reachable_by sentinel_writes s l
  | reach_push_back v s l l' s' :
      reachable_by sentinel_writes s l →
      push_back v l s = (Ret l', s') → reachable_by sentinel_writes s' l'
  | reach_push_front v s l l' s' :
      reachable_by sentinel_writes s l →
      push_front v l s = (Ret l', s') → reachable_by sentinel_writes s' l'
  | reach_erase n s l r s' :
      reachable_by sentinel_writes s l → attached s l n →
      erase l (mkIter n) s = (Ret r, s') →
      reachable_by sentinel_writes s' (snd r)
  | reach_erase_node n s l l' s' :
      reachable_by sentinel_writes s l → attached s l n →
      erase_node l n s = (Ret l', s') → reachable_by sentinel_writes s' l'
  | reach_pop_back s l l' s' :
      reachable_by sentinel_writes s l →
      pop_back l s = (Ret l', s') → reachable_by sentinel_writes s' l'
  | reach_pop_front s l l' s' :
      reachable_by sentinel_writes s l →
      pop_front l s = (Ret l', s') → reachable_by sentinel_writes s' l'
  | reach_clear s l l' s' :
      reachable_by sentinel_writes s l →
      clear l s = (Ret l', s') → reachable_by sentinel_writes s' l'
  | reach_assign n v s l s' :
      reachable_by sentinel_writes s l →
      (sentinel_writes = false → n ≠ head_ l ∧ n ≠ tail_ l) →
      deref_assign (mkIter n) v s = (Ret tt, s') →
      reachable_by sentinel_writes s' l
  | reach_front_assign v s l s' :
      reachable_by sentinel_writes s l →
      (sentinel_writes = false → size l ≠ 0) →
      front_assign l v s = (Ret tt, s') →
      reachable_by sentinel_writes s' l
  | reach_back_assign v s l s' :
      reachable_by sentinel_writes s l →
      (sentinel_writes = false → size l ≠ 0) →
      back_assign l v s = (Ret tt, s') →
      reachable_by sentinel_writes s' l.

(** Every state a program can reach. *)
Definition reachable : store T → MutableList → Prop := reachable_by true.

(** The states reached without an assignment into a sentinel. *)
Definition sentinels_unassigned : store T → MutableList → Prop :=
  reachable_by false.

(** The invariant of reachable states: a well-formed chain between two
    allocated sentinels. *)
Record inv s l ns : Prop := {
  inv_wf : wf s l ns;
  inv_head : is_Some (val s (head_ l));
  inv_tail : is_Some (val s (tail_ l))
}.

End ReachableStates.

(** * The rest of the class

    The members of [MutableList] no loop of [main] goes through: the copy
    and move constructors, [swap] and [operator=]. *)

(** What a [noexcept] function makes of its body: an exception that would
    leave it ends the program ([std::terminate]). *)
Inductive or_terminate (A : Type) : Type :=
  | Returned (a : A)
  | Terminated.
Arguments Returned {A} a.
Arguments Terminated {A}.

Section MoreCode.
Context {T : Type}.

Definition noexcept {A} (m : M T A) : M T (or_terminate A) := λ s,
  match m s with
  | (Ret a, s') => (Ret (Returned a), s')
  | (Throw _, s') => (Ret Terminated, s')
  | (Undefined, s') => (Undefined, s')
  | (OutOfFuel, s') => (OutOfFuel, s')
  end.

(** [for (const auto& v : other) push_back(v);] *)
Fixpoint copy_loop (fuel : nat) (it e : iterator) (l : MutableList)
    : M T MutableList :=
  match fuel with
  | O => λ s, (OutOfFuel, s)
  | S fuel' =>
      if iter_eq it e then ret l
      else
        let* v := deref it in
        let* l' := push_back v l in
        let* it' := incr it in
        copy_loop fuel' it' e l'
  end.

(** [MutableList(const MutableList& other)] *)
Definition MutableList_copy (T0 : T) (fuel : nat) (other : MutableList)
    : M T MutableList :=
  let* l := MutableList_new T0 in
  let* b := begin_ other in
  let* e := end_ other in
  copy_loop fuel b e l.

(** [MutableList(MutableList&& other) noexcept]: returns the new list and
    what [other] has become. *)
Definition MutableList_move (T0 : T) (other : MutableList)
    : M T (or_terminate (MutableList * MutableList)) :=
  noexcept
    (let this := mkList (head_ other) (tail_ other) (size_ other) in
     let* h := makeSentinel T0 in
     let* t := makeSentinel T0 in
     link h t ;;
     ret (this, mkList h t 0)).

(** [swap(other)]: the two list objects exchange their three members. *)
Definition swap (this other : MutableList) : MutableList * MutableList :=
  (mkList (head_ other) (tail_ other) (size_ other),
   mkList (head_ this) (tail_ this) (size_ this)).

(** [operator=(MutableList other)]: swap with the by-value argument and
    return [*this]. *)
Definition assign (this other : MutableList) : MutableList :=
  fst (swap this other).

(** [a = b] for an lvalue [b]: the argument of [operator=] is copy
    constructed from [b]. *)
Definition copy_assign (T0 : T) (fuel : nat) (this src : MutableList)
    : M T MutableList :=
  let* tmp := MutableList_copy T0 fuel src in
  ret (assign this tmp).

(** The elements a range-for reads, with the fuel a chain of [size()]
    nodes needs. *)
Definition elements (l : MutableList) : M T (list T) :=
  range_for (S (Z.to_nat (size l))) l.

(** A computation that raises no exception and allocates nothing, whatever
    the heap and whatever its outcome. *)
Definition no_alloc {A} (m : M T A) : Prop :=
  ∀ s o s', m s = (o, s') → (∀ e, o ≠ Throw e) ∧ brk s' = brk s.

(** The store [link(a, b)] leaves behind when its second allocation throws:
    [a] already holds a new forward cell designating [b], and [b] has not
    been written. *)
Definition half_link_store (a b : Z) (s : store T) : store T :=
  mkStore (alter (with_slot Fwd (brk s)) a (nodes s))
          (<[brk s := mkRef b]> (refs s))
          (brk s + 1).

(** [a :: r] is a run of nodes each of whose forward cell designates the
    next one. *)
Fixpoint fwd_run (s : store T) (a : Z) (r : list Z) : Prop :=
  match r with
  | [] => True
  | b :: r' => tgt s Fwd a = Some b ∧ fwd_run s b r'
  end.

(** Every object of [s0] is in [s] what it was in [s0]: same value, same
    cells, same neighbours. *)
Definition same_below (s0 s : store T) : Prop :=
  brk s0 ≤ brk s ∧
  ∀ x, x < brk s0 →
    val s x = val s0 x ∧
    ∀ d, tgt s d x = tgt s0 d x ∧ cell s d x = cell s0 d x.

End MoreCode.

(** ** Concrete chains of strings *)

(** The heap before anything is allocated; address 0 is the null pointer. *)
Definition empty_store {T} : store T := mkStore ∅ ∅ 1.

(** The empty list of strings, built in the empty heap: the head sentinel
    is object 1, the tail sentinel object 2, their two cells objects 3, 4. *)
Definition empty_chain : MutableList := mkList 1 2 0.

(** The heap holding [empty_chain]. *)
Definition empty_chain_store : store string :=
  mkStore {[ 1 := mkNode (Some 3) None EmptyString;
             2 := mkNode None (Some 4) EmptyString ]}
          {[ 3 := mkRef 2; 4 := mkRef 1 ]}
          5.

(** The initializer list of [main]. *)
Definition demo_values : list string := ["data1!"; "data2!"; "data3!"]%string.

(** [*it == "data1!"] *)
Definition is_data1 (v : string) : bool := String.eqb v "data1!".

(** [MutableList<std::string> list{"data1!", "data2!", "data3!"}] in the
    empty heap: sentinels 1 and 2, the three elements at 5, 10 and 15. *)
Definition demo_list : MutableList := mkList 1 2 3.

(** The heap holding [demo_list]. *)
Definition demo_store : store string :=
  snd (MutableList_init EmptyString demo_values empty_store).

(** The demo chain after a first cursor has erased "data2!" (object 10). *)
Definition demo_store_without_10 : store string :=
  snd (erase demo_list (mkIter 10) demo_store).

(** The empty list after [push_back("data1!")]. *)
Definition one_chain : MutableList := mkList 1 2 1.

(** The heap holding [one_chain]. *)
Definition one_chain_store : store string :=
  snd (push_back "data1!"%string empty_chain empty_chain_store).

(** The heap after [push_front("data1!")] on the empty list. *)
Definition one_chain_front_store : store string :=
  snd (push_front "data1!"%string empty_chain empty_chain_store).

(** The heap after [clear()] on the demo chain. *)
Definition demo_cleared_store : store string :=
  snd (clear demo_list demo_store).

(** A copy of the demo chain, made in the demo heap: its sentinels are the
    objects 20 and 21. *)
Definition demo_copy : MutableList := mkList 20 21 3.

(** The heap holding [demo_list] and [demo_copy]. *)
Definition demo_copy_store : store string :=
  snd (MutableList_copy EmptyString 4 demo_list demo_store).

(** What the move constructor leaves of its source [demo_list]. *)
Definition demo_moved_from : MutableList := mkList 20 21 0.

(** The heap after the demo chain has been moved from. *)
Definition demo_moved_store : store string :=
  snd (MutableList_move EmptyString demo_list demo_store).

(** A heap with room for six more objects. *)
Definition near_full_store : store string := mkStore ∅ ∅ (addr_limit - 6).

(** The empty list built in [near_full_store]; two addresses are left. *)
Definition last_chain : MutableList :=
  mkList (addr_limit - 6) (addr_limit - 5) 0.

(** The heap holding [last_chain]. *)
Definition last_chain_store : store string :=
  snd (MutableList_new EmptyString near_full_store).

(** An empty list whose construction used the last four addresses. *)
Definition exhausted_chain : MutableList :=
  mkList (addr_limit - 4) (addr_limit - 3) 0.

(** The heap holding [exhausted_chain]: no address is left. *)
Definition exhausted_chain_store : store string :=
  snd (MutableList_new EmptyString (mkStore ∅ ∅ (addr_limit - 4))).

(** * Running the primitives *)

Section Observations.
Context {T : Type}.
Implicit Types (s : store T) (l : MutableList) (a b c : Z) (d : dir).

Lemma bind_ret_inv {A B} (m : M T A) (k : A → M T B) s r s' :
  bind m k s = (Ret r, s') →
  ∃ x s1, m s = (Ret x, s1) ∧ k x s1 = (Ret r, s').
Proof.
  unfold bind. destruct (m s) as [[x| | |] s1]; try discriminate. eauto.
Qed.

Lemma bind_ret {A B} (m : M T A) (k : A → M T B) s x s1 :
  m s = (Ret x, s1) → bind m k s = k x s1.
Proof. unfold bind. by intros ->. Qed.

Lemma node_load_ret s a n :
  nodes s !! a = Some n → node_load a s = (Ret n, s).
Proof. unfold node_load. by intros ->. Qed.

Lemma step_ret s d a b :
  tgt s d a = Some b →
  ∃ n, nodes s !! a = Some n ∧ ref_ptr (slot d n) s = (Ret b, s).
Proof.
  unfold tgt, cell, ref_ptr. intros H.
  destruct (nodes s !! a) as [n|]; simpl in H; [|done].
  exists n. split; [done|].
  destruct (slot d n) as [c|]; simpl in H; [|done].
  destruct (refs s !! c) as [r|]; simpl in H; [|done]. congruence.
Qed.

Lemma incr_ret s a b :
  tgt s Fwd a = Some b → incr (mkIter a) s = (Ret (mkIter b), s).
Proof.
  intros (n & Hn & Hp)%step_ret. unfold incr. simpl.
  rewrite (bind_ret _ _ _ _ _ (node_load_ret _ _ _ Hn)).
  by rewrite (bind_ret _ _ _ _ _ Hp).
Qed.

Lemma decr_ret s a b :
  tgt s Bwd a = Some b → decr (mkIter a) s = (Ret (mkIter b), s).
Proof.
  intros (n & Hn & Hp)%step_ret. unfold decr. simpl.
  rewrite (bind_ret _ _ _ _ _ (node_load_ret _ _ _ Hn)).
  by rewrite (bind_ret _ _ _ _ _ Hp).
Qed.

Lemma deref_ret s a v :
  val s a = Some v → deref (mkIter a) s = (Ret v, s).
Proof.
  unfold val, deref. simpl. intros H.
  destruct (nodes s !! a) as [n|] eqn:Hn; simplify_eq/=.
  by rewrite (bind_ret _ _ _ _ _ (node_load_ret _ _ _ Hn)).
Qed.

Lemma begin_ret s l b :
  tgt s Fwd (head_ l) = Some b → begin_ l s = (Ret (mkIter b), s).
Proof.
  intros (n & Hn & Hp)%step_ret. unfold begin_.
  rewrite (bind_ret _ _ _ _ _ (node_load_ret _ _ _ Hn)).
  by rewrite (bind_ret _ _ _ _ _ Hp).
Qed.

Lemma tgt_val s d a b : tgt s d a = Some b → is_Some (val s a).
Proof.
  intros (n & Hn & _)%step_ret. unfold val. rewrite Hn. eauto.
Qed.

End Observations.

(** Split a successful [bind] into its first step and its continuation. *)
Ltac step H :=
  let x := fresh "x" in
  let s := fresh "s" in
  let Hs := fresh "Hstep" in
  apply bind_ret_inv in H as (x & s & Hs & H).

(** * Well-formed stores and the effect of the mutators *)

Section Effects.
Context {T : Type}.
Implicit Types (s : store T) (l : MutableList) (a b c : Z) (d : dir).

Lemma insert_as_alter {A} (f : A → A) (m : gmap Z A) k x :
  m !! k = Some x → <[k := f x]> m = alter f k m.
Proof.
  intros H. apply map_eq. intros j. rewrite lookup_insert, lookup_alter.
  destruct (decide (k = j)) as [->|]; [by rewrite H|done].
Qed.

Lemma make_shared_Node_inv n s x s' :
  make_shared_Node n s = (Ret x, s') →
  brk s < addr_limit ∧ x = brk s ∧
  s' = mkStore (<[brk s := n]> (nodes s)) (refs s) (brk s + 1).
Proof.
  unfold make_shared_Node. destruct (Z.ltb_spec (brk s) addr_limit); [|done].
  intros [= <- <-]. done.
Qed.

Lemma make_shared_Ref_inv p s x s' :
  make_shared_Ref p s = (Ret x, s') →
  brk s < addr_limit ∧ x = brk s ∧
  s' = mkStore (nodes s) (<[brk s := mkRef p]> (refs s)) (brk s + 1).
Proof.
  unfold make_shared_Ref. destruct (Z.ltb_spec (brk s) addr_limit); [|done].
  intros [= <- <-]. done.
Qed.

Lemma set_next_inv p c s u s' :
  set_next p c s = (Ret u, s') →
  s' = mkStore (alter (with_slot Fwd c) p (nodes s)) (refs s) (brk s).
Proof.
  unfold set_next. destruct (nodes s !! p) as [n|] eqn:Hn; [|done].
  intros [= _ <-]. f_equal. exact (insert_as_alter (with_slot Fwd c) _ _ _ Hn).
Qed.

Lemma set_prev_inv p c s u s' :
  set_prev p c s = (Ret u, s') →
  s' = mkStore (alter (with_slot Bwd c) p (nodes s)) (refs s) (brk s).
Proof.
  unfold set_prev. destruct (nodes s !! p) as [n|] eqn:Hn; [|done].
  intros [= _ <-]. f_equal. exact (insert_as_alter (with_slot Bwd c) _ _ _ Hn).
Qed.

Lemma link_inv a b s u s' :
  link a b s = (Ret u, s') →
  brk s + 1 < addr_limit ∧ s' = link_store a b s.
Proof.
  unfold link. intros H.
  step H. apply make_shared_Ref_inv in Hstep as (Hlt & -> & ->).
  step H. apply set_next_inv in Hstep as ->.
  step H. apply make_shared_Ref_inv in Hstep as (Hlt' & -> & ->).
  apply set_prev_inv in H as ->. cbn [brk nodes refs] in *.
  split; [done|]. unfold link_store. f_equal. lia.
Qed.

(** ** What a mutation does to the observations

    [link] and the two writes of [erase] have the same shape ([relinked]):
    afterwards [a]'s forward cell designates [b], [b]'s backward cell
    designates [a], and every other link of the heap is as before. *)

Lemma nodes_link_store a b s x :
  nodes (link_store a b s) !! x =
    (λ n, if decide (b = x) then with_slot Bwd (brk s + 1) n else n) <$>
    ((λ n, if decide (a = x) then with_slot Fwd (brk s) n else n) <$>
     nodes s !! x).
Proof.
  cbn [link_store nodes]. rewrite !lookup_alter.
  destruct (decide (b = x)) as [->|], (decide (a = x)) as [->|];
    by destruct (nodes s !! x).
Qed.

Lemma cell_link_store a b s d x :
  cell (link_store a b s) d x =
    match nodes s !! x with
    | None => None
    | Some n =>
        match d with
        | Fwd => if decide (a = x) then Some (brk s) else next n
        | Bwd => if decide (b = x) then Some (brk s + 1) else prev n
        end
    end.
Proof.
  unfold cell. rewrite nodes_link_store.
  destruct (nodes s !! x) as [n|]; [|done]. cbn.
  destruct (decide (b = x)), (decide (a = x)), d; done.
Qed.

Lemma cell_link_cases a b s d x c :
  cell (link_store a b s) d x = Some c →
  (d = Fwd ∧ x = a ∧ c = brk s) ∨ (d = Bwd ∧ x = b ∧ c = brk s + 1) ∨
  (cell s d x = Some c ∧ ¬ (d = Fwd ∧ x = a) ∧ ¬ (d = Bwd ∧ x = b)).
Proof.
  rewrite cell_link_store. unfold cell.
  destruct (nodes s !! x) as [n|]; [|done]. cbn.
  destruct d.
  - destruct (decide (a = x)) as [->|]; [intros [= <-]; auto|].
    intros H. right. right. repeat split; [done|by intros [_ ?]|by intros [? _]].
  - destruct (decide (b = x)) as [->|]; [intros [= <-]; auto|].
    intros H. right. right. repeat split; [done|by intros [? _]|by intros [_ ?]].
Qed.

Lemma val_link_store a b s x : val (link_store a b s) x = val s x.
Proof.
  unfold val. rewrite nodes_link_store.
  destruct (nodes s !! x) as [n|]; [|done]. cbn.
  destruct (decide (b = x)), (decide (a = x)); done.
Qed.

Lemma refs_link_store_old a b s c :
  c < brk s → refs (link_store a b s) !! c = refs s !! c.
Proof.
  intros. cbn [link_store refs].
  rewrite lookup_insert_ne, lookup_insert_ne by lia. done.
Qed.

Lemma tgt_link_store_old a b s d x :
  store_ok s → cell (link_store a b s) d x = cell s d x →
  tgt (link_store a b s) d x = tgt s d x.
Proof.
  intros Hok Hc. unfold tgt. rewrite Hc.
  destruct (cell s d x) as [c|] eqn:Hcell; [|done].
  change (refs (link_store a b s) !! c ≫= (λ r, Some (ptr r)) =
          refs s !! c ≫= (λ r, Some (ptr r))).
  rewrite refs_link_store_old; [done|]. by eapply ok_cells.
Qed.

Lemma link_store_relinked a b s :
  store_ok s → is_Some (nodes s !! a) → is_Some (nodes s !! b) →
  relinked s (link_store a b s) a b.
Proof.
  intros Hok [na Ha] [nb Hb].
  assert (∀ x, x ≠ a → cell (link_store a b s) Fwd x = cell s Fwd x) as Hf.
  { intros x Hx. rewrite cell_link_store. unfold cell.
    destruct (nodes s !! x); [|done]. by rewrite decide_False. }
  assert (∀ x, x ≠ b → cell (link_store a b s) Bwd x = cell s Bwd x) as Hb'.
  { intros x Hx. rewrite cell_link_store. unfold cell.
    destruct (nodes s !! x); [|done]. by rewrite decide_False. }
  split; try done.
  - unfold tgt. rewrite cell_link_store, Ha, decide_True by done. cbn.
    rewrite lookup_insert_ne, lookup_insert_eq by lia. done.
  - unfold tgt. rewrite cell_link_store, Hb, decide_True by done. cbn.
    rewrite lookup_insert_eq. done.
  - intros x Hx. apply tgt_link_store_old; auto.
  - intros x Hx. apply tgt_link_store_old; auto.
  - apply val_link_store.
Qed.

Lemma link_store_cells a b s :
  is_Some (nodes s !! a) → is_Some (nodes s !! b) →
  cell (link_store a b s) Fwd a = Some (brk s) ∧
  cell (link_store a b s) Bwd b = Some (brk s + 1).
Proof.
  intros [na Ha] [nb Hb]. rewrite !cell_link_store, Ha, Hb.
  by rewrite !decide_True.
Qed.

Lemma link_store_ok a b s :
  store_ok s → brk s + 1 < addr_limit → store_ok (link_store a b s).
Proof.
  intros Hok Hlt. destruct (ok_brk _ Hok). split.
  - cbn. lia.
  - intros k [n Hn]. rewrite nodes_link_store in Hn. cbn [link_store brk].
    destruct (nodes s !! k) eqn:Hk; [|done].
    assert (k < brk s) by (eapply ok_nodes; eauto). lia.
  - intros k. cbn [link_store refs brk]. rewrite !lookup_insert.
    repeat case_decide; try lia. intros ?%(ok_refs _ Hok). lia.
  - intros d x c [?|[?|[Hc _]]]%cell_link_cases; cbn [link_store brk];
      [lia|lia|]. apply (ok_cells _ Hok) in Hc. lia.
  - intros d1 a1 d2 a2 c H1 H2.
    apply cell_link_cases in H1 as [?|[?|[H1 ?]]];
      apply cell_link_cases in H2 as [?|[?|[H2 ?]]];
      try (pose proof (ok_cells _ Hok _ _ _ H1));
      try (pose proof (ok_cells _ Hok _ _ _ H2));
      try (destruct_and!; simplify_eq; (done || lia)).
    eapply ok_owner; eauto.
Qed.

(** Allocating a node changes no link. *)
Lemma cell_node_store v s d x :
  store_ok s → cell (node_store v s) d x = cell s d x.
Proof.
  intros Hok. unfold cell. cbn [node_store nodes]. rewrite lookup_insert.
  destruct (decide (brk s = x)) as [<-|]; [|done].
  destruct (nodes s !! brk s) eqn:Hn.
  - assert (brk s < brk s) by (eapply ok_nodes; eauto). lia.
  - by destruct d.
Qed.

Lemma tgt_node_store v s d x :
  store_ok s → tgt (node_store v s) d x = tgt s d x.
Proof. intros Hok. unfold tgt. by rewrite cell_node_store. Qed.

Lemma val_node_store v s x :
  val (node_store v s) x = if decide (brk s = x) then Some v else val s x.
Proof.
  unfold val. cbn [node_store nodes]. rewrite lookup_insert.
  by destruct (decide (brk s = x)).
Qed.

Lemma node_store_ok v s :
  store_ok s → brk s < addr_limit → store_ok (node_store v s).
Proof.
  intros Hok Hlt. destruct (ok_brk _ Hok). split.
  - cbn. lia.
  - intros k. cbn [node_store nodes brk]. rewrite lookup_insert.
    case_decide; [lia|]. intros ?%(ok_nodes _ Hok). lia.
  - intros k ?%(ok_refs _ Hok). cbn. lia.
  - intros d x c. rewrite cell_node_store by done.
    intros ?%(ok_cells _ Hok). cbn. lia.
  - intros d1 a1 d2 a2 c. rewrite !cell_node_store by done.
    apply (ok_owner _ Hok).
Qed.

(** Assigning a value changes no link and no other value. *)
Lemma set_value_inv a (v : T) s u s' :
  set_value a v s = (Ret u, s') →
  is_Some (val s a) ∧ s' = value_store a v s.
Proof.
  unfold set_value, val. destruct (nodes s !! a) as [n|] eqn:Hn; [|done].
  intros [= _ <-]. split; [by eauto|]. unfold value_store. f_equal.
  exact (insert_as_alter (with_value v) _ _ _ Hn).
Qed.

Lemma set_value_ret a (v : T) s :
  is_Some (val s a) → set_value a v s = (Ret tt, value_store a v s).
Proof.
  unfold set_value, val. destruct (nodes s !! a) as [n|] eqn:Hn.
  - intros _. unfold value_store. do 2 f_equal.
    exact (insert_as_alter (with_value v) _ _ _ Hn).
  - by intros [? ?].
Qed.

Lemma cell_value_store a (v : T) s d x :
  cell (value_store a v s) d x = cell s d x.
Proof.
  unfold cell. cbn [value_store nodes]. rewrite lookup_alter.
  destruct (decide (a = x)) as [->|]; [|done].
  destruct (nodes s !! x); [|done]. by destruct d.
Qed.

Lemma tgt_value_store a (v : T) s d x :
  tgt (value_store a v s) d x = tgt s d x.
Proof. unfold tgt. by rewrite cell_value_store. Qed.

Lemma val_value_store_eq a (v : T) s :
  is_Some (val s a) → val (value_store a v s) a = Some v.
Proof.
  unfold val. cbn [value_store nodes]. rewrite lookup_alter, decide_True by done.
  destruct (nodes s !! a); [done|]. by intros [? ?].
Qed.

Lemma val_value_store_ne a (v : T) s x :
  a ≠ x → val (value_store a v s) x = val s x.
Proof.
  intros Hne. unfold val. cbn [value_store nodes].
  by rewrite lookup_alter, decide_False.
Qed.

Lemma val_value_store_is_Some a (v : T) s x :
  is_Some (val (value_store a v s) x) ↔ is_Some (val s x).
Proof.
  unfold val. cbn [value_store nodes]. rewrite lookup_alter, !fmap_is_Some.
  destruct (decide (a = x)) as [->|]; [|done].
  by rewrite fmap_is_Some.
Qed.

Lemma value_store_ok a (v : T) s : store_ok s → store_ok (value_store a v s).
Proof.
  intros Hok. split.
  - apply (ok_brk _ Hok).
  - intros k Hk. apply (ok_nodes _ Hok).
    cbn [value_store nodes] in Hk. rewrite lookup_alter in Hk.
    destruct (decide (a = k)) as [<-|]; [by rewrite fmap_is_Some in Hk|done].
  - apply (ok_refs _ Hok).
  - intros d x c. rewrite cell_value_store. apply (ok_cells _ Hok).
  - intros d1 a1 d2 a2 c. rewrite !cell_value_store. apply (ok_owner _ Hok).
Qed.

(** The two writes of [erase]. *)
Lemma unlink_store_relinked cp cs p q s :
  store_ok s → cell s Fwd p = Some cp → cell s Bwd q = Some cs →
  relinked s (unlink_store cp cs p q s) p q.
Proof.
  intros Hok Hp Hq.
  assert (cp ≠ cs) as Hne.
  { intros ->. by destruct (ok_owner _ Hok _ _ _ _ _ Hp Hq). }
  split; try done.
  - unfold tgt, cell in *. cbn [unlink_store nodes refs]. rewrite Hp. cbn.
    rewrite lookup_insert_ne, lookup_insert_eq by done. done.
  - unfold tgt, cell in *. cbn [unlink_store nodes refs]. rewrite Hq. cbn.
    rewrite lookup_insert_eq. done.
  - intros x Hx. unfold tgt. change (cell (unlink_store cp cs p q s) Fwd x)
      with (cell s Fwd x).
    destruct (cell s Fwd x) as [c|] eqn:Hc; [|done]. cbn.
    rewrite !lookup_insert_ne; [done| |].
    + intros <-. destruct (ok_owner _ Hok _ _ _ _ _ Hc Hp). done.
    + intros <-. destruct (ok_owner _ Hok _ _ _ _ _ Hc Hq). done.
  - intros x Hx. unfold tgt. change (cell (unlink_store cp cs p q s) Bwd x)
      with (cell s Bwd x).
    destruct (cell s Bwd x) as [c|] eqn:Hc; [|done]. cbn.
    rewrite !lookup_insert_ne; [done| |].
    + intros <-. destruct (ok_owner _ Hok _ _ _ _ _ Hc Hp). done.
    + intros <-. destruct (ok_owner _ Hok _ _ _ _ _ Hc Hq). done.
Qed.

Lemma unlink_store_ok cp cs p q s :
  store_ok s → is_Some (refs s !! cp) → is_Some (refs s !! cs) →
  store_ok (unlink_store cp cs p q s).
Proof.
  intros Hok Hcp Hcs. split.
  - apply (ok_brk _ Hok).
  - apply (ok_nodes _ Hok).
  - intros k. cbn [unlink_store refs brk]. rewrite !lookup_insert.
    repeat case_decide; subst; intros ?; by apply (ok_refs _ Hok).
  - apply (ok_cells _ Hok).
  - apply (ok_owner _ Hok).
Qed.

End Effects.

(** * The chain invariant *)

Section Invariant.
Context {T : Type}.
Implicit Types (s : store T) (l : MutableList) (a b c n p q : Z) (d : dir)
  (r ns : list Z).

Lemma end_of_app a r1 r2 : end_of a (r1 ++ r2) = end_of (end_of a r1) r2.
Proof. revert a. induction r1 as [|b r1 IH]; intros a; cbn; auto. Qed.

Lemma end_of_snoc a r b : end_of a (r ++ [b]) = b.
Proof. by rewrite end_of_app. Qed.

Lemma end_of_elem a r : end_of a r ∈ a :: r.
Proof.
  revert a. induction r as [|b r IH]; intros a; cbn; [by left|].
  right. apply IH.
Qed.

Lemma snoc_hd r z : r ++ [z] = List.hd z r :: List.tl (r ++ [z]).
Proof. by destruct r. Qed.

Lemma seg_app s a r1 r2 :
  seg s a (r1 ++ r2) ↔ seg s a r1 ∧ seg s (end_of a r1) r2.
Proof.
  revert a. induction r1 as [|b r1 IH]; intros a; cbn; [tauto|].
  rewrite IH. tauto.
Qed.

Lemma seg_frame s s' a r :
  seg s a r →
  (∀ x y, x ∈ a :: r → y ∈ r → linked s x y → linked s' x y) →
  seg s' a r.
Proof.
  revert a. induction r as [|b r IH]; intros a; cbn; [done|].
  intros [Hl Hs] Hf. split.
  - apply Hf; [by left|by left|done].
  - apply IH; [done|]. intros x y Hx Hy. apply Hf; by right.
Qed.

Lemma seg_allocated s a r x :
  seg s a r → r ≠ [] → x ∈ a :: r → is_Some (val s x).
Proof.
  revert a. induction r as [|b r IH]; intros a; cbn; [done|].
  intros [[Hf Hb] Hs] _ Hx.
  apply elem_of_cons in Hx as [->|Hx]; [by eapply tgt_val|].
  destruct r as [|b' r]; [|by apply (IH b)].
  apply list_elem_of_singleton in Hx as ->. by eapply tgt_val.
Qed.

Lemma seg_next s a r x y :
  seg s a r → x ∈ a :: r → tgt s Fwd x = Some y → y ∈ r ∨ x = end_of a r.
Proof.
  revert a. induction r as [|b r IH]; intros a; cbn.
  - intros _ ->%list_elem_of_singleton _. by right.
  - intros [[Hf _] Hs] Hx Hy. apply elem_of_cons in Hx as [->|Hx].
    + left. rewrite Hf in Hy. injection Hy as <-. by left.
    + destruct (IH b Hs Hx Hy); [left; by right|by right].
Qed.

Lemma seg_rtc s a r x :
  seg s a r → x ∈ a :: r → rtc (λ a b, tgt s Fwd a = Some b) a x.
Proof.
  revert a. induction r as [|b r IH]; intros a; cbn.
  - intros _ ->%list_elem_of_singleton. done.
  - intros [[Hf _] Hs] [->|Hx]%elem_of_cons; [done|].
    eapply rtc_l; [exact Hf|]. by apply IH.
Qed.

Lemma relinked_linked s s' a0 b0 x y :
  relinked s s' a0 b0 → linked s x y → x ≠ a0 → y ≠ b0 → linked s' x y.
Proof.
  intros R [Hf Hb] Hx Hy. split.
  - by rewrite (rl_fwd_other _ _ _ _ R).
  - by rewrite (rl_bwd_other _ _ _ _ R).
Qed.

Section WithChain.
Context (s : store T) (l : MutableList) (ns : list Z) (Hwf : wf s l ns).

Lemma wf_allocated x : x ∈ head_ l :: ns ++ [tail_ l] → is_Some (val s x).
Proof.
  apply seg_allocated; [apply Hwf|]. by destruct ns.
Qed.

Lemma wf_below_brk x : x ∈ head_ l :: ns ++ [tail_ l] → x < brk s.
Proof.
  intros [v Hv]%wf_allocated. apply (ok_nodes _ (wf_ok _ _ _ Hwf)).
  unfold val in Hv. by destruct (nodes s !! x).
Qed.

Lemma wf_last_linked : linked s (end_of (head_ l) ns) (tail_ l).
Proof.
  pose proof (wf_seg _ _ _ Hwf) as H. apply seg_app in H as [_ H].
  apply H.
Qed.

Lemma wf_first_linked : linked s (head_ l) (List.hd (tail_ l) ns).
Proof.
  pose proof (wf_seg _ _ _ Hwf) as H. rewrite snoc_hd in H. apply H.
Qed.

Lemma wf_tail_no_fwd : tgt s Fwd (tail_ l) = None.
Proof. unfold tgt. by rewrite (wf_tail _ _ _ Hwf). Qed.

Lemma wf_head_no_bwd : tgt s Bwd (head_ l) = None.
Proof. unfold tgt. by rewrite (wf_head _ _ _ Hwf). Qed.

Lemma wf_fwd_closed x y :
  x ∈ head_ l :: ns ++ [tail_ l] → tgt s Fwd x = Some y →
  y ∈ ns ++ [tail_ l].
Proof.
  intros Hx Hy.
  destruct (seg_next _ _ _ _ _ (wf_seg _ _ _ Hwf) Hx Hy) as [?| ->]; [done|].
  rewrite end_of_snoc, wf_tail_no_fwd in Hy. done.
Qed.

Lemma wf_rtc_closed x y :
  rtc (λ a b, tgt s Fwd a = Some b) x y →
  x ∈ head_ l :: ns ++ [tail_ l] → y ∈ head_ l :: ns ++ [tail_ l].
Proof.
  induction 1 as [|x y z Hxy _ IH]; [done|].
  intros Hx. apply IH. right. by eapply wf_fwd_closed.
Qed.

Lemma wf_head_not_in : head_ l ∉ ns ++ [tail_ l].
Proof. by apply NoDup_cons, Hwf. Qed.

Lemma wf_tail_not_in : tail_ l ∉ ns.
Proof.
  pose proof (wf_nodup _ _ _ Hwf) as Hnd.
  apply NoDup_cons in Hnd as [_ Hnd].
  apply NoDup_app in Hnd as (_ & Hnd & _).
  intros Hin. apply (Hnd _ Hin). by left.
Qed.

Lemma wf_head_ne_tail : head_ l ≠ tail_ l.
Proof.
  intros E. apply wf_head_not_in. rewrite E.
  apply elem_of_app. right. by left.
Qed.

Lemma attached_elem n : attached s l n ↔ n ∈ ns.
Proof.
  split.
  - intros (Hr & Hh & Ht).
    apply wf_rtc_closed in Hr; [|by left].
    apply elem_of_cons in Hr as [?|Hr]; [done|].
    apply elem_of_app in Hr as [?|Hr]; [done|].
    by apply list_elem_of_singleton in Hr.
  - intros Hn. split_and!.
    + eapply seg_rtc; [apply Hwf|]. right. apply elem_of_app. by left.
    + intros ->. apply wf_head_not_in. apply elem_of_app. by left.
    + intros ->. by apply wf_tail_not_in.
Qed.

End WithChain.

Lemma val_allocated s x : is_Some (val s x) ↔ is_Some (nodes s !! x).
Proof. unfold val. apply fmap_is_Some. Qed.

Lemma cell_unallocated s d x : val s x = None → cell s d x = None.
Proof.
  unfold val, cell. by destruct (nodes s !! x).
Qed.

Lemma val_fresh s x : store_ok s → brk s ≤ x → val s x = None.
Proof.
  intros Hok Hx. destruct (val s x) eqn:Hv; [|done].
  assert (x < brk s); [|lia].
  apply (ok_nodes _ Hok), val_allocated. rewrite Hv. eauto.
Qed.

Lemma wrap_small z : 0 ≤ z < addr_limit → wrap z = z.
Proof. intros. unfold wrap. by apply Z.mod_small. Qed.

(** ** Construction *)

Lemma wf_new T0 s0 l s :
  store_ok s0 → MutableList_new T0 s0 = (Ret l, s) →
  wf s l [] ∧ val s (head_ l) = Some T0 ∧ val s (tail_ l) = Some T0 ∧
  (∀ x, x < brk s0 → val s x = val s0 x).
Proof.
  intros Hok H. unfold MutableList_new, makeSentinel in H.
  step H. apply make_shared_Node_inv in Hstep as (Hlt1 & -> & ->).
  step H. apply make_shared_Node_inv in Hstep as (Hlt2 & -> & ->).
  step H. apply link_inv in Hstep as (Hlt3 & ->).
  injection H as <- <-. cbn [brk head_ tail_ size_] in *.
  fold (node_store T0 s0) in *. fold (node_store T0 (node_store T0 s0)) in *.
  set (s1 := node_store T0 s0) in *. set (s2 := node_store T0 s1) in *.
  assert (store_ok s1) as Hok1 by by apply node_store_ok.
  assert (store_ok s2) as Hok2 by by apply node_store_ok.
  assert (val s2 (brk s0) = Some T0) as Hvh.
  { unfold s2. rewrite val_node_store, decide_False by (cbn; lia).
    unfold s1. by rewrite val_node_store, decide_True. }
  assert (val s2 (brk s0 + 1) = Some T0) as Hvt.
  { unfold s2. by rewrite val_node_store, decide_True. }
  assert (relinked s2 (link_store (brk s0) (brk s0 + 1) s2)
            (brk s0) (brk s0 + 1)) as R.
  { apply link_store_relinked; [done|apply val_allocated..].
    - rewrite Hvh. eauto.
    - rewrite Hvt. eauto. }
  split_and!.
  - split; cbn [head_ tail_ size_ app length].
    + by apply link_store_ok.
    + apply NoDup_cons. split; [|apply NoDup_singleton].
      intros ?%list_elem_of_singleton. lia.
    + cbn. split; [|done]. split; apply R.
    + rewrite (rl_bcell_other _ _ _ _ R) by lia.
      unfold s2, s1. rewrite !cell_node_store by done.
      apply cell_unallocated, val_fresh; [done|lia].
    + rewrite (rl_fcell_other _ _ _ _ R) by lia.
      unfold s2. rewrite cell_node_store by done.
      apply cell_unallocated, val_fresh; [done|]. cbn. lia.
    + done.
    + destruct (ok_brk _ Hok). cbn. lia.
  - by rewrite (rl_val _ _ _ _ R).
  - by rewrite (rl_val _ _ _ _ R).
  - intros y Hy. rewrite (rl_val _ _ _ _ R). unfold s2, s1.
    rewrite !val_node_store, !decide_False by (cbn; lia). done.
Qed.

(** ** Insertion: a fresh node between two neighbours

    [emplace_back] and [emplace_front] both allocate a node and call [link]
    twice, first with the left neighbour and then with the right one. *)

Lemma wf_insert v s l r1 r2 :
  wf s l (r1 ++ r2) → brk s + 4 < addr_limit →
  wf (insert_store v (end_of (head_ l) r1) (List.hd (tail_ l) r2) s)
     (mkList (head_ l) (tail_ l) (size_ l + 1))
     (r1 ++ brk s :: r2).
Proof.
  intros Hwf Hlt. unfold insert_store.
  set (p := end_of (head_ l) r1). set (q := List.hd (tail_ l) r2).
  set (node := brk s). set (s1 := node_store v s).
  set (s2 := link_store p node s1). set (s3 := link_store node q s2).
  pose proof (wf_ok _ _ _ Hwf) as Hok. destruct (ok_brk _ Hok) as [Hb0 _].
  (* the path, cut between [p] and [q] *)
  set (B := r2 ++ [tail_ l]).
  assert (B = q :: List.tl B) as HB by apply snoc_hd.
  assert (head_ l :: (r1 ++ r2) ++ [tail_ l] = (head_ l :: r1) ++ B) as Hpath.
  { unfold B. by rewrite <- app_assoc. }
  pose proof (wf_nodup _ _ _ Hwf) as Hnd. rewrite Hpath in Hnd.
  apply NoDup_app in Hnd as (HndA & Hdisj & HndB).
  assert (p ∈ head_ l :: r1) as HpA by apply end_of_elem.
  assert (q ∈ B) as HqB by (rewrite HB; by left).
  assert (tail_ l ∈ B) as HtB by (apply elem_of_app; right; by left).
  assert (∀ x, x ∈ (head_ l :: r1) ++ B → x < node) as Hold.
  { intros x Hx. eapply wf_below_brk; [done|]. by rewrite Hpath. }
  assert (∀ x, x ∈ (head_ l :: r1) ++ B → x ≠ node) as Hfresh.
  { intros x Hx%Hold. lia. }
  assert (∀ x, x ∈ head_ l :: r1 → x ≠ node) as HfreshA.
  { intros x Hx. apply Hfresh, elem_of_app. by left. }
  assert (∀ x, x ∈ B → x ≠ node) as HfreshB.
  { intros x Hx. apply Hfresh, elem_of_app. by right. }
  pose proof (wf_seg _ _ _ Hwf) as Hseg.
  rewrite <- app_assoc in Hseg. apply seg_app in Hseg as [HsegA HsegB].
  fold p B in HsegB. rewrite HB in HsegB. destruct HsegB as [Hpq HsegB].
  (* the three stores *)
  assert (store_ok s1) as Hok1 by (apply node_store_ok; [done|lia]).
  assert (brk s1 = node + 1) as Hbrk1 by done.
  assert (store_ok s2) as Hok2 by (apply link_store_ok; [done|lia]).
  assert (brk s2 = node + 3) as Hbrk2 by (cbn; lia).
  assert (store_ok s3) as Hok3 by (apply link_store_ok; [done|lia]).
  assert (val s1 node = Some v) as Hv1.
  { unfold s1. by rewrite val_node_store, decide_True. }
  assert (∀ x, x ≠ node → val s1 x = val s x) as Hv1'.
  { intros x Hx. unfold s1. by rewrite val_node_store, decide_False. }
  assert (∀ x, x ∈ (head_ l :: r1) ++ B → is_Some (val s1 x)) as Hal1.
  { intros x Hx. rewrite Hv1' by auto. eapply wf_allocated; [done|].
    by rewrite Hpath. }
  assert (relinked s1 s2 p node) as R1.
  { apply link_store_relinked; [done|apply val_allocated..].
    - apply Hal1, elem_of_app. by left.
    - rewrite Hv1. eauto. }
  assert (relinked s2 s3 node q) as R2.
  { apply link_store_relinked; [done|apply val_allocated..].
    - rewrite (rl_val _ _ _ _ R1), Hv1. eauto.
    - rewrite (rl_val _ _ _ _ R1). apply Hal1, elem_of_app. by right. }
  assert (∀ x y, linked s x y → x ≠ p → x ≠ node → y ≠ node → y ≠ q →
                 linked s3 x y) as Hkeep.
  { intros x y [Hf Hb] ????.
    eapply relinked_linked; [exact R2| |done..].
    eapply relinked_linked; [exact R1| |done..].
    split; unfold s1; by rewrite tgt_node_store. }
  split; cbn [head_ tail_ size_].
  - done.
  - assert (head_ l :: (r1 ++ node :: r2) ++ [tail_ l] =
            (head_ l :: r1) ++ node :: B) as ->
      by (unfold B; by rewrite <- app_assoc).
    rewrite <- Permutation_middle. apply NoDup_cons. split.
    + intros Hin. by apply (Hfresh node).
    + apply NoDup_app. done.
  - rewrite <- app_assoc. apply seg_app. split.
    + eapply seg_frame; [exact HsegA|]. intros x y Hx Hy Hxy.
      assert (y ∈ head_ l :: r1) as Hy' by by right.
      apply Hkeep; [done| |auto..].
      * intros ->. destruct Hxy as [Hf _], Hpq as [Hf' _].
        rewrite Hf' in Hf. injection Hf as <-. by apply (Hdisj q).
      * intros ->. by apply (Hdisj q).
    + fold p. cbn [app seg]. fold B. rewrite HB. cbn [seg]. split_and!.
      * split.
        -- rewrite (rl_fwd_other _ _ _ _ R2) by auto. apply R1.
        -- rewrite (rl_bwd_other _ _ _ _ R2) by (symmetry; auto). apply R1.
      * split; apply R2.
      * eapply seg_frame; [exact HsegB|]. intros x y Hx Hy Hxy.
        assert (x ∈ B) as Hx' by by rewrite HB.
        assert (y ∈ B) as Hy' by (rewrite HB; by right).
        apply Hkeep; [done| |auto..].
        -- intros ->. by apply (Hdisj p).
        -- intros ->. rewrite HB in HndB. by apply NoDup_cons in HndB as [? _].
  - rewrite (rl_bcell_other _ _ _ _ R2).
    + rewrite (rl_bcell_other _ _ _ _ R1) by (apply HfreshA; by left).
      unfold s1. rewrite cell_node_store by done. apply Hwf.
    + intros E. apply (Hdisj (head_ l)); [by left|by rewrite E].
  - rewrite (rl_fcell_other _ _ _ _ R2) by auto.
    rewrite (rl_fcell_other _ _ _ _ R1).
    + unfold s1. rewrite cell_node_store by done. apply Hwf.
    + intros E. apply (Hdisj p); [done|by rewrite <- E].
  - rewrite (wf_size _ _ _ Hwf), !length_app. cbn [length]. lia.
  - pose proof (wf_room _ _ _ Hwf) as Hr. rewrite !length_app in *.
    cbn [length]. cbn. lia.
Qed.

Lemma val_insert_store v p q s x :
  val (insert_store v p q s) x = if decide (brk s = x) then Some v else val s x.
Proof.
  unfold insert_store. by rewrite !val_link_store, val_node_store.
Qed.

Lemma emplace_back_inv v s l ns l' s' :
  wf s l ns → emplace_back v l s = (Ret l', s') →
  brk s + 4 < addr_limit ∧
  l' = mkList (head_ l) (tail_ l) (size_ l + 1) ∧
  s' = insert_store v (end_of (head_ l) ns) (tail_ l) s.
Proof.
  intros Hwf H. unfold emplace_back in H.
  pose proof (wf_ok _ _ _ Hwf) as Hok.
  step H. apply make_shared_Node_inv in Hstep as (Hlt & -> & ->).
  fold (node_store v s) in *.
  destruct (wf_last_linked _ _ _ Hwf) as [_ Hlast].
  rewrite <- (tgt_node_store v) in Hlast by done.
  apply step_ret in Hlast as (nt & Hnt & Hptr).
  step H. rewrite (node_load_ret _ _ _ Hnt) in Hstep. injection Hstep as <- <-.
  step H. cbn [slot] in Hptr. rewrite Hptr in Hstep. injection Hstep as <- <-.
  step H. apply link_inv in Hstep as (Hlt1 & ->).
  step H. apply link_inv in Hstep as (Hlt2 & ->).
  injection H as <- <-. cbn [brk node_store link_store] in *.
  split_and!; [lia| |done].
  f_equal. apply wrap_small.
  pose proof (wf_room _ _ _ Hwf). rewrite (wf_size _ _ _ Hwf). lia.
Qed.

Lemma emplace_front_inv v s l ns l' s' :
  wf s l ns → emplace_front v l s = (Ret l', s') →
  brk s + 4 < addr_limit ∧
  l' = mkList (head_ l) (tail_ l) (size_ l + 1) ∧
  s' = insert_store v (head_ l) (List.hd (tail_ l) ns) s.
Proof.
  intros Hwf H. unfold emplace_front in H.
  pose proof (wf_ok _ _ _ Hwf) as Hok.
  step H. apply make_shared_Node_inv in Hstep as (Hlt & -> & ->).
  fold (node_store v s) in *.
  destruct (wf_first_linked _ _ _ Hwf) as [Hfirst _].
  rewrite <- (tgt_node_store v) in Hfirst by done.
  apply step_ret in Hfirst as (nh & Hnh & Hptr).
  step H. rewrite (node_load_ret _ _ _ Hnh) in Hstep. injection Hstep as <- <-.
  step H. cbn [slot] in Hptr. rewrite Hptr in Hstep. injection Hstep as <- <-.
  step H. apply link_inv in Hstep as (Hlt1 & ->).
  step H. apply link_inv in Hstep as (Hlt2 & ->).
  injection H as <- <-. cbn [brk node_store link_store] in *.
  split_and!; [lia| |done].
  f_equal. apply wrap_small.
  pose proof (wf_room _ _ _ Hwf). rewrite (wf_size _ _ _ Hwf). lia.
Qed.

Lemma wf_emplace_back v s l ns l' s' :
  wf s l ns → emplace_back v l s = (Ret l', s') → wf s' l' (ns ++ [brk s]).
Proof.
  intros Hwf H. destruct (emplace_back_inv _ _ _ _ _ _ Hwf H) as (Hlt & -> & ->).
  rewrite <- (app_nil_r ns) in Hwf.
  apply (wf_insert v _ _ _ _ Hwf Hlt).
Qed.

Lemma wf_emplace_front v s l ns l' s' :
  wf s l ns → emplace_front v l s = (Ret l', s') → wf s' l' (brk s :: ns).
Proof.
  intros Hwf H. destruct (emplace_front_inv _ _ _ _ _ _ Hwf H) as (Hlt & -> & ->).
  apply (wf_insert v _ _ [] ns Hwf Hlt).
Qed.

(** ** Removal *)

Lemma ref_assign_run c v s :
  is_Some (refs s !! c) →
  ref_assign (Some c) v s =
    (Ret tt, mkStore (nodes s) (<[c := mkRef v]> (refs s)) (brk s)).
Proof. intros [r Hr]. unfold ref_assign. by rewrite Hr. Qed.

Lemma tgt_cell s d a b :
  tgt s d a = Some b →
  ∃ nd c, nodes s !! a = Some nd ∧ slot d nd = Some c ∧ cell s d a = Some c ∧
          refs s !! c = Some (mkRef b).
Proof.
  unfold tgt, cell. intros H.
  destruct (nodes s !! a) as [nd|]; [|done]. cbn in *.
  destruct (slot d nd) as [c|] eqn:Hc; [|done]. cbn in *.
  destruct (refs s !! c) as [[b']|] eqn:Hr; [|done]. cbn in *.
  injection H as ->. by exists nd, c.
Qed.

(** The shape of a chain around one of its ordinary nodes. *)
Lemma wf_around s l r1 n r2 :
  wf s l (r1 ++ n :: r2) →
  linked s (end_of (head_ l) r1) n ∧ linked s n (List.hd (tail_ l) r2).
Proof.
  intros Hwf. pose proof (wf_seg _ _ _ Hwf) as H.
  rewrite <- app_assoc in H. apply seg_app in H as [_ H].
  cbn [app seg] in H. destruct H as [Hp H]. rewrite snoc_hd in H.
  split; [done|apply H].
Qed.

Lemma unlink_run s nn pn qn n p q cp cs :
  nodes s !! n = Some nn → nodes s !! p = Some pn → nodes s !! q = Some qn →
  next pn = Some cp → prev qn = Some cs →
  ref_ptr (prev nn) s = (Ret p, s) → ref_ptr (next nn) s = (Ret q, s) →
  is_Some (refs s !! cp) → is_Some (refs s !! cs) →
  ∀ {A} (k : Z → Z → M T A),
  (let* nd := node_load n in
   let* pred := ref_ptr (prev nd) in
   let* nd' := node_load n in
   let* succ := ref_ptr (next nd') in
   let* pnd := node_load pred in
   ref_assign (next pnd) succ ;;
   let* snd := node_load succ in
   ref_assign (prev snd) pred ;;
   k pred succ) s = k p q (unlink_store cp cs p q s).
Proof.
  intros Hn Hp Hq Hcp Hcs Hpred Hsucc Hrp Hrs A k.
  rewrite (bind_ret _ _ _ _ _ (node_load_ret _ _ _ Hn)).
  rewrite (bind_ret _ _ _ _ _ Hpred).
  rewrite (bind_ret _ _ _ _ _ (node_load_ret _ _ _ Hn)).
  rewrite (bind_ret _ _ _ _ _ Hsucc).
  rewrite (bind_ret _ _ _ _ _ (node_load_ret _ _ _ Hp)).
  rewrite Hcp. rewrite (bind_ret _ _ _ _ _ (ref_assign_run _ _ _ Hrp)).
  erewrite bind_ret; [|by apply node_load_ret].
  rewrite Hcs. erewrite bind_ret; [done|].
  apply ref_assign_run. cbn [refs]. rewrite lookup_insert.
  by case_decide.
Qed.

Lemma erase_run s l r1 n r2 :
  wf s l (r1 ++ n :: r2) →
  let p := end_of (head_ l) r1 in
  let q := List.hd (tail_ l) r2 in
  let l' := mkList (head_ l) (tail_ l) (size_ l - 1) in
  ∃ cp cs,
    cell s Fwd p = Some cp ∧ cell s Bwd q = Some cs ∧
    refs s !! cp = Some (mkRef n) ∧ refs s !! cs = Some (mkRef n) ∧
    erase l (mkIter n) s = (Ret (mkIter q, l'), unlink_store cp cs p q s) ∧
    erase_node l n s = (Ret l', unlink_store cp cs p q s).
Proof.
  intros Hwf p q l'.
  destruct (wf_around _ _ _ _ _ Hwf) as [[Hpn Hnp] [Hnq Hqn]].
  fold p in Hpn, Hnp. fold q in Hnq, Hqn.
  destruct (step_ret _ _ _ _ Hnp) as (nn & Hnn & Hpred).
  destruct (step_ret _ _ _ _ Hnq) as (nn' & Hnn' & Hsucc).
  assert (nn' = nn) as -> by congruence.
  destruct (tgt_cell _ _ _ _ Hpn) as (pn & cp & Hp & Hcp & Hcellp & Hrp).
  destruct (tgt_cell _ _ _ _ Hqn) as (qn & cs & Hq & Hcs & Hcells & Hrs).
  assert (wrap (size_ l - 1) = size_ l - 1) as Hw.
  { apply wrap_small. pose proof (wf_room _ _ _ Hwf) as Hr.
    pose proof (ok_brk _ (wf_ok _ _ _ Hwf)).
    rewrite (wf_size _ _ _ Hwf). rewrite length_app in *. cbn [length] in *.
    lia. }
  exists cp, cs. split_and!; try done.
  - unfold erase. cbn [current_].
    rewrite (unlink_run s nn pn qn n p q cp cs Hnn Hp Hq Hcp Hcs Hpred Hsucc
               (mk_is_Some _ _ Hrp) (mk_is_Some _ _ Hrs)
               (λ pred succ, ret (mkIter succ, _))).
    unfold ret. by rewrite Hw.
  - unfold erase_node.
    rewrite (unlink_run s nn pn qn n p q cp cs Hnn Hp Hq Hcp Hcs Hpred Hsucc
               (mk_is_Some _ _ Hrp) (mk_is_Some _ _ Hrs)
               (λ pred succ, ret _)).
    unfold ret. by rewrite Hw.
Qed.

Lemma wf_unlink s l r1 n r2 cp cs :
  wf s l (r1 ++ n :: r2) →
  let p := end_of (head_ l) r1 in
  let q := List.hd (tail_ l) r2 in
  cell s Fwd p = Some cp → cell s Bwd q = Some cs →
  wf (unlink_store cp cs p q s)
     (mkList (head_ l) (tail_ l) (size_ l - 1)) (r1 ++ r2).
Proof.
  intros Hwf p q Hcp Hcs.
  pose proof (wf_ok _ _ _ Hwf) as Hok.
  destruct (wf_around _ _ _ _ _ Hwf) as [[Hpn Hnp] [Hnq Hqn]].
  fold p in Hpn, Hnp. fold q in Hnq, Hqn.
  assert (relinked s (unlink_store cp cs p q s) p q) as R
    by by apply unlink_store_relinked.
  set (B := r2 ++ [tail_ l]).
  assert (B = q :: List.tl B) as HB by apply snoc_hd.
  pose proof (wf_nodup _ _ _ Hwf) as Hnd.
  assert (head_ l :: (r1 ++ n :: r2) ++ [tail_ l] = (head_ l :: r1) ++ n :: B)
    as Hpath by (unfold B; by rewrite <- app_assoc).
  rewrite Hpath in Hnd. rewrite <- Permutation_middle in Hnd.
  apply NoDup_cons in Hnd as [HnAB Hnd].
  pose proof Hnd as Hnd'.
  apply NoDup_app in Hnd' as (HndA & Hdisj & HndB).
  assert (p ∈ head_ l :: r1) as HpA by apply end_of_elem.
  assert (q ∈ B) as HqB by (rewrite HB; by left).
  pose proof (wf_seg _ _ _ Hwf) as Hseg.
  rewrite <- app_assoc in Hseg. apply seg_app in Hseg as [HsegA HsegB].
  cbn [app seg] in HsegB. destruct HsegB as [_ HsegB].
  fold B in HsegB. rewrite HB in HsegB. destruct HsegB as [_ HsegB].
  split; cbn [head_ tail_ size_].
  - destruct (tgt_cell _ _ _ _ Hpn) as (? & ? & _ & _ & ? & ?).
    destruct (tgt_cell _ _ _ _ Hqn) as (? & ? & _ & _ & ? & ?).
    apply unlink_store_ok; [done|..]; simplify_eq; eauto.
  - by rewrite <- app_assoc.
  - rewrite <- app_assoc. apply seg_app. split.
    + eapply seg_frame; [exact HsegA|]. intros x y Hx Hy Hxy.
      eapply relinked_linked; [exact R|done|..].
      * intros ->. destruct Hxy as [Hf _]. rewrite Hpn in Hf.
        injection Hf as <-. apply HnAB.
        apply elem_of_app. left. by right.
      * intros ->. apply (Hdisj q); [by right|done].
    + fold p B. rewrite HB. cbn [seg]. split; [split; apply R|].
      eapply seg_frame; [exact HsegB|]. intros x y Hx Hy Hxy.
      eapply relinked_linked; [exact R|done|..].
      * intros ->. apply (Hdisj p); [done|by rewrite HB].
      * intros ->. rewrite HB in HndB. by apply NoDup_cons in HndB as [? _].
  - change (cell s Bwd (head_ l) = None). apply Hwf.
  - change (cell s Fwd (tail_ l) = None). apply Hwf.
  - rewrite (wf_size _ _ _ Hwf), !length_app. cbn [length]. lia.
  - pose proof (wf_room _ _ _ Hwf) as Hr. rewrite !length_app in *.
    cbn [length] in *. cbn. lia.
Qed.

Lemma wf_clear s l ns l' s' :
  wf s l ns → clear l s = (Ret l', s') → wf s' l' [].
Proof.
  intros Hwf H. unfold clear in H.
  step H. apply link_inv in Hstep as (Hlt & ->). injection H as <- <-.
  pose proof (wf_ok _ _ _ Hwf) as Hok.
  pose proof (wf_head_ne_tail _ _ _ Hwf) as Hne.
  assert (relinked s (link_store (head_ l) (tail_ l) s) (head_ l) (tail_ l)) as R.
  { apply link_store_relinked; [done|apply val_allocated..];
      apply (wf_allocated _ _ _ Hwf); [by left|].
    right. apply elem_of_app. right. by left. }
  split; cbn [head_ tail_ size_ app length].
  - by apply link_store_ok.
  - apply NoDup_cons. split; [|apply NoDup_singleton].
    by intros ?%list_elem_of_singleton.
  - cbn. split; [|done]. split; apply R.
  - rewrite (rl_bcell_other _ _ _ _ R) by done. apply Hwf.
  - rewrite (rl_fcell_other _ _ _ _ R) by done. apply Hwf.
  - done.
  - destruct (ok_brk _ Hok). cbn. lia.
Qed.

(** ** Assignment through a reference *)

Lemma wf_value_store a (v : T) s l ns :
  wf s l ns → wf (value_store a v s) l ns.
Proof.
  intros Hwf. split.
  - apply value_store_ok, (wf_ok _ _ _ Hwf).
  - apply (wf_nodup _ _ _ Hwf).
  - apply (seg_frame s); [apply (wf_seg _ _ _ Hwf)|]. intros x y _ _.
    unfold linked. by rewrite !tgt_value_store.
  - rewrite cell_value_store. apply (wf_head _ _ _ Hwf).
  - rewrite cell_value_store. apply (wf_tail _ _ _ Hwf).
  - apply (wf_size _ _ _ Hwf).
  - apply (wf_room _ _ _ Hwf).
Qed.

Lemma front_assign_run (v : T) s l ns :
  wf s l ns → front_assign l v s = set_value (List.hd (tail_ l) ns) v s.
Proof.
  intros Hwf. destruct (wf_first_linked _ _ _ Hwf) as [Hf _].
  apply step_ret in Hf as (nh & Hnh & Hp). cbn [slot] in Hp.
  unfold front_assign.
  rewrite (bind_ret _ _ _ _ _ (node_load_ret _ _ _ Hnh)).
  by rewrite (bind_ret _ _ _ _ _ Hp).
Qed.

Lemma back_assign_run (v : T) s l ns :
  wf s l ns → back_assign l v s = set_value (end_of (head_ l) ns) v s.
Proof.
  intros Hwf. destruct (wf_last_linked _ _ _ Hwf) as [_ Hb].
  apply step_ret in Hb as (nt & Hnt & Hp). cbn [slot] in Hp.
  unfold back_assign.
  rewrite (bind_ret _ _ _ _ _ (node_load_ret _ _ _ Hnt)).
  by rewrite (bind_ret _ _ _ _ _ Hp).
Qed.

Lemma wf_first_in s l ns : wf s l ns → ns ≠ [] → List.hd (tail_ l) ns ∈ ns.
Proof. intros _ Hne. destruct ns; [done|]. by left. Qed.

Lemma wf_last_in s l ns : wf s l ns → ns ≠ [] → end_of (head_ l) ns ∈ ns.
Proof.
  intros _ Hne. destruct ns as [|n0 ns0] using rev_ind; [done|].
  rewrite end_of_snoc. apply elem_of_app. right. by left.
Qed.

End Invariant.

(** * Reachable chains *)

Section Reachable.
Context {T : Type} (T0 : T).
Implicit Types (s : store T) (l : MutableList) (n : Z) (ns : list Z).

Lemma inv_erase s l ns n r s' :
  inv s l ns → n ∈ ns → erase l (mkIter n) s = (Ret r, s') →
  ∃ r1 r2, ns = r1 ++ n :: r2 ∧ inv s' (snd r) (r1 ++ r2) ∧
    head_ (snd r) = head_ l ∧ tail_ (snd r) = tail_ l ∧
    ∀ x, val s' x = val s x.
Proof.
  intros [Hwf Hh Ht] (r1 & r2 & ->)%list_elem_of_split H.
  destruct (erase_run _ _ _ _ _ Hwf) as (cp & cs & Hcp & Hcs & _ & _ & He & _).
  rewrite He in H. injection H as <- <-. exists r1, r2. split; [done|].
  split; [|done]. split; [by apply (wf_unlink _ _ r1 n r2)|done..].
Qed.

Lemma inv_erase_node s l ns n l' s' :
  inv s l ns → n ∈ ns → erase_node l n s = (Ret l', s') →
  ∃ r1 r2, ns = r1 ++ n :: r2 ∧ inv s' l' (r1 ++ r2) ∧
    head_ l' = head_ l ∧ tail_ l' = tail_ l ∧
    ∀ x, val s' x = val s x.
Proof.
  intros [Hwf Hh Ht] (r1 & r2 & ->)%list_elem_of_split H.
  destruct (erase_run _ _ _ _ _ Hwf) as (cp & cs & Hcp & Hcs & _ & _ & _ & He).
  rewrite He in H. injection H as <- <-. exists r1, r2. split; [done|].
  split; [|done]. split; [by apply (wf_unlink _ _ r1 n r2)|done..].
Qed.

Lemma inv_sentinel_below s l ns :
  inv s l ns → head_ l < brk s ∧ tail_ l < brk s.
Proof.
  intros [Hwf _ _]. split; apply (wf_below_brk _ _ _ Hwf); [by left|].
  right. apply elem_of_app. right. by left.
Qed.

Lemma push_back_old_vals v s l ns l' s' :
  inv s l ns → push_back v l s = (Ret l', s') →
  head_ l' = head_ l ∧ tail_ l' = tail_ l ∧
  ∀ x, x < brk s → val s' x = val s x.
Proof.
  intros [Hwf _ _] H.
  destruct (emplace_back_inv _ _ _ _ _ _ Hwf H) as (_ & -> & ->).
  split_and!; [done..|]. intros x Hx.
  by rewrite val_insert_store, decide_False by lia.
Qed.

Lemma push_front_old_vals v s l ns l' s' :
  inv s l ns → push_front v l s = (Ret l', s') →
  head_ l' = head_ l ∧ tail_ l' = tail_ l ∧
  ∀ x, x < brk s → val s' x = val s x.
Proof.
  intros [Hwf _ _] H.
  destruct (emplace_front_inv _ _ _ _ _ _ Hwf H) as (_ & -> & ->).
  split_and!; [done..|]. intros x Hx.
  by rewrite val_insert_store, decide_False by lia.
Qed.

Lemma inv_push_back v s l ns l' s' :
  inv s l ns → push_back v l s = (Ret l', s') → inv s' l' (ns ++ [brk s]).
Proof.
  intros Hinv H. destruct (inv_sentinel_below _ _ _ Hinv).
  destruct (push_back_old_vals _ _ _ _ _ _ Hinv H) as (Eh & Et & Hv).
  destruct Hinv as [Hwf Hh Ht].
  split; [by eapply wf_emplace_back|rewrite Eh|rewrite Et]; by rewrite Hv.
Qed.

Lemma inv_push_front v s l ns l' s' :
  inv s l ns → push_front v l s = (Ret l', s') → inv s' l' (brk s :: ns).
Proof.
  intros Hinv H. destruct (inv_sentinel_below _ _ _ Hinv).
  destruct (push_front_old_vals _ _ _ _ _ _ Hinv H) as (Eh & Et & Hv).
  destruct Hinv as [Hwf Hh Ht].
  split; [by eapply wf_emplace_front|rewrite Eh|rewrite Et]; by rewrite Hv.
Qed.

Lemma clear_vals s l l' s' :
  clear l s = (Ret l', s') →
  head_ l' = head_ l ∧ tail_ l' = tail_ l ∧ ∀ x, val s' x = val s x.
Proof.
  intros H. unfold clear in H. step H. apply link_inv in Hstep as (_ & ->).
  injection H as <- <-. split_and!; [done..|]. intros y.
  by rewrite val_link_store.
Qed.

Lemma inv_clear s l ns l' s' :
  inv s l ns → clear l s = (Ret l', s') → inv s' l' [].
Proof.
  intros [Hwf Hh Ht] H. destruct (clear_vals _ _ _ _ H) as (Eh & Et & Hv).
  split; [by eapply wf_clear|rewrite Eh|rewrite Et]; by rewrite Hv.
Qed.

Lemma inv_empty s l ns : inv s l ns → size_ l = 0 → ns = [].
Proof.
  intros [Hwf _ _] H0. rewrite (wf_size _ _ _ Hwf) in H0.
  destruct ns; [done|]. cbn in H0. lia.
Qed.

Lemma inv_pop_back s l ns l' s' :
  inv s l ns → pop_back l s = (Ret l', s') →
  inv s' l' (removelast ns) ∧
  head_ l' = head_ l ∧ tail_ l' = tail_ l ∧ ∀ x, val s' x = val s x.
Proof.
  intros Hinv H. unfold pop_back, empty in H.
  destruct (Z.eqb_spec (size_ l) 0) as [H0|H0]; cbn [negb] in H.
  - injection H as <- <-. by pose proof (inv_empty _ _ _ Hinv H0) as ->.
  - destruct ns as [|n0 ns0] using rev_ind.
    { destruct Hinv as [Hwf _ _]. by rewrite (wf_size _ _ _ Hwf) in H0. }
    clear IHns0. rewrite removelast_last.
    pose proof (inv_wf _ _ _ Hinv) as Hwf.
    destruct (wf_last_linked _ _ _ Hwf) as [_ Hl].
    rewrite end_of_snoc in Hl.
    apply step_ret in Hl as (nt & Hnt & Hptr). cbn [slot] in Hptr.
    rewrite (bind_ret _ _ _ _ _ (node_load_ret _ _ _ Hnt)) in H.
    rewrite (bind_ret _ _ _ _ _ Hptr) in H.
    step H. injection H as <- <-.
    destruct Hinv as [Hwf' Hh Ht].
    destruct (erase_run _ _ ns0 n0 [] Hwf')
      as (cp & cs & Hcp & Hcs & _ & _ & He & _).
    rewrite He in Hstep. injection Hstep as <- <-. cbn [snd].
    pose proof (wf_unlink _ _ ns0 n0 [] cp cs Hwf' Hcp Hcs) as Hw.
    rewrite app_nil_r in Hw. by split.
Qed.

Lemma inv_pop_front s l ns l' s' :
  inv s l ns → pop_front l s = (Ret l', s') →
  inv s' l' (List.tl ns) ∧
  head_ l' = head_ l ∧ tail_ l' = tail_ l ∧ ∀ x, val s' x = val s x.
Proof.
  intros Hinv H. unfold pop_front, empty in H.
  destruct (Z.eqb_spec (size_ l) 0) as [H0|H0]; cbn [negb] in H.
  - injection H as <- <-. by pose proof (inv_empty _ _ _ Hinv H0) as ->.
  - destruct ns as [|n0 ns0].
    { destruct Hinv as [Hwf _ _]. by rewrite (wf_size _ _ _ Hwf) in H0. }
    cbn [List.tl].
    pose proof (inv_wf _ _ _ Hinv) as Hwf.
    destruct (wf_first_linked _ _ _ Hwf) as [Hf _]. cbn [List.hd] in Hf.
    rewrite (bind_ret _ _ _ _ _ (begin_ret _ _ _ Hf)) in H.
    step H. injection H as <- <-.
    destruct Hinv as [Hwf' Hh Ht].
    destruct (erase_run _ _ [] n0 ns0 Hwf')
      as (cp & cs & Hcp & Hcs & _ & _ & He & _).
    rewrite He in Hstep. injection Hstep as <- <-. cbn [snd].
    split; [|done]. split; [by apply (wf_unlink _ _ [] n0 ns0)|done..].
Qed.

Lemma inv_value_store a (v : T) s l ns :
  inv s l ns → inv (value_store a v s) l ns.
Proof.
  intros [Hwf Hh Ht].
  split; [by apply wf_value_store|by apply val_value_store_is_Some..].
Qed.

Lemma assign_run n (v : T) s l ns s' :
  inv s l ns → deref_assign (mkIter n) v s = (Ret tt, s') →
  s' = value_store n v s ∧ is_Some (val s n).
Proof.
  intros _ H. unfold deref_assign in H. cbn [current_] in H.
  by apply set_value_inv in H as [? ->].
Qed.

Lemma front_assign_inv (v : T) s l ns s' :
  inv s l ns → front_assign l v s = (Ret tt, s') →
  s' = value_store (List.hd (tail_ l) ns) v s.
Proof.
  intros [Hwf _ _] H. rewrite (front_assign_run _ _ _ _ Hwf) in H.
  by apply set_value_inv in H as [_ ->].
Qed.

Lemma back_assign_inv (v : T) s l ns s' :
  inv s l ns → back_assign l v s = (Ret tt, s') →
  s' = value_store (end_of (head_ l) ns) v s.
Proof.
  intros [Hwf _ _] H. rewrite (back_assign_run _ _ _ _ Hwf) in H.
  by apply set_value_inv in H as [_ ->].
Qed.

Lemma inv_nonempty s l ns : inv s l ns → size l ≠ 0 → ns ≠ [].
Proof.
  intros [Hwf _ _] H0 ->. apply H0. unfold size.
  by rewrite (wf_size _ _ _ Hwf).
Qed.

(** Every reachable state satisfies the invariant; as long as nothing was
    assigned into a sentinel, both sentinels hold the value-initialised
    [T] they were made with. *)
Theorem reachable_by_inv w s l :
  reachable_by T0 w s l →
  ∃ ns, inv s l ns ∧
    (w = false → val s (head_ l) = Some T0 ∧ val s (tail_ l) = Some T0).
Proof.
  induction 1 as [s0 l s Hok H
                 |v s l l' s' _ (ns & IH & IV) H
                 |v s l l' s' _ (ns & IH & IV) H
                 |n s l r s' _ (ns & IH & IV) Ha H
                 |n s l l' s' _ (ns & IH & IV) Ha H
                 |s l l' s' _ (ns & IH & IV) H
                 |s l l' s' _ (ns & IH & IV) H
                 |s l l' s' _ (ns & IH & IV) H
                 |n v s l s' _ (ns & IH & IV) Hw H
                 |v s l s' _ (ns & IH & IV) Hw H
                 |v s l s' _ (ns & IH & IV) Hw H].
  - exists []. destruct (wf_new _ _ _ _ Hok H) as (? & Hh & Ht & _).
    split; [|done]. split; [done|rewrite Hh|rewrite Ht]; eauto.
  - exists (ns ++ [brk s]). split; [by eapply inv_push_back|]. intros Hf.
    destruct (inv_sentinel_below _ _ _ IH).
    destruct (push_back_old_vals _ _ _ _ _ _ IH H) as (-> & -> & Hv).
    rewrite !Hv by done. auto.
  - exists (brk s :: ns). split; [by eapply inv_push_front|]. intros Hf.
    destruct (inv_sentinel_below _ _ _ IH).
    destruct (push_front_old_vals _ _ _ _ _ _ IH H) as (-> & -> & Hv).
    rewrite !Hv by done. auto.
  - apply (attached_elem _ _ _ (inv_wf _ _ _ IH)) in Ha.
    destruct (inv_erase _ _ _ _ _ _ IH Ha H)
      as (r1 & r2 & _ & ? & -> & -> & Hv).
    exists (r1 ++ r2). split; [done|]. rewrite !Hv. auto.
  - apply (attached_elem _ _ _ (inv_wf _ _ _ IH)) in Ha.
    destruct (inv_erase_node _ _ _ _ _ _ IH Ha H)
      as (r1 & r2 & _ & ? & -> & -> & Hv).
    exists (r1 ++ r2). split; [done|]. rewrite !Hv. auto.
  - destruct (inv_pop_back _ _ _ _ _ IH H) as (? & -> & -> & Hv).
    eexists. split; [done|]. rewrite !Hv. auto.
  - destruct (inv_pop_front _ _ _ _ _ IH H) as (? & -> & -> & Hv).
    eexists. split; [done|]. rewrite !Hv. auto.
  - destruct (clear_vals _ _ _ _ H) as (-> & -> & Hv).
    eexists. split; [by eapply inv_clear|]. rewrite !Hv. auto.
  - destruct (assign_run _ _ _ _ _ _ IH H) as [-> _].
    exists ns. split; [by apply inv_value_store|]. intros Hf.
    destruct (Hw Hf). rewrite !val_value_store_ne by done. auto.
  - rewrite (front_assign_inv _ _ _ _ _ IH H).
    exists ns. split; [by apply inv_value_store|]. intros Hf.
    pose proof (inv_wf _ _ _ IH) as Hwf.
    pose proof (wf_first_in _ _ _ Hwf (inv_nonempty _ _ _ IH (Hw Hf))) as Hin.
    rewrite !val_value_store_ne; [auto| |].
    + intros E. apply (wf_tail_not_in _ _ _ Hwf). by rewrite <- E.
    + intros E. apply (wf_head_not_in _ _ _ Hwf). rewrite <- E.
      apply elem_of_app. by left.
  - rewrite (back_assign_inv _ _ _ _ _ IH H).
    exists ns. split; [by apply inv_value_store|]. intros Hf.
    pose proof (inv_wf _ _ _ IH) as Hwf.
    pose proof (wf_last_in _ _ _ Hwf (inv_nonempty _ _ _ IH (Hw Hf))) as Hin.
    rewrite !val_value_store_ne; [auto| |].
    + intros E. apply (wf_tail_not_in _ _ _ Hwf). by rewrite <- E.
    + intros E. apply (wf_head_not_in _ _ _ Hwf). rewrite <- E.
      apply elem_of_app. by left.
Qed.

Theorem reachable_inv s l : reachable T0 s l → ∃ ns, inv s l ns.
Proof. intros (ns & ? & _)%reachable_by_inv. eauto. Qed.

Lemma unassigned_sentinels s l :
  sentinels_unassigned T0 s l →
  val s (head_ l) = Some T0 ∧ val s (tail_ l) = Some T0.
Proof. intros (ns & _ & H)%reachable_by_inv. by apply H. Qed.

(** A state reached without an assignment into a sentinel is reachable. *)
Lemma unassigned_reachable s l :
  sentinels_unassigned T0 s l → reachable T0 s l.
Proof.
  unfold sentinels_unassigned, reachable.
  induction 1;
    eauto using reach_new, reach_push_back, reach_push_front, reach_erase,
      reach_erase_node, reach_pop_back, reach_pop_front, reach_clear.
  - eapply reach_assign; [eassumption|done|eassumption].
  - eapply reach_front_assign; [eassumption|done|eassumption].
  - eapply reach_back_assign; [eassumption|done|eassumption].
Qed.

Lemma push_back_all_reachable vs s l l' s' :
  reachable T0 s l → push_back_all vs l s = (Ret l', s') → reachable T0 s' l'.
Proof.
  revert s l. induction vs as [|v vs IH]; intros s l Hr H; cbn in H.
  - by injection H as <- <-.
  - step H. eapply IH; [|done]. by eapply reach_push_back.
Qed.

Lemma init_reachable vs s0 l s :
  store_ok s0 → MutableList_init T0 vs s0 = (Ret l, s) → reachable T0 s l.
Proof.
  intros Hok H. unfold MutableList_init in H. step H.
  eapply push_back_all_reachable; [|done]. by eapply reach_new.
Qed.

End Reachable.

Lemma empty_store_ok {T} : store_ok (@empty_store T).
Proof.
  split; cbn.
  - unfold addr_limit, size_bits. lia.
  - intros k [? H]. by rewrite lookup_empty in H.
  - intros k [? H]. by rewrite lookup_empty in H.
  - intros d a c. unfold cell. cbn. by rewrite lookup_empty.
  - intros d1 a1 d2 a2 c. unfold cell. cbn. by rewrite lookup_empty.
Qed.

Lemma empty_chain_built :
  MutableList_new EmptyString empty_store = (Ret empty_chain, empty_chain_store).
Proof. vm_compute. reflexivity. Qed.

(** * The claims, on reachable chains *)

Section Claims.
Context {T : Type} (T0 : T).
Implicit Types (s : store T) (l : MutableList) (n p q : Z) (ns : list Z).

Lemma bind_undefined {A B} (m : M T A) (k : A → M T B) s s1 :
  m s = (Undefined, s1) → bind m k s = (Undefined, s1).
Proof. unfold bind. by intros ->. Qed.

Lemma cell_none_slot s d a nd :
  nodes s !! a = Some nd → cell s d a = None → slot d nd = None.
Proof. unfold cell. by intros ->. Qed.

Lemma val_node s a v :
  val s a = Some v → ∃ nd, nodes s !! a = Some nd ∧ value nd = v.
Proof.
  unfold val. destruct (nodes s !! a) as [nd|]; [|done].
  intros [= <-]. eauto.
Qed.

(** C1 (as amended): [erase] has no sentinel check and raises nothing. On a
    cursor at the head or the tail sentinel of a reachable chain it
    dereferences the sentinel's null outward link, which is undefined
    behaviour, and it does so before any cell or the size is written. *)
Theorem erase_sentinel_undefined s l (it : iterator) :
  reachable T0 s l →
  current_ it = head_ l ∨ current_ it = tail_ l →
  erase l it s = (Undefined, s) ∧
  erase_node l (current_ it) s = (Undefined, s).
Proof.
  intros [ns [Hwf [vh Hh] Ht]]%reachable_inv Hit.
  destruct it as [c]. cbn [current_] in *. unfold erase, erase_node.
  cbn [current_]. destruct Hit as [-> | ->].
  - destruct (val_node _ _ _ Hh) as (nh & Hnh & _).
    pose proof (cell_none_slot _ Bwd _ _ Hnh (wf_head _ _ _ Hwf)) as Hp.
    cbn [slot] in Hp.
    rewrite !(bind_ret _ _ _ _ _ (node_load_ret _ _ _ Hnh)), Hp.
    split; by apply bind_undefined.
  - destruct (wf_last_linked _ _ _ Hwf) as [_ Hl].
    apply step_ret in Hl as (nt & Hnt & Hptr). cbn [slot] in Hptr.
    pose proof (cell_none_slot _ Fwd _ _ Hnt (wf_tail _ _ _ Hwf)) as Hn.
    cbn [slot] in Hn.
    rewrite !(bind_ret _ _ _ _ _ (node_load_ret _ _ _ Hnt)).
    rewrite !(bind_ret _ _ _ _ _ Hptr).
    rewrite !(bind_ret _ _ _ _ _ (node_load_ret _ _ _ Hnt)), Hn.
    split; by apply bind_undefined.
Qed.

Lemma front_ret s l ns v :
  wf s l ns → val s (List.hd (tail_ l) ns) = Some v → front l s = (Ret v, s).
Proof.
  intros Hwf Hv. destruct (wf_first_linked _ _ _ Hwf) as [Hf _].
  apply step_ret in Hf as (nh & Hnh & Hp). cbn [slot] in Hp.
  destruct (val_node _ _ _ Hv) as (nd & Hnd & <-). unfold front.
  rewrite (bind_ret _ _ _ _ _ (node_load_ret _ _ _ Hnh)).
  rewrite (bind_ret _ _ _ _ _ Hp).
  by rewrite (bind_ret _ _ _ _ _ (node_load_ret _ _ _ Hnd)).
Qed.

Lemma back_ret s l ns v :
  wf s l ns → val s (end_of (head_ l) ns) = Some v → back l s = (Ret v, s).
Proof.
  intros Hwf Hv. destruct (wf_last_linked _ _ _ Hwf) as [_ Hb].
  apply step_ret in Hb as (nt & Hnt & Hp). cbn [slot] in Hp.
  destruct (val_node _ _ _ Hv) as (nd & Hnd & <-). unfold back.
  rewrite (bind_ret _ _ _ _ _ (node_load_ret _ _ _ Hnt)).
  rewrite (bind_ret _ _ _ _ _ Hp).
  by rewrite (bind_ret _ _ _ _ _ (node_load_ret _ _ _ Hnd)).
Qed.

(** C8 (as amended): the accessors have no check either. [operator*] on a
    cursor at a sentinel of a reachable chain returns a reference to the
    sentinel's value, and [front()] and [back()] on an empty chain return a
    reference to the value of the tail and of the head sentinel. Read, the
    reference gives the value the sentinel holds, which is the
    value-initialised [T] as long as nothing was assigned into a sentinel
    of the list. Assigned through, it stores the value in the sentinel (for
    [front()] of an empty chain, in the tail sentinel), and later reads
    return that value. *)
Theorem sentinel_access_returns s l (it : iterator) :
  reachable T0 s l →
  ∃ vh vt,
    val s (head_ l) = Some vh ∧ val s (tail_ l) = Some vt ∧
    (current_ it = head_ l → deref it s = (Ret vh, s)) ∧
    (current_ it = tail_ l → deref it s = (Ret vt, s)) ∧
    (size l = 0 → front l s = (Ret vt, s) ∧ back l s = (Ret vh, s)) ∧
    (sentinels_unassigned T0 s l → vh = T0 ∧ vt = T0) ∧
    (current_ it = head_ l ∨ current_ it = tail_ l →
     ∀ v, ∃ s', deref_assign it v s = (Ret tt, s') ∧ reachable T0 s' l ∧
                deref it s' = (Ret v, s')) ∧
    (size l = 0 →
     ∀ v, (∃ s', front_assign l v s = (Ret tt, s') ∧ reachable T0 s' l ∧
                 deref (mkIter (tail_ l)) s' = (Ret v, s') ∧
                 front l s' = (Ret v, s')) ∧
          (∃ s', back_assign l v s = (Ret tt, s') ∧ reachable T0 s' l ∧
                 deref (mkIter (head_ l)) s' = (Ret v, s') ∧
                 back l s' = (Ret v, s'))).
Proof.
  intros Hreach. pose proof Hreach as [ns Hinv]%reachable_inv.
  pose proof Hinv as [Hwf [vh Hh] [vt Ht]]. exists vh, vt.
  assert (∀ n v, is_Some (val s n) →
            deref_assign (mkIter n) v s = (Ret tt, value_store n v s) ∧
            reachable T0 (value_store n v s) l ∧
            deref (mkIter n) (value_store n v s) = (Ret v, value_store n v s))
    as Hassign.
  { intros n v Hn.
    assert (deref_assign (mkIter n) v s = (Ret tt, value_store n v s)) as Hrun
      by by apply set_value_ret.
    split_and!; [done| |by apply deref_ret, val_value_store_eq].
    by eapply reach_assign. }
  split_and!; [done|done| | | | | |].
  - destruct it as [c]. cbn [current_]. intros ->. by apply deref_ret.
  - destruct it as [c]. cbn [current_]. intros ->. by apply deref_ret.
  - intros H0. pose proof (inv_empty _ _ _ Hinv H0) as ->.
    split; [by eapply front_ret|by eapply back_ret].
  - intros [Hh' Ht']%unassigned_sentinels.
    rewrite Hh in Hh'. rewrite Ht in Ht'. by simplify_eq.
  - destruct it as [c]. cbn [current_]. intros Hc v.
    exists (value_store c v s). apply Hassign. destruct Hc as [-> | ->]; eauto.
  - intros H0 v. pose proof (inv_empty _ _ _ Hinv H0) as ->. split.
    + exists (value_store (tail_ l) v s).
      destruct (Hassign (tail_ l) v ltac:(eauto)) as (Hrun & _ & Hd).
      assert (front_assign l v s = (Ret tt, value_store (tail_ l) v s)) as Hfa.
      { rewrite (front_assign_run _ _ _ _ Hwf). exact Hrun. }
      split_and!; [done| |done|].
      * eapply reach_front_assign; [exact Hreach|done|exact Hfa].
      * eapply front_ret; [by apply wf_value_store|].
        apply val_value_store_eq. eauto.
    + exists (value_store (head_ l) v s).
      destruct (Hassign (head_ l) v ltac:(eauto)) as (Hrun & _ & Hd).
      assert (back_assign l v s = (Ret tt, value_store (head_ l) v s)) as Hba.
      { rewrite (back_assign_run _ _ _ _ Hwf). exact Hrun. }
      split_and!; [done| |done|].
      * eapply reach_back_assign; [exact Hreach|done|exact Hba].
      * eapply back_ret; [by apply wf_value_store|].
        apply val_value_store_eq. eauto.
Qed.

(** C10: on an empty chain [pop_back] and [pop_front] do nothing: the list
    object and the heap come back as they were, so the size is still 0 and
    the sentinels are still linked to each other. *)
Theorem pop_empty_noop s l :
  reachable T0 s l → size l = 0 →
  pop_back l s = (Ret l, s) ∧ pop_front l s = (Ret l, s) ∧
  tgt s Fwd (head_ l) = Some (tail_ l) ∧ tgt s Bwd (tail_ l) = Some (head_ l).
Proof.
  intros [ns Hinv]%reachable_inv H0. unfold size in H0.
  pose proof (inv_empty _ _ _ Hinv H0) as ->.
  unfold pop_back, pop_front, empty. rewrite H0. cbn. split_and!; try done.
  - apply (wf_first_linked _ _ _ (inv_wf _ _ _ Hinv)).
  - apply (wf_last_linked _ _ _ (inv_wf _ _ _ Hinv)).
Qed.

Lemma wf_pred_ne s l r1 n r2 :
  wf s l (r1 ++ n :: r2) →
  n ≠ end_of (head_ l) r1 ∧ n ≠ List.hd (tail_ l) r2 ∧
  end_of (head_ l) r1 ≠ List.hd (tail_ l) r2.
Proof.
  intros Hwf. pose proof (wf_nodup _ _ _ Hwf) as Hnd.
  assert (head_ l :: (r1 ++ n :: r2) ++ [tail_ l] =
          (head_ l :: r1) ++ n :: (r2 ++ [tail_ l])) as E
    by by rewrite <- app_assoc.
  rewrite E in Hnd. clear E.
  pose proof (end_of_elem (head_ l) r1) as Hp.
  assert (List.hd (tail_ l) r2 ∈ r2 ++ [tail_ l]) as Hq
    by (rewrite snoc_hd; by left).
  apply NoDup_app in Hnd as (_ & Hdisj & Hnd).
  apply NoDup_cons in Hnd as [Hn _]. split_and!.
  - intros E. apply (Hdisj _ Hp). rewrite <- E. by left.
  - intros E. apply Hn. by rewrite E.
  - intros E. apply (Hdisj _ Hp). rewrite E. by right.
Qed.

(** C2: [erase] on a cursor at an attached ordinary node [n], with
    predecessor [p] and successor [q], writes exactly two cell contents:
    [p]'s forward cell (which designated [n]) now designates [q] and [q]'s
    backward cell (which designated [n]) now designates [p]. No node object
    changes, so [n] keeps its two cells, and their contents are untouched:
    they still designate [q] and [p]. The size drops by one and the returned
    cursor is at [q]. [erase_node] does the same to the heap. *)
Theorem erase_two_writes s l n :
  reachable T0 s l → attached s l n →
  ∃ p q cp cs,
    tgt s Bwd n = Some p ∧ tgt s Fwd n = Some q ∧
    cell s Fwd p = Some cp ∧ cell s Bwd q = Some cs ∧
    refs s !! cp = Some (mkRef n) ∧ refs s !! cs = Some (mkRef n) ∧
    let s' := mkStore (nodes s)
                (<[cs := mkRef p]> (<[cp := mkRef q]> (refs s))) (brk s) in
    let l' := mkList (head_ l) (tail_ l) (size_ l - 1) in
    erase l (mkIter n) s = (Ret (mkIter q, l'), s') ∧
    erase_node l n s = (Ret l', s') ∧
    size l' = size l - 1 ∧ 0 ≤ size l' ∧
    refs s' !! cp = Some (mkRef q) ∧ refs s' !! cs = Some (mkRef p) ∧
    (∀ c, c ≠ cp → c ≠ cs → refs s' !! c = refs s !! c) ∧
    cell s' Fwd n = cell s Fwd n ∧ cell s' Bwd n = cell s Bwd n ∧
    cell s Fwd n ≠ Some cp ∧ cell s Fwd n ≠ Some cs ∧
    cell s Bwd n ≠ Some cp ∧ cell s Bwd n ≠ Some cs ∧
    tgt s' Fwd n = Some q ∧ tgt s' Bwd n = Some p.
Proof.
  intros [ns [Hwf Hh Ht]]%reachable_inv Ha.
  apply (attached_elem _ _ _ Hwf) in Ha.
  apply list_elem_of_split in Ha as (r1 & r2 & ->).
  destruct (erase_run _ _ _ _ _ Hwf) as (cp & cs & Hcp & Hcs & Hrp & Hrs & He & Hen).
  destruct (wf_around _ _ _ _ _ Hwf) as [[Hpn Hnp] [Hnq Hqn]].
  destruct (wf_pred_ne _ _ _ _ _ Hwf) as (Hnp' & Hnq' & Hpq).
  pose proof (wf_ok _ _ _ Hwf) as Hok.
  set (p := end_of (head_ l) r1) in *. set (q := List.hd (tail_ l) r2) in *.
  pose proof (unlink_store_relinked cp cs p q s Hok Hcp Hcs) as R.
  assert (cp ≠ cs) as Hne.
  { intros ->. by destruct (ok_owner _ Hok _ _ _ _ _ Hcp Hcs). }
  exists p, q, cp, cs. split_and!; try done. cbv zeta. split_and!; try done.
  - unfold size. cbn [size_]. pose proof (wf_size _ _ _ Hwf) as Hs.
    rewrite length_app in Hs. cbn [length] in Hs. lia.
  - cbn [refs]. by rewrite lookup_insert_ne, lookup_insert_eq.
  - cbn [refs]. by rewrite lookup_insert_eq.
  - intros c ? ?. cbn [refs]. by rewrite !lookup_insert_ne.
  - intros E. destruct (ok_owner _ Hok _ _ _ _ _ E Hcp) as [_ ?]. done.
  - intros E. destruct (ok_owner _ Hok _ _ _ _ _ E Hcs) as [? _]. done.
  - intros E. destruct (ok_owner _ Hok _ _ _ _ _ E Hcp) as [? _]. done.
  - intros E. destruct (ok_owner _ Hok _ _ _ _ _ E Hcs) as [_ ?]. done.
  - fold (unlink_store cp cs p q s). by rewrite (rl_fwd_other _ _ _ _ R).
  - fold (unlink_store cp cs p q s). by rewrite (rl_bwd_other _ _ _ _ R).
Qed.

(** C9: [push_back] does not write into the cell the former last node held
    for its forward link. That cell keeps designating the tail sentinel;
    [link] gives the former last node a newly allocated cell designating
    the new node, and the tail sentinel a newly allocated backward cell.
    Reading the old cell therefore no longer follows the chain. *)
Theorem push_back_replaces_cells v s l l' s' :
  reachable T0 s l → push_back v l s = (Ret l', s') →
  ∃ last c_old d_old c_new d_new node e_new f_new,
    tgt s Bwd (tail_ l) = Some last ∧
    cell s Fwd last = Some c_old ∧ cell s Bwd (tail_ l) = Some d_old ∧
    refs s !! c_old = Some (mkRef (tail_ l)) ∧
    refs s' !! c_old = Some (mkRef (tail_ l)) ∧
    refs s' !! d_old = refs s !! d_old ∧
    cell s' Fwd last = Some c_new ∧ cell s' Bwd (tail_ l) = Some d_new ∧
    c_new ≠ c_old ∧ d_new ≠ d_old ∧
    refs s !! c_new = None ∧ refs s !! d_new = None ∧
    refs s' !! c_new = Some (mkRef node) ∧
    refs s' !! d_new = Some (mkRef node) ∧
    val s node = None ∧ val s' node = Some v ∧ node ≠ tail_ l ∧
    tgt s' Fwd last = Some node ∧ tgt s' Fwd node = Some (tail_ l) ∧
    head_ l' = head_ l ∧ tail_ l' = tail_ l ∧
    cell s' Bwd node = Some e_new ∧ cell s' Fwd node = Some f_new ∧
    refs s !! e_new = None ∧ refs s !! f_new = None ∧
    refs s' !! e_new = Some (mkRef last) ∧
    refs s' !! f_new = Some (mkRef (tail_ l)).
Proof.
  intros [ns [Hwf Hh Ht]]%reachable_inv H. unfold push_back in H.
  destruct (emplace_back_inv _ _ _ _ _ _ Hwf H) as (Hlt & -> & ->).
  pose proof (wf_ok _ _ _ Hwf) as Hok.
  destruct (wf_last_linked _ _ _ Hwf) as [Hf Hb].
  set (last := end_of (head_ l) ns) in *.
  destruct (tgt_cell _ _ _ _ Hf) as (nl & c_old & Hnl & _ & Hc & Hrc).
  destruct (tgt_cell _ _ _ _ Hb) as (nt & d_old & Hnt & _ & Hd & Hrd).
  pose proof (ok_cells _ Hok _ _ _ Hc) as Hc_lt.
  pose proof (ok_cells _ Hok _ _ _ Hd) as Hd_lt.
  assert (last < brk s ∧ tail_ l < brk s) as [Hl_lt Ht_lt].
  { split; apply (ok_nodes _ Hok); eauto. }
  unfold insert_store.
  set (s1 := node_store v s). set (s2 := link_store last (brk s) s1).
  assert (brk s1 = brk s + 1) as Hb1 by done.
  assert (brk s2 = brk s + 3) as Hb2 by (cbn; lia).
  assert (is_Some (nodes s1 !! last)) as Hl1.
  { cbn. rewrite lookup_insert_ne by lia. eauto. }
  assert (is_Some (nodes s1 !! brk s)) as Hn1.
  { cbn. rewrite lookup_insert_eq. eauto. }
  assert (is_Some (nodes s1 !! tail_ l)) as Ht1.
  { cbn. rewrite lookup_insert_ne by lia. eauto. }
  assert (is_Some (nodes s2 !! tail_ l)) as Ht2.
  { unfold s2. rewrite nodes_link_store.
    destruct Ht1 as [? ->]. cbn. eauto. }
  assert (is_Some (nodes s2 !! brk s)) as Hn2.
  { unfold s2. rewrite nodes_link_store.
    destruct Hn1 as [? ->]. cbn. eauto. }
  assert (store_ok s1) as Hok1 by (apply node_store_ok; [done|lia]).
  assert (store_ok s2) as Hok2 by (apply link_store_ok; [done|lia]).
  pose proof (link_store_relinked last (brk s) s1 Hok1 Hl1 Hn1) as R1.
  pose proof (link_store_relinked (brk s) (tail_ l) s2 Hok2 Hn2 Ht2) as R2.
  destruct (link_store_cells last (brk s) s1 Hl1 Hn1) as [Hc1 He1].
  destruct (link_store_cells (brk s) (tail_ l) s2 Hn2 Ht2) as [Hf2 Hd2].
  exists last, c_old, d_old, (brk s + 1), (brk s + 4), (brk s),
    (brk s + 2), (brk s + 3).
  assert (∀ k, refs s !! k = None ∨ k < brk s) as Hfresh.
  { intros k. destruct (refs s !! k) eqn:E; [right|by left].
    apply (ok_refs _ Hok). eauto. }
  fold s2 in Hc1, He1. rewrite Hb1 in Hc1, He1. rewrite Hb2 in Hd2, Hf2.
  split_and!; try done.
  - rewrite refs_link_store_old by lia.
    unfold s2. rewrite refs_link_store_old by lia. done.
  - rewrite refs_link_store_old by lia.
    unfold s2. rewrite refs_link_store_old by lia. done.
  - by rewrite (rl_fcell_other _ _ _ _ R2) by lia.
  - rewrite Hd2. f_equal. lia.
  - lia.
  - lia.
  - destruct (Hfresh (brk s + 1)); [done|lia].
  - destruct (Hfresh (brk s + 4)); [done|lia].
  - rewrite refs_link_store_old by lia. unfold s2. cbn [link_store refs].
    rewrite Hb1, lookup_insert_ne, lookup_insert_eq by lia. done.
  - cbn [link_store refs]. rewrite Hb2.
    replace (brk s + 3 + 1) with (brk s + 4) by lia.
    by rewrite lookup_insert_eq.
  - apply val_fresh; [done|lia].
  - rewrite (rl_val _ _ _ _ R2), (rl_val _ _ _ _ R1). unfold s1.
    by rewrite val_node_store, decide_True.
  - lia.
  - rewrite (rl_fwd_other _ _ _ _ R2) by lia. apply R1.
  - apply R2.
  - rewrite (rl_bcell_other _ _ _ _ R2) by lia. rewrite He1. f_equal. lia.
  - destruct (Hfresh (brk s + 2)); [done|lia].
  - destruct (Hfresh (brk s + 3)); [done|lia].
  - rewrite refs_link_store_old by lia. unfold s2. cbn [link_store refs].
    rewrite Hb1. replace (brk s + 1 + 1) with (brk s + 2) by lia.
    by rewrite lookup_insert_eq.
  - cbn [link_store refs]. rewrite Hb2.
    rewrite lookup_insert_ne, lookup_insert_eq by lia. done.
Qed.

Lemma incr_inv s (it it' : iterator) s1 :
  incr it s = (Ret it', s1) →
  s1 = s ∧ tgt s Fwd (current_ it) = Some (current_ it').
Proof.
  unfold incr, tgt, cell. intros H.
  step H. unfold node_load in Hstep.
  destruct (nodes s !! current_ it) as [nd|]; [|done].
  injection Hstep as <- <-.
  step H. injection H as <- <-. unfold ref_ptr in Hstep. cbn.
  destruct (next nd) as [c|]; [|done]. cbn.
  destruct (refs s !! c) as [rf|]; [|done]. by injection Hstep as <- <-.
Qed.

Lemma advance_n_closed s l ns k x (it' : iterator) s1 :
  wf s l ns → x ∈ head_ l :: ns ++ [tail_ l] →
  advance_n k (mkIter x) s = (Ret it', s1) →
  current_ it' ∈ head_ l :: ns ++ [tail_ l].
Proof.
  intros Hwf. revert x. induction k as [|k IH]; intros x Hx H; cbn in H.
  - by injection H as <- <-.
  - step H. apply incr_inv in Hstep as [-> Hf]. cbn [current_] in Hf.
    destruct x0 as [y]. apply (IH y); [|done].
    right. by eapply wf_fwd_closed.
Qed.

Lemma wf_pred_unique s l r1 n r2 p :
  wf s l (r1 ++ n :: r2) → on_chain s l p → tgt s Fwd p = Some n →
  p = end_of (head_ l) r1.
Proof.
  intros Hwf Hp Hpn.
  apply (wf_rtc_closed _ _ _ Hwf) in Hp; [|by left].
  pose proof (wf_nodup _ _ _ Hwf) as Hnd. pose proof (wf_seg _ _ _ Hwf) as Hseg.
  assert (head_ l :: (r1 ++ n :: r2) ++ [tail_ l] =
          (head_ l :: r1) ++ n :: (r2 ++ [tail_ l])) as E
    by by rewrite <- app_assoc.
  rewrite E in Hnd, Hp. clear E.
  rewrite <- Permutation_middle in Hnd. apply NoDup_cons in Hnd as [Hn _].
  rewrite <- app_assoc in Hseg. apply seg_app in Hseg as [Hseg1 Hseg2].
  cbn [app seg] in Hseg2. destruct Hseg2 as [_ Hseg2].
  apply elem_of_app in Hp as [Hp|Hp].
  - destruct (seg_next _ _ _ _ _ Hseg1 Hp Hpn) as [Hin|?]; [|done].
    exfalso. apply Hn, elem_of_app. left. by right.
  - destruct (seg_next _ _ _ _ _ Hseg2 Hp Hpn) as [Hin| ->].
    + exfalso. apply Hn, elem_of_app. by right.
    + rewrite end_of_snoc, (wf_tail_no_fwd _ _ _ Hwf) in Hpn. done.
Qed.

(** C4: a second cursor parked on the chain at the node [p] whose forward
    cell designates an attached node [n] (so that advancing it would land
    on [n]) lands, once a first cursor has erased [n], on [n]'s former
    successor; however often it is advanced afterwards, it never stands on
    [n]. *)
Theorem parked_cursor_skips s l n p r s' :
  reachable T0 s l → attached s l n →
  on_chain s l p → tgt s Fwd p = Some n →
  erase l (mkIter n) s = (Ret r, s') →
  ∃ q, tgt s Fwd n = Some q ∧ tgt s Bwd n = Some p ∧
    fst r = mkIter q ∧
    incr (mkIter p) s = (Ret (mkIter n), s) ∧
    incr (mkIter p) s' = (Ret (mkIter q), s') ∧
    ∀ k it' s1, advance_n k (mkIter p) s' = (Ret it', s1) → current_ it' ≠ n.
Proof.
  intros [ns [Hwf Hh Ht]]%reachable_inv Ha Hp Hpn He.
  apply (attached_elem _ _ _ Hwf) in Ha.
  apply list_elem_of_split in Ha as (r1 & r2 & ->).
  pose proof (wf_pred_unique _ _ _ _ _ _ Hwf Hp Hpn) as ->.
  destruct (erase_run _ _ _ _ _ Hwf) as (cp & cs & Hcp & Hcs & _ & _ & He' & _).
  rewrite He' in He. injection He as <- <-. clear He'.
  destruct (wf_around _ _ _ _ _ Hwf) as [[_ Hnp] [Hnq Hqn]].
  pose proof (wf_unlink _ _ _ _ _ cp cs Hwf Hcp Hcs) as Hwf'.
  pose proof (unlink_store_relinked cp cs _ _ s (wf_ok _ _ _ Hwf) Hcp Hcs) as R.
  eexists. split_and!; [done|done|done|by apply incr_ret|apply incr_ret, R|].
  intros k it' s1 Hk E.
  apply (advance_n_closed _ _ _ _ _ _ _ Hwf') in Hk; cbn [head_ tail_] in *.
  - rewrite E in Hk. pose proof (wf_nodup _ _ _ Hwf) as Hnd.
    assert (head_ l :: (r1 ++ n :: r2) ++ [tail_ l] =
            (head_ l :: r1) ++ n :: (r2 ++ [tail_ l])) as E'
      by by rewrite <- app_assoc.
    rewrite E', <- Permutation_middle in Hnd.
    apply NoDup_cons in Hnd as [Hn _]. apply Hn.
    rewrite <- app_assoc in Hk. done.
  - pose proof (end_of_elem (head_ l) r1) as Hin.
    rewrite <- app_assoc.
    change (end_of (head_ l) r1 ∈ (head_ l :: r1) ++ r2 ++ [tail_ l]).
    apply elem_of_app. by left.
Qed.

Lemma count_forward_seg s t r a fuel :
  seg s a (r ++ [t]) → t ∉ r → (length r < fuel)%nat →
  count_until Fwd t fuel (mkIter a) s = (Ret (length r), s).
Proof.
  revert a fuel. induction r as [|b r IH]; intros a fuel Hseg Ht Hfuel;
    (destruct fuel as [|fuel]; [cbn in Hfuel; lia|]);
    cbn [length] in Hfuel; cbn in Hseg |- *.
  - destruct Hseg as [[Hf _] _].
    rewrite (bind_ret _ _ _ _ _ (incr_ret _ _ _ Hf)). cbn [current_].
    by rewrite Z.eqb_refl.
  - destruct Hseg as [[Hf _] Hseg].
    rewrite (bind_ret _ _ _ _ _ (incr_ret _ _ _ Hf)). cbn [current_].
    destruct (Z.eqb_spec b t) as [->|_]; [exfalso; apply Ht; by left|].
    assert (t ∉ r) as Ht' by (intros ?; apply Ht; by right).
    rewrite (bind_ret _ _ _ _ _ (IH b fuel Hseg Ht' ltac:(lia))).
    done.
Qed.

Lemma count_backward_seg s h r a fuel :
  seg s h (r ++ [a]) → h ∉ r → (length r < fuel)%nat →
  count_until Bwd h fuel (mkIter a) s = (Ret (length r), s).
Proof.
  revert a fuel. induction r as [|b r IH] using rev_ind;
    intros a fuel Hseg Hh Hfuel;
    (destruct fuel as [|fuel]; [cbn in Hfuel; lia|]).
  - destruct Hseg as [[_ Hb] _]. cbn.
    rewrite (bind_ret _ _ _ _ _ (decr_ret _ _ _ Hb)). cbn [current_].
    by rewrite Z.eqb_refl.
  - apply seg_app in Hseg as [Hseg [[_ Hb] _]]. rewrite end_of_snoc in Hb.
    cbn [count_until step].
    rewrite (bind_ret _ _ _ _ _ (decr_ret _ _ _ Hb)). cbn [current_].
    destruct (Z.eqb_spec b h) as [->|_].
    { exfalso. apply Hh, elem_of_app. right. by left. }
    rewrite length_app in *. cbn [length] in *.
    assert (h ∉ r) as Hh' by (intros ?; apply Hh, elem_of_app; by left).
    rewrite (bind_ret _ _ _ _ _ (IH b fuel Hseg Hh' ltac:(lia))).
    unfold ret. do 2 f_equal. lia.
Qed.

(** C5: in every reachable state [size()] is the number of ordinary nodes
    met from the head sentinel following forward cells until the tail
    sentinel, and also the number met from the tail sentinel following
    backward cells until the head sentinel. Both walks end. *)
Theorem size_counts_nodes s l fuel :
  reachable T0 s l → (Z.to_nat (size l) < fuel)%nat →
  ∃ k, count_forward fuel l s = (Ret k, s) ∧
       count_backward fuel l s = (Ret k, s) ∧
       size l = Z.of_nat k.
Proof.
  intros [ns [Hwf Hh Ht]]%reachable_inv Hfuel. unfold size in *.
  rewrite (wf_size _ _ _ Hwf), Nat2Z.id in Hfuel.
  exists (length ns). split_and!.
  - apply count_forward_seg; [apply Hwf| |done].
    by apply (wf_tail_not_in _ _ _ Hwf).
  - apply count_backward_seg; [apply Hwf| |done].
    intros Hin. apply (wf_head_not_in _ _ _ Hwf), elem_of_app. by left.
  - apply Hwf.
Qed.

Lemma vals_cons s x r v : val s x = Some v → vals s (x :: r) = v :: vals s r.
Proof. unfold vals. cbn. by intros ->. Qed.

Lemma vals_snoc s x r v : val s x = Some v → vals s (r ++ [x]) = vals s r ++ [v].
Proof.
  intros Hv. unfold vals. rewrite omap_app. cbn. by rewrite Hv.
Qed.

Lemma vals_length s a r t :
  seg s a (r ++ [t]) → length (vals s r) = length r.
Proof.
  revert a. induction r as [|b r IH]; intros a; [done|].
  cbn [app seg]. intros [[_ Hb] Hseg].
  destruct (tgt_val _ _ _ _ Hb) as [v Hv].
  rewrite (vals_cons _ _ _ _ Hv). cbn. f_equal. by eapply IH.
Qed.

Lemma range_loop_seg s t r a fuel :
  seg s a (r ++ [t]) → t ∉ r → (length r < fuel)%nat →
  range_loop fuel (mkIter (List.hd t r)) (mkIter t) s = (Ret (vals s r), s).
Proof.
  revert a fuel. induction r as [|b r IH]; intros a fuel Hseg Ht Hfuel;
    (destruct fuel as [|fuel]; [cbn in Hfuel; lia|]);
    cbn [length] in Hfuel; cbn [app seg List.hd] in Hseg |- *.
  - cbn. unfold iter_eq. cbn. by rewrite Z.eqb_refl.
  - destruct Hseg as [[_ Hb] Hseg]. cbn [range_loop]. unfold iter_eq.
    cbn [current_].
    destruct (Z.eqb_spec b t) as [->|_]; [exfalso; apply Ht; by left|].
    destruct (tgt_val _ _ _ _ Hb) as [v Hv].
    pose proof Hseg as Hseg'. rewrite snoc_hd in Hseg'.
    destruct Hseg' as [[Hf _] _].
    rewrite (bind_ret _ _ _ _ _ (deref_ret _ _ _ Hv)).
    rewrite (bind_ret _ _ _ _ _ (incr_ret _ _ _ Hf)).
    assert (t ∉ r) as Ht' by (intros ?; apply Ht; by right).
    rewrite (bind_ret _ _ _ _ _ (IH b fuel Hseg Ht' ltac:(lia))).
    by rewrite (vals_cons _ _ _ _ Hv).
Qed.

Lemma hd_snoc (c y : Z) r : List.hd c (r ++ [y]) = List.hd y r.
Proof. by destruct r. Qed.

Lemma ret_bind {A B} (x : A) (k : A → M T B) s : bind (ret x) k s = k x s.
Proof. done. Qed.

Lemma rend_ret s l (it : iterator) :
  begin_ l s = (Ret it, s) → rend l s = (Ret (mkRIter it), s).
Proof. intros H. unfold rend. by rewrite (bind_ret _ _ _ _ _ H). Qed.

Lemma rderef_ret s c y v :
  tgt s Bwd c = Some y → val s y = Some v →
  rderef (mkRIter (mkIter c)) s = (Ret v, s).
Proof.
  intros Hb Hv. unfold rderef. cbn [base].
  rewrite (bind_ret _ _ _ _ _ (decr_ret _ _ _ Hb)). by apply deref_ret.
Qed.

Lemma rincr_ret s c y :
  tgt s Bwd c = Some y →
  rincr (mkRIter (mkIter c)) s = (Ret (mkRIter (mkIter y)), s).
Proof.
  intros Hb. unfold rincr. cbn [base].
  by rewrite (bind_ret _ _ _ _ _ (decr_ret _ _ _ Hb)).
Qed.

Lemma reverse_loop_seg s l a first r c fuel :
  begin_ l s = (Ret (mkIter first), s) →
  seg s a (r ++ [c]) → NoDup (r ++ [c]) → first = List.hd c r →
  (length r < fuel)%nat →
  reverse_loop fuel l (mkRIter (mkIter c)) s = (Ret (vals s (rev r)), s).
Proof.
  intros Hbegin. revert c fuel.
  induction r as [|y r IH] using rev_ind; intros c fuel Hseg Hnd Hfirst Hfuel;
    (destruct fuel as [|fuel]; [cbn in Hfuel; lia|]);
    cbn [reverse_loop];
    rewrite (bind_ret _ _ _ _ _ (rend_ret _ _ _ Hbegin));
    unfold riter_eq, iter_eq; cbn [base current_].
  - cbn in Hfirst. subst first. by rewrite Z.eqb_refl.
  - rewrite hd_snoc in Hfirst.
    destruct (Z.eqb_spec c first) as [E|_].
    { exfalso. apply NoDup_app in Hnd as (_ & Hnd & _).
      apply (Hnd first); [|rewrite <- E; by left].
      subst first. rewrite snoc_hd. by left. }
    apply seg_app in Hseg as [Hseg [[Hf Hb] _]]. rewrite end_of_snoc in Hf, Hb.
    destruct (tgt_val _ _ _ _ Hf) as [v Hv].
    rewrite (bind_ret _ _ _ _ _ (rderef_ret _ _ _ _ Hb Hv)).
    rewrite (bind_ret _ _ _ _ _ (rincr_ret _ _ _ Hb)).
    apply NoDup_app in Hnd as (Hnd & _ & _).
    rewrite length_app in Hfuel. cbn [length] in Hfuel.
    rewrite (bind_ret _ _ _ _ _
               (IH y fuel Hseg Hnd Hfirst ltac:(lia))).
    rewrite rev_unit. by rewrite (vals_cons _ _ _ _ Hv).
Qed.

Lemma vals_rev s a r t :
  seg s a (r ++ [t]) → vals s (rev r) = rev (vals s r).
Proof.
  revert a. induction r as [|b r IH]; intros a; [done|].
  cbn [app seg]. intros [[_ Hb] Hseg].
  destruct (tgt_val _ _ _ _ Hb) as [v Hv].
  rewrite (vals_cons _ _ _ _ Hv). cbn [rev].
  rewrite (vals_snoc _ _ _ _ Hv). f_equal. by eapply IH.
Qed.

(** C6: in every reachable state the forward traversal ([begin()] to
    [end()]) ends, and the backward traversal that starts where it stopped
    ([rbegin()] to [rend()]) ends with the same values in reverse order;
    for every attached node, the backward cell of its forward neighbour
    designates the node itself. *)
Theorem forward_backward_roundtrip s l fuel :
  reachable T0 s l → (Z.to_nat (size l) < fuel)%nat →
  (∃ vs, range_for fuel l s = (Ret vs, s) ∧
         reverse_for fuel l s = (Ret (rev vs), s) ∧
         Z.of_nat (length vs) = size l) ∧
  (∀ n, attached s l n →
     ∃ m, tgt s Fwd n = Some m ∧ tgt s Bwd m = Some n).
Proof.
  intros [ns [Hwf Hh Ht]]%reachable_inv Hfuel. unfold size in *.
  rewrite (wf_size _ _ _ Hwf), Nat2Z.id in Hfuel.
  destruct (wf_first_linked _ _ _ Hwf) as [Hf _].
  pose proof (begin_ret _ _ _ Hf) as Hbegin. split.
  - exists (vals s ns). split_and!.
    + unfold range_for, end_. rewrite (bind_ret _ _ _ _ _ Hbegin), ret_bind.
      eapply range_loop_seg; [apply Hwf| |done].
      by apply (wf_tail_not_in _ _ _ Hwf).
    + unfold reverse_for, rbegin, end_.
      change (reverse_loop fuel l (mkRIter (mkIter (tail_ l))) s =
              (Ret (rev (vals s ns)), s)).
      rewrite <- (vals_rev _ _ _ _ (wf_seg _ _ _ Hwf)).
      eapply reverse_loop_seg; [done|apply Hwf| |done|done].
      pose proof (wf_nodup _ _ _ Hwf) as Hnd.
      by apply NoDup_cons in Hnd as [_ Hnd].
    + rewrite (vals_length _ _ _ _ (wf_seg _ _ _ Hwf)).
      symmetry. apply Hwf.
  - intros n Ha. apply (attached_elem _ _ _ Hwf) in Ha.
    apply list_elem_of_split in Ha as (r1 & r2 & ->).
    destruct (wf_around _ _ _ _ _ Hwf) as [_ [Hnq Hqn]]. eauto.
Qed.

(** The deleting loop, started on the first of the nodes [r] still to be
    visited, with the nodes [kept] already visited and left in place. *)
Lemma erase_loop_spec (f : T → bool) s0 r :
  ∀ kept s l fuel,
    inv s l (kept ++ r) → (∀ x, val s x = val s0 x) →
    (length r < fuel)%nat →
    ∃ l' s',
      erase_loop f fuel l (mkIter (List.hd (tail_ l) r)) s =
        (Ret (l', map (event_of f) (vals s0 r)), s') ∧
      inv s' l' (kept ++ List.filter (survives f s0) r) ∧
      (∀ x, val s' x = val s0 x) ∧
      head_ l' = head_ l ∧ tail_ l' = tail_ l.
Proof.
  induction r as [|x r IH]; intros kept s l fuel Hinv Hval Hfuel;
    (destruct fuel as [|fuel]; [cbn in Hfuel; lia|]);
    cbn [length] in Hfuel; cbn [erase_loop List.hd]; unfold end_;
    rewrite ret_bind; unfold iter_eq; cbn [current_].
  - rewrite Z.eqb_refl. exists l, s. by rewrite app_nil_r in *.
  - pose proof (inv_wf _ _ _ Hinv) as Hwf.
    destruct (Z.eqb_spec x (tail_ l)) as [E|_].
    { exfalso. apply (wf_tail_not_in _ _ _ Hwf). rewrite <- E.
      apply elem_of_app. right. by left. }
    destruct (wf_around _ _ _ _ _ Hwf) as [[Hpx Hxp] [Hxq Hqx]].
    destruct (tgt_val _ _ _ _ Hxq) as [v Hv].
    assert (val s0 x = Some v) as Hv0 by by rewrite <- Hval.
    rewrite (bind_ret _ _ _ _ _ (deref_ret _ _ _ Hv)).
    rewrite (vals_cons _ _ _ _ Hv0). cbn [map List.filter].
    unfold survives at 1. rewrite Hv0. unfold event_of at 1.
    destruct (f v) eqn:Hfv; cbn [negb].
    + destruct (erase_run _ _ _ _ _ Hwf)
        as (cp & cs & Hcp & Hcs & _ & _ & He & _).
      rewrite (bind_ret _ _ _ _ _ (bind_ret _ _ _ _ _ He)). cbn [snd].
      pose proof (unlink_store_relinked cp cs _ _ s (wf_ok _ _ _ Hwf) Hcp Hcs)
        as R.
      destruct (wf_pred_ne _ _ _ _ _ Hwf) as (Hxp' & _ & _).
      assert (tgt (unlink_store cp cs (end_of (head_ l) kept)
                     (List.hd (tail_ l) r) s) Fwd x =
              Some (List.hd (tail_ l) r)) as Hnext
        by by rewrite (rl_fwd_other _ _ _ _ R).
      rewrite (bind_ret _ _ _ _ _ (incr_ret _ _ _ Hnext)).
      destruct (IH kept (unlink_store cp cs (end_of (head_ l) kept)
                           (List.hd (tail_ l) r) s)
                  (mkList (head_ l) (tail_ l) (size_ l - 1)) fuel)
        as (l' & s' & Hrun & Hinv' & Hval' & Hh' & Ht'); [| |lia|].
      { destruct Hinv as [_ Hh Ht].
        split; [by apply (wf_unlink _ _ kept x r)|done..]. }
      { done. }
      cbn [head_ tail_] in *.
      rewrite (bind_ret _ _ _ _ _ Hrun). eauto 10.
    + rewrite ret_bind.
      rewrite (bind_ret _ _ _ _ _ (incr_ret _ _ _ Hxq)).
      destruct (IH (kept ++ [x]) s l fuel)
        as (l' & s' & Hrun & Hinv' & Hval' & Hh' & Ht'); [| |lia|].
      { by rewrite <- app_assoc. }
      { done. }
      rewrite (bind_ret _ _ _ _ _ Hrun). rewrite <- app_assoc in Hinv'.
      eauto 10.
Qed.

(** C7: on every reachable chain, the forward loop that erases each element
    when it visits it ends; it has then removed every element, the size
    is 0, and the two sentinels are linked directly to each other. *)
Theorem erase_all_while_iterating s l fuel :
  reachable T0 s l → (Z.to_nat (size l) < fuel)%nat →
  ∃ l' ev s',
    erase_while_iterating (λ _, true) fuel l s = (Ret (l', ev), s') ∧
    size l' = 0 ∧
    tgt s' Fwd (head_ l') = Some (tail_ l') ∧
    tgt s' Bwd (tail_ l') = Some (head_ l') ∧
    Z.of_nat (length ev) = size l ∧
    Forall (λ e, ∃ v, e = Removing v) ev ∧
    head_ l' = head_ l ∧ tail_ l' = tail_ l.
Proof.
  intros [ns Hinv]%reachable_inv Hfuel. unfold size in *.
  pose proof (inv_wf _ _ _ Hinv) as Hwf.
  rewrite (wf_size _ _ _ Hwf), Nat2Z.id in Hfuel.
  destruct (wf_first_linked _ _ _ Hwf) as [Hf _].
  destruct (erase_loop_spec (λ _, true) s ns [] s l fuel Hinv
              ltac:(done) Hfuel)
    as (l' & s' & Hrun & Hinv' & _ & Hh' & Ht').
  assert (List.filter (survives (λ _, true) s) ns = []) as Hnone.
  { assert (Forall (λ x, survives (λ _ : T, true) s x = false) ns) as Hall.
    { apply Forall_forall. intros x Hx. unfold survives.
      destruct (wf_allocated _ _ _ Hwf x) as [v ->]; [|done].
      right. apply elem_of_app. by left. }
    clear -Hall. induction Hall as [|x r Hx _ IH]; cbn; [done|].
    by rewrite Hx. }
  rewrite Hnone in Hinv'. cbn [app] in Hinv'.
  pose proof (inv_wf _ _ _ Hinv') as Hwf'.
  exists l', (map (event_of (λ _, true)) (vals s ns)), s'. split_and!.
  - unfold erase_while_iterating.
    by rewrite (bind_ret _ _ _ _ _ (begin_ret _ _ _ Hf)).
  - apply Hwf'.
  - apply (wf_first_linked _ _ _ Hwf').
  - apply (wf_last_linked _ _ _ Hwf').
  - rewrite length_map, (vals_length _ _ _ _ (wf_seg _ _ _ Hwf)).
    symmetry. apply Hwf.
  - apply Forall_map, Forall_forall. intros v _. by exists v.
  - done.
  - done.
Qed.

End Claims.

(** * The demo of [main], and concrete instances *)

Lemma demo_built :
  MutableList_init EmptyString demo_values empty_store = (Ret demo_list, demo_store).
Proof. vm_compute. reflexivity. Qed.

Lemma demo_reachable : reachable EmptyString demo_store demo_list.
Proof. eapply init_reachable; [apply empty_store_ok|exact demo_built]. Qed.

Lemma empty_chain_reachable : reachable EmptyString empty_chain_store empty_chain.
Proof. eapply reach_new; [apply empty_store_ok|exact empty_chain_built]. Qed.

Lemma demo_attached_5 : attached demo_store demo_list 5.
Proof.
  split_and!; [|done|done]. apply rtc_once. vm_compute. reflexivity.
Qed.

(** C3: the demo. The chain is built from "data1!", "data2!", "data3!";
    the forward loop erases the element equal to "data1!" when it visits
    it. The loop visits the three elements once each, in order; afterwards
    the chain reads "data2!", "data3!" forwards and "data3!", "data2!"
    backwards. The node of "data1!" (object 5) still holds the same two
    cells with the same contents after its removal, so the cursor standing
    on it advances to the node of "data2!" (object 10). *)
Theorem demo_erase_first :
  ∃ l' s',
    MutableList_init EmptyString demo_values empty_store =
      (Ret demo_list, demo_store) ∧
    erase_while_iterating is_data1 4 demo_list demo_store =
      (Ret (l', [Removing "data1!"; Listed "data2!"; Listed "data3!"]%string), s') ∧
    range_for 4 l' s' = (Ret ["data2!"; "data3!"]%string, s') ∧
    reverse_for 4 l' s' = (Ret ["data3!"; "data2!"]%string, s') ∧
    size l' = 2 ∧
    val demo_store 5 = Some "data1!"%string ∧
    val s' 10 = Some "data2!"%string ∧
    erase demo_list (mkIter 5) demo_store = (Ret (mkIter 10, l'), s') ∧
    nodes s' !! 5 = nodes demo_store !! 5 ∧
    cell s' Fwd 5 = Some 11 ∧ cell s' Bwd 5 = Some 7 ∧
    refs s' !! 11 = refs demo_store !! 11 ∧
    refs s' !! 7 = refs demo_store !! 7 ∧
    incr (mkIter 5) s' = (Ret (mkIter 10), s') ∧
    decr (mkIter 5) s' = (Ret (mkIter 1), s').
Proof.
  do 2 eexists. split_and!; vm_compute; reflexivity.
Qed.

(** C1 fails as stated: on the empty list, [erase] at the head sentinel (and
    at the tail sentinel) is undefined behaviour, not a raised error. *)
Lemma erase_sentinel_counterexample :
  reachable EmptyString empty_chain_store empty_chain ∧
  erase empty_chain (mkIter (head_ empty_chain)) empty_chain_store =
    (Undefined, empty_chain_store) ∧
  erase empty_chain (mkIter (tail_ empty_chain)) empty_chain_store =
    (Undefined, empty_chain_store) ∧
  ¬ (∃ e st, erase empty_chain (mkIter (head_ empty_chain)) empty_chain_store =
             (Throw e, st)) ∧
  ¬ (∃ e st, erase empty_chain (mkIter (tail_ empty_chain)) empty_chain_store =
             (Throw e, st)).
Proof.
  split_and!; [exact empty_chain_reachable|by vm_compute..| |];
    intros (e & st & H); vm_compute in H; discriminate H.
Qed.

(** C8 fails as stated: on the empty list, dereferencing [end()] and calling
    [front()] or [back()] silently return the empty string held by a
    sentinel. *)
Lemma sentinel_access_counterexample :
  reachable EmptyString empty_chain_store empty_chain ∧
  size empty_chain = 0 ∧
  deref (mkIter (tail_ empty_chain)) empty_chain_store =
    (Ret EmptyString, empty_chain_store) ∧
  deref (mkIter (head_ empty_chain)) empty_chain_store =
    (Ret EmptyString, empty_chain_store) ∧
  front empty_chain empty_chain_store = (Ret EmptyString, empty_chain_store) ∧
  back empty_chain empty_chain_store = (Ret EmptyString, empty_chain_store).
Proof.
  split_and!; [exact empty_chain_reachable|by vm_compute..].
Qed.

Lemma erase_sentinel_undefined_witness :
  reachable EmptyString empty_chain_store empty_chain ∧
  (current_ (mkIter 2) = head_ empty_chain ∨
   current_ (mkIter 2) = tail_ empty_chain) ∧
  erase empty_chain (mkIter 2) empty_chain_store =
    (Undefined, empty_chain_store) ∧
  erase_node empty_chain (current_ (mkIter 2)) empty_chain_store =
    (Undefined, empty_chain_store).
Proof.
  split; [exact empty_chain_reachable|].
  split; [right; reflexivity|].
  apply (erase_sentinel_undefined EmptyString empty_chain_store empty_chain
           (mkIter 2) empty_chain_reachable).
  right. reflexivity.
Defined.

Lemma empty_chain_unassigned :
  sentinels_unassigned EmptyString empty_chain_store empty_chain.
Proof. eapply reach_new; [apply empty_store_ok|exact empty_chain_built]. Qed.

Lemma sentinel_access_returns_witness :
  reachable EmptyString empty_chain_store empty_chain ∧
  ∃ vh vt,
    val empty_chain_store (head_ empty_chain) = Some vh ∧
    val empty_chain_store (tail_ empty_chain) = Some vt ∧
    (current_ (mkIter 2) = head_ empty_chain →
     deref (mkIter 2) empty_chain_store = (Ret vh, empty_chain_store)) ∧
    (current_ (mkIter 2) = tail_ empty_chain →
     deref (mkIter 2) empty_chain_store = (Ret vt, empty_chain_store)) ∧
    (size empty_chain = 0 →
     front empty_chain empty_chain_store = (Ret vt, empty_chain_store) ∧
     back empty_chain empty_chain_store = (Ret vh, empty_chain_store)) ∧
    (sentinels_unassigned EmptyString empty_chain_store empty_chain →
     vh = EmptyString ∧ vt = EmptyString) ∧
    (current_ (mkIter 2) = head_ empty_chain ∨
     current_ (mkIter 2) = tail_ empty_chain →
     ∀ v, ∃ s', deref_assign (mkIter 2) v empty_chain_store = (Ret tt, s') ∧
                reachable EmptyString s' empty_chain ∧
                deref (mkIter 2) s' = (Ret v, s')) ∧
    (size empty_chain = 0 →
     ∀ v, (∃ s', front_assign empty_chain v empty_chain_store = (Ret tt, s') ∧
                 reachable EmptyString s' empty_chain ∧
                 deref (mkIter (tail_ empty_chain)) s' = (Ret v, s') ∧
                 front empty_chain s' = (Ret v, s')) ∧
          (∃ s', back_assign empty_chain v empty_chain_store = (Ret tt, s') ∧
                 reachable EmptyString s' empty_chain ∧
                 deref (mkIter (head_ empty_chain)) s' = (Ret v, s') ∧
                 back empty_chain s' = (Ret v, s'))).
Proof.
  split; [exact empty_chain_reachable|].
  exact (sentinel_access_returns EmptyString empty_chain_store empty_chain
           (mkIter 2) empty_chain_reachable).
Defined.

Lemma pop_empty_noop_witness :
  reachable EmptyString empty_chain_store empty_chain ∧
  size empty_chain = 0 ∧
  pop_back empty_chain empty_chain_store = (Ret empty_chain, empty_chain_store) ∧
  pop_front empty_chain empty_chain_store = (Ret empty_chain, empty_chain_store) ∧
  tgt empty_chain_store Fwd (head_ empty_chain) = Some (tail_ empty_chain) ∧
  tgt empty_chain_store Bwd (tail_ empty_chain) = Some (head_ empty_chain).
Proof.
  split; [exact empty_chain_reachable|]. split; [reflexivity|].
  apply (pop_empty_noop EmptyString empty_chain_store empty_chain
           empty_chain_reachable).
  reflexivity.
Defined.

Lemma size_counts_nodes_witness :
  reachable EmptyString demo_store demo_list ∧
  (Z.to_nat (size demo_list) < 4)%nat ∧
  ∃ k, count_forward 4 demo_list demo_store = (Ret k, demo_store) ∧
       count_backward 4 demo_list demo_store = (Ret k, demo_store) ∧
       size demo_list = Z.of_nat k.
Proof.
  split; [exact demo_reachable|]. split; [cbn; lia|].
  apply (size_counts_nodes EmptyString demo_store demo_list 4 demo_reachable).
  cbn. lia.
Defined.

Lemma forward_backward_roundtrip_witness :
  reachable EmptyString demo_store demo_list ∧
  (Z.to_nat (size demo_list) < 4)%nat ∧
  (∃ vs, range_for 4 demo_list demo_store = (Ret vs, demo_store) ∧
         reverse_for 4 demo_list demo_store = (Ret (rev vs), demo_store) ∧
         Z.of_nat (length vs) = size demo_list) ∧
  (∀ n, attached demo_store demo_list n →
     ∃ m, tgt demo_store Fwd n = Some m ∧ tgt demo_store Bwd m = Some n).
Proof.
  split; [exact demo_reachable|]. split; [cbn; lia|].
  apply (forward_backward_roundtrip EmptyString demo_store demo_list 4
           demo_reachable).
  cbn. lia.
Defined.

Lemma erase_all_while_iterating_witness :
  reachable EmptyString demo_store demo_list ∧
  (Z.to_nat (size demo_list) < 4)%nat ∧
  ∃ l' ev s',
    erase_while_iterating (λ _, true) 4 demo_list demo_store =
      (Ret (l', ev), s') ∧
    size l' = 0 ∧
    tgt s' Fwd (head_ l') = Some (tail_ l') ∧
    tgt s' Bwd (tail_ l') = Some (head_ l') ∧
    Z.of_nat (length ev) = size demo_list ∧
    Forall (λ e, ∃ v, e = Removing v) ev ∧
    head_ l' = head_ demo_list ∧ tail_ l' = tail_ demo_list.
Proof.
  split; [exact demo_reachable|]. split; [cbn; lia|].
  apply (erase_all_while_iterating EmptyString demo_store demo_list 4
           demo_reachable).
  cbn. lia.
Defined.

Lemma erase_two_writes_witness :
  reachable EmptyString demo_store demo_list ∧
  attached demo_store demo_list 5 ∧
  ∃ p q cp cs,
    tgt demo_store Bwd 5 = Some p ∧ tgt demo_store Fwd 5 = Some q ∧
    cell demo_store Fwd p = Some cp ∧ cell demo_store Bwd q = Some cs ∧
    refs demo_store !! cp = Some (mkRef 5) ∧
    refs demo_store !! cs = Some (mkRef 5) ∧
    let s' := mkStore (nodes demo_store)
                (<[cs := mkRef p]> (<[cp := mkRef q]> (refs demo_store)))
                (brk demo_store) in
    let l' := mkList (head_ demo_list) (tail_ demo_list) (size_ demo_list - 1) in
    erase demo_list (mkIter 5) demo_store = (Ret (mkIter q, l'), s') ∧
    erase_node demo_list 5 demo_store = (Ret l', s') ∧
    size l' = size demo_list - 1 ∧ 0 ≤ size l' ∧
    refs s' !! cp = Some (mkRef q) ∧ refs s' !! cs = Some (mkRef p) ∧
    (∀ c, c ≠ cp → c ≠ cs → refs s' !! c = refs demo_store !! c) ∧
    cell s' Fwd 5 = cell demo_store Fwd 5 ∧
    cell s' Bwd 5 = cell demo_store Bwd 5 ∧
    cell demo_store Fwd 5 ≠ Some cp ∧ cell demo_store Fwd 5 ≠ Some cs ∧
    cell demo_store Bwd 5 ≠ Some cp ∧ cell demo_store Bwd 5 ≠ Some cs ∧
    tgt s' Fwd 5 = Some q ∧ tgt s' Bwd 5 = Some p.
Proof.
  split; [exact demo_reachable|]. split; [exact demo_attached_5|].
  exact (erase_two_writes EmptyString demo_store demo_list 5
           demo_reachable demo_attached_5).
Defined.

Lemma demo_attached_10 : attached demo_store demo_list 10.
Proof.
  split_and!; [|done|done].
  apply (rtc_l _ 1 5 10); [by vm_compute|].
  apply rtc_once. by vm_compute.
Qed.

Lemma demo_erase_10 :
  erase demo_list (mkIter 10) demo_store =
    (Ret (mkIter 15, mkList 1 2 2), demo_store_without_10).
Proof. by vm_compute. Qed.

Lemma demo_on_chain_5 : on_chain demo_store demo_list 5.
Proof. apply rtc_once. by vm_compute. Qed.

Lemma parked_cursor_skips_witness :
  reachable EmptyString demo_store demo_list ∧
  attached demo_store demo_list 10 ∧
  on_chain demo_store demo_list 5 ∧
  tgt demo_store Fwd 5 = Some 10 ∧
  erase demo_list (mkIter 10) demo_store =
    (Ret (mkIter 15, mkList 1 2 2), demo_store_without_10) ∧
  ∃ q, tgt demo_store Fwd 10 = Some q ∧ tgt demo_store Bwd 10 = Some 5 ∧
    fst (mkIter 15, mkList 1 2 2) = mkIter q ∧
    incr (mkIter 5) demo_store = (Ret (mkIter 10), demo_store) ∧
    incr (mkIter 5) demo_store_without_10 =
      (Ret (mkIter q), demo_store_without_10) ∧
    ∀ k it' s1,
      advance_n k (mkIter 5) demo_store_without_10 = (Ret it', s1) →
      current_ it' ≠ 10.
Proof.
  split; [exact demo_reachable|]. split; [exact demo_attached_10|].
  split; [exact demo_on_chain_5|].
  split; [by vm_compute|]. split; [exact demo_erase_10|].
  apply (parked_cursor_skips EmptyString demo_store demo_list 10 5
           (mkIter 15, mkList 1 2 2) demo_store_without_10
           demo_reachable demo_attached_10 demo_on_chain_5).
  - by vm_compute.
  - exact demo_erase_10.
Defined.

Lemma one_chain_built :
  push_back "data1!"%string empty_chain empty_chain_store =
    (Ret one_chain, one_chain_store).
Proof. by vm_compute. Qed.

Lemma push_back_replaces_cells_witness :
  reachable EmptyString empty_chain_store empty_chain ∧
  push_back "data1!"%string empty_chain empty_chain_store =
    (Ret one_chain, one_chain_store) ∧
  ∃ last c_old d_old c_new d_new node e_new f_new,
    tgt empty_chain_store Bwd (tail_ empty_chain) = Some last ∧
    cell empty_chain_store Fwd last = Some c_old ∧
    cell empty_chain_store Bwd (tail_ empty_chain) = Some d_old ∧
    refs empty_chain_store !! c_old = Some (mkRef (tail_ empty_chain)) ∧
    refs one_chain_store !! c_old = Some (mkRef (tail_ empty_chain)) ∧
    refs one_chain_store !! d_old = refs empty_chain_store !! d_old ∧
    cell one_chain_store Fwd last = Some c_new ∧
    cell one_chain_store Bwd (tail_ empty_chain) = Some d_new ∧
    c_new ≠ c_old ∧ d_new ≠ d_old ∧
    refs empty_chain_store !! c_new = None ∧
    refs empty_chain_store !! d_new = None ∧
    refs one_chain_store !! c_new = Some (mkRef node) ∧
    refs one_chain_store !! d_new = Some (mkRef node) ∧
    val empty_chain_store node = None ∧
    val one_chain_store node = Some "data1!"%string ∧
    node ≠ tail_ empty_chain ∧
    tgt one_chain_store Fwd last = Some node ∧
    tgt one_chain_store Fwd node = Some (tail_ empty_chain) ∧
    head_ one_chain = head_ empty_chain ∧ tail_ one_chain = tail_ empty_chain ∧
    cell one_chain_store Bwd node = Some e_new ∧
    cell one_chain_store Fwd node = Some f_new ∧
    refs empty_chain_store !! e_new = None ∧
    refs empty_chain_store !! f_new = None ∧
    refs one_chain_store !! e_new = Some (mkRef last) ∧
    refs one_chain_store !! f_new = Some (mkRef (tail_ empty_chain)).
Proof.
  split; [exact empty_chain_reachable|]. split; [exact one_chain_built|].
  exact (push_back_replaces_cells EmptyString "data1!"%string
           empty_chain_store empty_chain one_chain one_chain_store
           empty_chain_reachable one_chain_built).
Defined.

(** * Further properties of the class *)

Section More.
Context {T : Type} (T0 : T).
Implicit Types (s : store T) (l : MutableList) (n p q : Z) (ns : list Z).

Lemma range_for_wf s l ns fuel :
  wf s l ns → (length ns < fuel)%nat →
  range_for fuel l s = (Ret (vals s ns), s).
Proof.
  intros Hwf Hfuel. destruct (wf_first_linked _ _ _ Hwf) as [Hf _].
  unfold range_for, end_.
  rewrite (bind_ret _ _ _ _ _ (begin_ret _ _ _ Hf)), ret_bind.
  eapply range_loop_seg; [apply Hwf| |done].
  by apply (wf_tail_not_in _ _ _ Hwf).
Qed.

Lemma reverse_for_wf s l ns fuel :
  wf s l ns → (length ns < fuel)%nat →
  reverse_for fuel l s = (Ret (rev (vals s ns)), s).
Proof.
  intros Hwf Hfuel. destruct (wf_first_linked _ _ _ Hwf) as [Hf _].
  unfold reverse_for, rbegin, end_.
  change (reverse_loop fuel l (mkRIter (mkIter (tail_ l))) s =
          (Ret (rev (vals s ns)), s)).
  rewrite <- (vals_rev _ _ _ _ (wf_seg _ _ _ Hwf)).
  eapply reverse_loop_seg; [by apply begin_ret|apply Hwf| |done|done].
  pose proof (wf_nodup _ _ _ Hwf) as Hnd.
  by apply NoDup_cons in Hnd as [_ Hnd].
Qed.

Lemma elements_wf s l ns :
  wf s l ns → elements l s = (Ret (vals s ns), s).
Proof.
  intros Hwf. unfold elements, size. apply range_for_wf; [done|].
  rewrite (wf_size _ _ _ Hwf), Nat2Z.id. lia.
Qed.

Lemma vals_ext s s' ns :
  (∀ x, x ∈ ns → val s' x = val s x) → vals s' ns = vals s ns.
Proof.
  induction ns as [|x ns IH]; intros H; [done|]. unfold vals in *. cbn.
  rewrite (H x) by by left. rewrite IH; [done|]. intros y Hy. apply H. by right.
Qed.

Lemma vals_app s r1 r2 : vals s (r1 ++ r2) = vals s r1 ++ vals s r2.
Proof. unfold vals. apply omap_app. Qed.

Lemma wf_ns_below s l ns x : wf s l ns → x ∈ ns → x < brk s.
Proof.
  intros Hwf Hx. apply (wf_below_brk _ _ _ Hwf). right.
  apply elem_of_app. by left.
Qed.

Lemma end_of_elem_path (a t : Z) r : end_of a r ∈ a :: r ++ [t].
Proof.
  pose proof (end_of_elem a r) as H.
  apply elem_of_cons in H as [->|H]; [by left|].
  right. apply elem_of_app. by left.
Qed.

Lemma vals_insert_store v p q s l ns :
  wf s l ns → vals (insert_store v p q s) ns = vals s ns.
Proof.
  intros Hwf. apply vals_ext. intros x Hx.
  rewrite val_insert_store, decide_False; [done|].
  pose proof (wf_ns_below _ _ _ _ Hwf Hx). lia.
Qed.

Lemma front_wf s l ns v :
  wf s l ns → val s (List.hd (tail_ l) ns) = Some v →
  front l s = (Ret v, s).
Proof.
  intros Hwf Hv. destruct (wf_first_linked _ _ _ Hwf) as [Hf _].
  apply step_ret in Hf as (nh & Hnh & Hp). cbn [slot] in Hp.
  destruct (val_node _ _ _ Hv) as (nd & Hnd & <-). unfold front.
  rewrite (bind_ret _ _ _ _ _ (node_load_ret _ _ _ Hnh)).
  rewrite (bind_ret _ _ _ _ _ Hp).
  by rewrite (bind_ret _ _ _ _ _ (node_load_ret _ _ _ Hnd)).
Qed.

Lemma back_wf s l ns v :
  wf s l ns → val s (end_of (head_ l) ns) = Some v →
  back l s = (Ret v, s).
Proof.
  intros Hwf Hv. destruct (wf_last_linked _ _ _ Hwf) as [_ Hb].
  apply step_ret in Hb as (nt & Hnt & Hp). cbn [slot] in Hp.
  destruct (val_node _ _ _ Hv) as (nd & Hnd & <-). unfold back.
  rewrite (bind_ret _ _ _ _ _ (node_load_ret _ _ _ Hnt)).
  rewrite (bind_ret _ _ _ _ _ Hp).
  by rewrite (bind_ret _ _ _ _ _ (node_load_ret _ _ _ Hnd)).
Qed.

(** X1: [push_back] appends. If it returns, the list reads as before
    followed by the new value, [size()] has grown by one and [back()] is
    the new value. *)
Theorem push_back_appends v s l l' s' :
  reachable T0 s l → push_back v l s = (Ret l', s') →
  ∃ vs, elements l s = (Ret vs, s) ∧
        elements l' s' = (Ret (vs ++ [v]), s') ∧
        size l' = size l + 1 ∧
        back l' s' = (Ret v, s').
Proof.
  intros [ns Hinv]%reachable_inv H.
  pose proof (inv_wf _ _ _ Hinv) as Hwf.
  pose proof (inv_wf _ _ _ (inv_push_back _ _ _ _ _ _ Hinv H)) as Hwf'.
  destruct (emplace_back_inv _ _ _ _ _ _ Hwf H) as (_ & -> & ->).
  assert (val (insert_store v (end_of (head_ l) ns) (tail_ l) s) (brk s) =
          Some v) as Hv by by rewrite val_insert_store, decide_True.
  exists (vals s ns). split_and!.
  - by apply elements_wf.
  - rewrite (elements_wf _ _ _ Hwf'), vals_app.
    rewrite (vals_insert_store _ _ _ _ _ _ Hwf).
    by rewrite (vals_cons _ _ _ _ Hv).
  - done.
  - eapply back_wf; [exact Hwf'|]. cbn [head_]. by rewrite end_of_snoc.
Qed.

(** X2: [push_front] prepends. If it returns, the list reads as the new
    value followed by what it read before, [size()] has grown by one and
    [front()] is the new value. *)
Theorem push_front_prepends v s l l' s' :
  reachable T0 s l → push_front v l s = (Ret l', s') →
  ∃ vs, elements l s = (Ret vs, s) ∧
        elements l' s' = (Ret (v :: vs), s') ∧
        size l' = size l + 1 ∧
        front l' s' = (Ret v, s').
Proof.
  intros [ns Hinv]%reachable_inv H.
  pose proof (inv_wf _ _ _ Hinv) as Hwf.
  pose proof (inv_wf _ _ _ (inv_push_front _ _ _ _ _ _ Hinv H)) as Hwf'.
  destruct (emplace_front_inv _ _ _ _ _ _ Hwf H) as (_ & -> & ->).
  assert (val (insert_store v (head_ l) (List.hd (tail_ l) ns) s) (brk s) =
          Some v) as Hv by by rewrite val_insert_store, decide_True.
  exists (vals s ns). split_and!.
  - by apply elements_wf.
  - rewrite (elements_wf _ _ _ Hwf'), (vals_cons _ _ _ _ Hv).
    by rewrite (vals_insert_store _ _ _ _ _ _ Hwf).
  - done.
  - eapply front_wf; [exact Hwf'|]. done.
Qed.

Lemma push_back_all_vals vs s l ns l' s' :
  inv s l ns → push_back_all vs l s = (Ret l', s') →
  ∃ ns', inv s' l' (ns ++ ns') ∧ vals s' (ns ++ ns') = vals s ns ++ vs.
Proof.
  revert s l ns. induction vs as [|v vs IH]; intros s l ns Hinv H; cbn in H.
  - injection H as <- <-. exists []. by rewrite !app_nil_r.
  - step H. pose proof (inv_wf _ _ _ Hinv) as Hwf.
    pose proof (inv_push_back _ _ _ _ _ _ Hinv Hstep) as Hinv1.
    destruct (emplace_back_inv _ _ _ _ _ _ Hwf Hstep) as (_ & -> & ->).
    destruct (IH _ _ _ Hinv1 H) as (ns' & Hinv' & Hvals).
    exists (brk s :: ns'). rewrite <- app_assoc in Hinv', Hvals.
    cbn [app] in Hinv', Hvals.
    split; [done|]. rewrite Hvals, vals_app.
    rewrite (vals_insert_store _ _ _ _ _ _ Hwf).
    rewrite (vals_cons _ _ _ v); [by rewrite <- app_assoc|].
    by rewrite val_insert_store, decide_True.
Qed.

(** X3: the initializer-list constructor builds a list that reads back the
    initializer list, front to back and, reversed, back to front; its
    [size()] is the number of values. *)
Theorem init_reads_back vs s0 l s :
  store_ok s0 → MutableList_init T0 vs s0 = (Ret l, s) →
  elements l s = (Ret vs, s) ∧
  reverse_for (S (length vs)) l s = (Ret (rev vs), s) ∧
  size l = Z.of_nat (length vs).
Proof.
  intros Hok H. unfold MutableList_init in H. step H.
  destruct (wf_new _ _ _ _ Hok Hstep) as (Hwf0 & Hh & Ht & _).
  destruct (push_back_all_vals vs _ _ [] _ _ (Build_inv _ _ _ Hwf0 (mk_is_Some _ _ Hh) (mk_is_Some _ _ Ht)) H)
    as (ns & Hinv & Hvals').
  assert (vals s ns = vs) as Hvals by exact Hvals'. clear Hvals'.
  cbn [app] in Hinv. pose proof (inv_wf _ _ _ Hinv) as Hwf.
  assert (length ns = length vs) as Hlen.
  { rewrite <- Hvals. symmetry. by eapply vals_length, Hwf. }
  split_and!.
  - by rewrite (elements_wf _ _ _ Hwf), Hvals.
  - rewrite (reverse_for_wf _ _ _ _ Hwf), Hvals; [done|lia].
  - unfold size. by rewrite (wf_size _ _ _ Hwf), Hlen.
Qed.

(** X4: [clear()] empties the list: afterwards it reads as the empty
    sequence, forward and backward, [size()] is 0, [empty()] holds and the
    sentinels are the same two nodes. A cursor that stood on an element
    keeps its node: through it the program still reads the same value, and
    [++] and [--] still lead to the nodes they led to before. *)
Theorem clear_empties s l l' s' :
  reachable T0 s l → clear l s = (Ret l', s') →
  elements l' s' = (Ret [], s') ∧ reverse_for 1 l' s' = (Ret [], s') ∧
  size l' = 0 ∧ empty l' = true ∧
  head_ l' = head_ l ∧ tail_ l' = tail_ l ∧
  ∀ it : iterator, attached s l (current_ it) →
    ∃ v q p,
      deref it s = (Ret v, s) ∧ deref it s' = (Ret v, s') ∧
      incr it s = (Ret (mkIter q), s) ∧ incr it s' = (Ret (mkIter q), s') ∧
      decr it s = (Ret (mkIter p), s) ∧ decr it s' = (Ret (mkIter p), s').
Proof.
  intros [ns Hinv]%reachable_inv H.
  pose proof (inv_wf _ _ _ Hinv) as Hwf.
  pose proof (inv_wf _ _ _ (inv_clear _ _ _ _ _ Hinv H)) as Hwf'.
  pose proof (elements_wf _ _ _ Hwf') as He.
  pose proof (reverse_for_wf _ _ _ 1 Hwf' ltac:(cbn; lia)) as Hr.
  unfold clear in H. step H. apply link_inv in Hstep as (Hlt & ->).
  injection H as <- <-. pose proof (wf_ok _ _ _ Hwf) as Hok.
  assert (relinked s (link_store (head_ l) (tail_ l) s) (head_ l) (tail_ l)) as R.
  { apply link_store_relinked; [done|apply val_allocated..];
      apply (wf_allocated _ _ _ Hwf); [by left|].
    right. apply elem_of_app. right. by left. }
  split_and!; try done.
  intros [n] Ha. cbn [current_] in Ha. pose proof Ha as (_ & Hnh & Hnt).
  apply (attached_elem _ _ _ Hwf) in Ha.
  apply list_elem_of_split in Ha as (r1 & r2 & ->).
  destruct (wf_around _ _ _ _ _ Hwf) as [[_ Hb] [Hf _]].
  destruct (tgt_val _ _ _ _ Hf) as [v Hv].
  exists v, (List.hd (tail_ l) r2), (end_of (head_ l) r1).
  split_and!.
  - by apply deref_ret.
  - apply deref_ret. by rewrite (rl_val _ _ _ _ R).
  - by apply incr_ret.
  - apply incr_ret. by rewrite (rl_fwd_other _ _ _ _ R).
  - by apply decr_ret.
  - apply decr_ret. by rewrite (rl_bwd_other _ _ _ _ R).
Qed.

Lemma vals_last s a r t v :
  seg s a (r ++ [t]) → last (vals s r) = Some v → r ≠ [] ∧ val s (end_of a r) = Some v.
Proof.
  intros Hseg Hl. destruct r as [|x r _] using rev_ind; [done|].
  split; [by destruct r|]. rewrite end_of_snoc.
  apply seg_app in Hseg as [Hseg _]. apply seg_app in Hseg as [_ [[_ Hb] _]].
  destruct (tgt_val _ _ _ _ Hb) as [w Hw].
  rewrite (vals_snoc _ _ _ _ Hw), last_snoc in Hl. congruence.
Qed.

Lemma vals_head s a r t v :
  seg s a (r ++ [t]) → head (vals s r) = Some v →
  r ≠ [] ∧ val s (List.hd t r) = Some v.
Proof.
  intros Hseg Hl. destruct r as [|x r]; [done|]. split; [done|].
  cbn [app seg List.hd] in *. destruct Hseg as [[_ Hb] _].
  destruct (tgt_val _ _ _ _ Hb) as [w Hw].
  rewrite (vals_cons _ _ _ _ Hw) in Hl. cbn in Hl. congruence.
Qed.

(** X5: on a reachable chain [front()] returns the first and [back()] the
    last of the elements a range-for reads. *)
Theorem front_back_ends s l :
  reachable T0 s l →
  ∃ vs, elements l s = (Ret vs, s) ∧
    (∀ v, head vs = Some v → front l s = (Ret v, s)) ∧
    (∀ v, last vs = Some v → back l s = (Ret v, s)).
Proof.
  intros [ns Hinv]%reachable_inv. pose proof (inv_wf _ _ _ Hinv) as Hwf.
  exists (vals s ns). split_and!.
  - by apply elements_wf.
  - intros v Hv. eapply front_wf; [done|].
    by apply (vals_head _ _ _ _ _ (wf_seg _ _ _ Hwf)).
  - intros v Hv. eapply back_wf; [done|].
    by apply (vals_last _ _ _ _ _ (wf_seg _ _ _ Hwf)).
Qed.

(** ** What removal never does *)

Lemma no_alloc_bind {A B} (m : M T A) (k : A → M T B) :
  no_alloc m → (∀ a, no_alloc (k a)) → no_alloc (bind m k).
Proof.
  intros Hm Hk s o s' H. unfold bind in H.
  destruct (m s) as [[a|e'| |] s1] eqn:E; destruct (Hm _ _ _ E) as [Ho Hb].
  - destruct (Hk a _ _ _ H) as [Ho' Hb']. split; [done|congruence].
  - by destruct (Ho e').
  - by injection H as <- <-.
  - by injection H as <- <-.
Qed.

Lemma no_alloc_ret {A} (a : A) : no_alloc (ret (T := T) a).
Proof. intros s o s' [= <- <-]. done. Qed.

Lemma no_alloc_node_load a : no_alloc (node_load (T := T) a).
Proof.
  intros s o s'. unfold node_load.
  destruct (nodes s !! a); by intros [= <- <-].
Qed.

Lemma no_alloc_ref_ptr (c : option Z) : no_alloc (ref_ptr (T := T) c).
Proof.
  intros s o s'. unfold ref_ptr. destruct c as [c|]; [|by intros [= <- <-]].
  destruct (refs s !! c); by intros [= <- <-].
Qed.

Lemma no_alloc_ref_assign (c : option Z) a :
  no_alloc (ref_assign (T := T) c a).
Proof.
  intros s o s'. unfold ref_assign. destruct c as [c|]; [|by intros [= <- <-]].
  destruct (refs s !! c); by intros [= <- <-].
Qed.

Lemma no_alloc_erase l (it : iterator) : no_alloc (erase (T := T) l it).
Proof.
  unfold erase.
  repeat (apply no_alloc_bind; [|intros ?]);
    auto using no_alloc_ret, no_alloc_node_load, no_alloc_ref_ptr,
      no_alloc_ref_assign.
Qed.

Lemma no_alloc_erase_node l n : no_alloc (erase_node (T := T) l n).
Proof.
  unfold erase_node.
  repeat (apply no_alloc_bind; [|intros ?]);
    auto using no_alloc_ret, no_alloc_node_load, no_alloc_ref_ptr,
      no_alloc_ref_assign.
Qed.

Lemma no_alloc_pop_back l : no_alloc (pop_back (T := T) l).
Proof.
  unfold pop_back. destruct (negb (empty l)); [|apply no_alloc_ret].
  apply no_alloc_bind; [apply no_alloc_node_load|intros t].
  apply no_alloc_bind; [apply no_alloc_ref_ptr|intros p].
  apply no_alloc_bind; [apply no_alloc_erase|intros r]. apply no_alloc_ret.
Qed.

Lemma no_alloc_pop_front l : no_alloc (pop_front (T := T) l).
Proof.
  unfold pop_front, begin_. destruct (negb (empty l)); [|apply no_alloc_ret].
  apply no_alloc_bind; [|intros b].
  - apply no_alloc_bind; [apply no_alloc_node_load|intros h].
    apply no_alloc_bind; [apply no_alloc_ref_ptr|intros p]. apply no_alloc_ret.
  - apply no_alloc_bind; [apply no_alloc_erase|intros r]. apply no_alloc_ret.
Qed.

(** X6: removal needs no memory. [erase], [erase_node], [pop_back] and
    [pop_front] raise no exception and allocate nothing, whatever the list
    object, the cursor and the heap (well formed or not): the only source of
    an exception in the class is [std::make_shared], which they never call.
    [clear()], [push_back] and [push_front] do call it: when no address is
    left they throw [std::bad_alloc], with the heap as it was. *)
Theorem removal_needs_no_memory l (it : iterator) n :
  no_alloc (erase (T := T) l it) ∧ no_alloc (erase_node (T := T) l n) ∧
  no_alloc (pop_back (T := T) l) ∧ no_alloc (pop_front (T := T) l) ∧
  ∀ s : store T, addr_limit ≤ brk s →
    clear l s = (Throw bad_alloc, s) ∧
    ∀ v, push_back v l s = (Throw bad_alloc, s) ∧
         push_front v l s = (Throw bad_alloc, s).
Proof.
  split_and!;
    [apply no_alloc_erase|apply no_alloc_erase_node|apply no_alloc_pop_back
    |apply no_alloc_pop_front|].
  intros s Hs.
  assert (∀ p, make_shared_Ref p s = (Throw bad_alloc, s)) as Hr.
  { intros p. unfold make_shared_Ref.
    by destruct (Z.ltb_spec (brk s) addr_limit); [lia|]. }
  assert (∀ nd, make_shared_Node nd s = (Throw bad_alloc, s)) as Hn.
  { intros nd. unfold make_shared_Node.
    by destruct (Z.ltb_spec (brk s) addr_limit); [lia|]. }
  split.
  - unfold clear, link, bind. by rewrite Hr.
  - intros v. unfold push_back, push_front, emplace_back, emplace_front, bind.
    by rewrite Hn.
Qed.

(** ** Removal at the ends and in the middle *)

Lemma vals_unlink cp cs p q s ns :
  vals (unlink_store cp cs p q s) ns = vals s ns.
Proof. by apply vals_ext. Qed.

Lemma pop_back_run s l ns :
  inv s l ns →
  ∃ l' s', pop_back l s = (Ret l', s') ∧ inv s' l' (removelast ns) ∧
           vals s' (removelast ns) = removelast (vals s ns).
Proof.
  intros Hinv. pose proof (inv_wf _ _ _ Hinv) as Hwf.
  unfold pop_back, empty.
  destruct ns as [|n0 ns0 _] using rev_ind.
  - rewrite (wf_size _ _ _ Hwf). cbn. eauto.
  - rewrite (wf_size _ _ _ Hwf), length_app. cbn [length].
    destruct (Z.eqb_spec (Z.of_nat (length ns0 + 1)) 0) as [?|_]; [lia|].
    cbn [negb]. rewrite removelast_last.
    destruct (wf_last_linked _ _ _ Hwf) as [Hf Hl].
    rewrite end_of_snoc in Hl, Hf.
    destruct (tgt_val _ _ _ _ Hf) as [v Hv].
    apply step_ret in Hl as (nt & Hnt & Hptr). cbn [slot] in Hptr.
    rewrite (bind_ret _ _ _ _ _ (node_load_ret _ _ _ Hnt)).
    rewrite (bind_ret _ _ _ _ _ Hptr).
    destruct Hinv as [Hwf' Hh Ht].
    destruct (erase_run _ _ ns0 n0 [] Hwf')
      as (cp & cs & Hcp & Hcs & _ & _ & He & _).
    rewrite (bind_ret _ _ _ _ _ He). cbn [snd]. do 2 eexists.
    split; [reflexivity|].
    pose proof (wf_unlink _ _ ns0 n0 [] cp cs Hwf' Hcp Hcs) as Hw.
    rewrite app_nil_r in Hw. split; [by split|].
    rewrite vals_unlink, (vals_snoc _ _ _ _ Hv). by rewrite removelast_last.
Qed.

Lemma pop_front_run s l ns :
  inv s l ns →
  ∃ l' s', pop_front l s = (Ret l', s') ∧ inv s' l' (List.tl ns) ∧
           vals s' (List.tl ns) = List.tl (vals s ns).
Proof.
  intros Hinv. pose proof (inv_wf _ _ _ Hinv) as Hwf.
  unfold pop_front, empty.
  destruct ns as [|n0 ns0].
  - rewrite (wf_size _ _ _ Hwf). cbn. eauto.
  - rewrite (wf_size _ _ _ Hwf). cbn [length].
    destruct (Z.eqb_spec (Z.of_nat (S (length ns0))) 0) as [?|_]; [lia|].
    cbn [negb List.tl].
    destruct (wf_first_linked _ _ _ Hwf) as [Hf Hb]. cbn [List.hd] in Hf, Hb.
    destruct (wf_around _ _ [] n0 ns0 Hwf) as [_ [Hnq _]].
    destruct (tgt_val _ _ _ _ Hnq) as [v Hv].
    rewrite (bind_ret _ _ _ _ _ (begin_ret _ _ _ Hf)).
    destruct Hinv as [Hwf' Hh Ht].
    destruct (erase_run _ _ [] n0 ns0 Hwf')
      as (cp & cs & Hcp & Hcs & _ & _ & He & _).
    rewrite (bind_ret _ _ _ _ _ He). cbn [snd]. do 2 eexists.
    split; [reflexivity|].
    pose proof (wf_unlink _ _ [] n0 ns0 cp cs Hwf' Hcp Hcs) as Hw.
    split; [by split|].
    by rewrite vals_unlink, (vals_cons _ _ _ _ Hv).
Qed.

(** X7: on every reachable chain [pop_back] and [pop_front] return (they
    neither throw nor run into a null link); [pop_back] drops the last and
    [pop_front] the first of the elements, the other elements stay in
    order, and [size()] follows. On an empty chain both leave it empty. *)
Theorem pop_removes_end s l :
  reachable T0 s l →
  ∃ vs, elements l s = (Ret vs, s) ∧
    (∃ l' s', pop_back l s = (Ret l', s') ∧
       elements l' s' = (Ret (removelast vs), s') ∧
       size l' = Z.of_nat (length (removelast vs))) ∧
    (∃ l' s', pop_front l s = (Ret l', s') ∧
       elements l' s' = (Ret (List.tl vs), s') ∧
       size l' = Z.of_nat (length (List.tl vs))).
Proof.
  intros [ns Hinv]%reachable_inv. pose proof (inv_wf _ _ _ Hinv) as Hwf.
  exists (vals s ns). split; [by apply elements_wf|]. split.
  - destruct (pop_back_run _ _ _ Hinv) as (l' & s' & Hp & Hinv' & Hv).
    pose proof (inv_wf _ _ _ Hinv') as Hwf'.
    exists l', s'. split_and!; [done|by rewrite (elements_wf _ _ _ Hwf'), Hv|].
    unfold size. rewrite (wf_size _ _ _ Hwf'), <- Hv.
    by rewrite (vals_length _ _ _ _ (wf_seg _ _ _ Hwf')).
  - destruct (pop_front_run _ _ _ Hinv) as (l' & s' & Hp & Hinv' & Hv).
    pose proof (inv_wf _ _ _ Hinv') as Hwf'.
    exists l', s'. split_and!; [done|by rewrite (elements_wf _ _ _ Hwf'), Hv|].
    unfold size. rewrite (wf_size _ _ _ Hwf'), <- Hv.
    by rewrite (vals_length _ _ _ _ (wf_seg _ _ _ Hwf')).
Qed.

(** X8: [erase] on a cursor at an attached node removes that element and
    no other: the list then reads as before without it, in the same order;
    the returned cursor continues with exactly the elements that followed
    it; the nodes attached afterwards are those attached before, except the
    erased one. *)
Theorem erase_removes_one s l n :
  reachable T0 s l → attached s l n →
  ∃ vs1 v vs2 r s',
    elements l s = (Ret (vs1 ++ v :: vs2), s) ∧
    deref (mkIter n) s = (Ret v, s) ∧
    erase l (mkIter n) s = (Ret r, s') ∧
    elements (snd r) s' = (Ret (vs1 ++ vs2), s') ∧
    range_loop (S (length vs2)) (fst r) (mkIter (tail_ l)) s' = (Ret vs2, s') ∧
    (∀ x, attached s' (snd r) x ↔ attached s l x ∧ x ≠ n).
Proof.
  intros [ns [Hwf Hh Ht]]%reachable_inv Ha.
  apply (attached_elem _ _ _ Hwf) in Ha.
  apply list_elem_of_split in Ha as (r1 & r2 & ->).
  destruct (erase_run _ _ _ _ _ Hwf) as (cp & cs & Hcp & Hcs & _ & _ & He & _).
  pose proof (wf_unlink _ _ _ _ _ cp cs Hwf Hcp Hcs) as Hwf'.
  destruct (wf_around _ _ _ _ _ Hwf) as [_ [Hnq _]].
  destruct (tgt_val _ _ _ _ Hnq) as [v Hv].
  exists (vals s r1), v, (vals s r2). do 2 eexists. split_and!.
  - rewrite (elements_wf _ _ _ Hwf), vals_app. by rewrite (vals_cons _ _ _ _ Hv).
  - by apply deref_ret.
  - exact He.
  - cbn [snd]. by rewrite (elements_wf _ _ _ Hwf'), vals_unlink, vals_app.
  - cbn [fst]. pose proof (wf_seg _ _ _ Hwf') as Hseg. cbn [head_ tail_] in Hseg.
    rewrite <- app_assoc in Hseg. apply seg_app in Hseg as [_ Hseg].
    rewrite <- (vals_unlink cp cs (end_of (head_ l) r1) (List.hd (tail_ l) r2)).
    eapply range_loop_seg; [exact Hseg| |].
    + intros Hin. apply (wf_tail_not_in _ _ _ Hwf).
      apply elem_of_app. right. by right.
    + rewrite vals_unlink.
      apply seg_app in Hseg as [Hseg _].
      assert (length (vals s r2) = length r2) as ->; [|lia].
      pose proof (wf_seg _ _ _ Hwf) as Hs. rewrite <- app_assoc in Hs.
      apply seg_app in Hs as [_ Hs]. cbn [app seg] in Hs. destruct Hs as [_ Hs].
      by eapply vals_length.
  - intros x. cbn [snd].
    rewrite (attached_elem _ _ _ Hwf'), (attached_elem _ _ _ Hwf).
    pose proof (wf_nodup _ _ _ Hwf) as Hnd.
    apply NoDup_cons in Hnd as [_ Hnd]. rewrite <- app_assoc in Hnd.
    apply NoDup_app in Hnd as (_ & Hdisj & Hnd). cbn [app] in Hnd.
    apply NoDup_cons in Hnd as [Hn2 _].
    rewrite !elem_of_app, elem_of_cons. split.
    + intros [Hx|Hx]; (split; [tauto|]); intros ->.
      * apply (Hdisj _ Hx). by left.
      * apply Hn2, elem_of_app. by left.
    + intros [[?|[?|?]] ?]; tauto.
Qed.

(** ** Deleting while iterating, for any predicate *)

Lemma vals_filter_survives (f : T → bool) s ns :
  vals s (List.filter (survives f s) ns) =
  List.filter (λ v, negb (f v)) (vals s ns).
Proof.
  induction ns as [|x ns IH]; [done|]. cbn [List.filter].
  unfold survives at 1. destruct (val s x) as [v|] eqn:Hv.
  - rewrite (vals_cons _ _ ns _ Hv). cbn [List.filter].
    destruct (f v); cbn [negb]; [done|].
    by rewrite (vals_cons _ _ _ _ Hv), IH.
  - unfold vals in *. cbn. by rewrite Hv.
Qed.

(** X9: the loop of [main] that erases, while it iterates, the elements
    satisfying a predicate ends on every reachable chain; it visits every
    element once, in order, and leaves exactly the elements that do not
    satisfy the predicate, in their original order. *)
Theorem erase_while_iterating_filters (f : T → bool) s l fuel :
  reachable T0 s l → (Z.to_nat (size l) < fuel)%nat →
  ∃ vs l' s',
    elements l s = (Ret vs, s) ∧
    erase_while_iterating f fuel l s = (Ret (l', map (event_of f) vs), s') ∧
    elements l' s' = (Ret (List.filter (λ v, negb (f v)) vs), s') ∧
    size l' = Z.of_nat (length (List.filter (λ v, negb (f v)) vs)).
Proof.
  intros [ns Hinv]%reachable_inv Hfuel. unfold size in Hfuel.
  pose proof (inv_wf _ _ _ Hinv) as Hwf.
  rewrite (wf_size _ _ _ Hwf), Nat2Z.id in Hfuel.
  destruct (wf_first_linked _ _ _ Hwf) as [Hf _].
  destruct (erase_loop_spec f s ns [] s l fuel Hinv ltac:(done) Hfuel)
    as (l' & s' & Hrun & Hinv' & Hval & _).
  cbn [app] in Hinv'. pose proof (inv_wf _ _ _ Hinv') as Hwf'.
  assert (vals s' (List.filter (survives f s) ns) =
          List.filter (λ v, negb (f v)) (vals s ns)) as Hvals.
  { rewrite <- vals_filter_survives. by apply vals_ext. }
  exists (vals s ns), l', s'. split_and!.
  - by apply elements_wf.
  - unfold erase_while_iterating.
    by rewrite (bind_ret _ _ _ _ _ (begin_ret _ _ _ Hf)).
  - by rewrite (elements_wf _ _ _ Hwf'), Hvals.
  - unfold size. rewrite (wf_size _ _ _ Hwf'), <- Hvals.
    by rewrite (vals_length _ _ _ _ (wf_seg _ _ _ Hwf')).
Qed.

(** ** Cursors *)

Lemma seg_succ s a r x :
  seg s a r → x ∈ a :: r → x = end_of a r ∨ ∃ y, y ∈ r ∧ linked s x y.
Proof.
  revert a. induction r as [|b r IH]; intros a; cbn [seg end_of].
  - intros _ ->%list_elem_of_singleton. by left.
  - intros [Hl Hs] [->|Hx]%elem_of_cons.
    + right. exists b. split; [by left|done].
    + destruct (IH b Hs Hx) as [?|(y & Hy & ?)]; [by left|].
      right. exists y. split; [by right|done].
Qed.

Lemma seg_pred s a r x :
  seg s a r → x ∈ r → ∃ y, y ∈ a :: r ∧ linked s y x.
Proof.
  revert a. induction r as [|b r IH]; intros a; cbn [seg].
  - by intros _ ?%elem_of_nil.
  - intros [Hl Hs] [->|Hx]%elem_of_cons.
    + exists a. split; [by left|done].
    + destruct (IH b Hs Hx) as (y & Hy & ?). exists y. split; [by right|done].
Qed.

(** X10: for a cursor on a reachable chain, [++] followed by [--] comes
    back to the same node unless the cursor is at the tail sentinel, and
    [--] followed by [++] comes back unless it is at the head sentinel.
    The code has no check at the ends: [++] at the tail sentinel and [--]
    at the head sentinel dereference a null link. *)
Theorem incr_decr_round_trip s l p :
  reachable T0 s l → on_chain s l p →
  (p ≠ tail_ l →
     ∃ q, incr (mkIter p) s = (Ret (mkIter q), s) ∧
          decr (mkIter q) s = (Ret (mkIter p), s)) ∧
  (p ≠ head_ l →
     ∃ q, decr (mkIter p) s = (Ret (mkIter q), s) ∧
          incr (mkIter q) s = (Ret (mkIter p), s)) ∧
  (p = tail_ l → incr (mkIter p) s = (Undefined, s)) ∧
  (p = head_ l → decr (mkIter p) s = (Undefined, s)).
Proof.
  intros [ns [Hwf [vh Hh] [vt Ht]]]%reachable_inv Hp.
  apply (wf_rtc_closed _ _ _ Hwf) in Hp; [|by left].
  pose proof (wf_seg _ _ _ Hwf) as Hseg. split_and!.
  - intros Hne. destruct (seg_succ _ _ _ _ Hseg Hp) as [E|(q & _ & Hf & Hb)].
    { by rewrite end_of_snoc in E. }
    exists q. split; [by apply incr_ret|by apply decr_ret].
  - intros Hne. apply elem_of_cons in Hp as [?|Hp]; [done|].
    destruct (seg_pred _ _ _ _ Hseg Hp) as (q & _ & Hf & Hb).
    exists q. split; [by apply decr_ret|by apply incr_ret].
  - intros ->. destruct (val_node _ _ _ Ht) as (nt & Hnt & _).
    pose proof (cell_none_slot _ Fwd _ _ Hnt (wf_tail _ _ _ Hwf)) as Hn.
    cbn [slot] in Hn. unfold incr. cbn [current_].
    rewrite (bind_ret _ _ _ _ _ (node_load_ret _ _ _ Hnt)), Hn.
    by apply bind_undefined.
  - intros ->. destruct (val_node _ _ _ Hh) as (nh & Hnh & _).
    pose proof (cell_none_slot _ Bwd _ _ Hnh (wf_head _ _ _ Hwf)) as Hn.
    cbn [slot] in Hn. unfold decr. cbn [current_].
    rewrite (bind_ret _ _ _ _ _ (node_load_ret _ _ _ Hnh)), Hn.
    by apply bind_undefined.
Qed.

(** X11: on a reachable chain [size()] lies in the range of [std::size_t],
    and [empty()], [begin() == end()] and reading no element all say the
    same. *)
Theorem empty_iff_begin_is_end s l :
  reachable T0 s l →
  0 ≤ size l < 2 ^ size_bits ∧
  ∃ b vs, begin_ l s = (Ret b, s) ∧ elements l s = (Ret vs, s) ∧
    empty l = iter_eq b (mkIter (tail_ l)) ∧
    (empty l = true ↔ vs = []) ∧
    size l = Z.of_nat (length vs).
Proof.
  intros [ns [Hwf Hh Ht]]%reachable_inv.
  destruct (wf_first_linked _ _ _ Hwf) as [Hf _].
  pose proof (wf_size _ _ _ Hwf) as Hs. pose proof (wf_room _ _ _ Hwf) as Hr.
  destruct (ok_brk _ (wf_ok _ _ _ Hwf)) as [_ Hb]. unfold addr_limit in Hb.
  pose proof (vals_length _ _ _ _ (wf_seg _ _ _ Hwf)) as Hlen.
  split; [unfold size; lia|].
  exists (mkIter (List.hd (tail_ l) ns)), (vals s ns). split_and!.
  - by apply begin_ret.
  - by apply elements_wf.
  - unfold empty, iter_eq. cbn [current_]. rewrite Hs.
    destruct ns as [|x ns']; cbn [List.hd length].
    + change (Z.of_nat 0) with 0. by rewrite !Z.eqb_refl.
    + destruct (Z.eqb_spec x (tail_ l)) as [E|_].
      * exfalso. apply (wf_tail_not_in _ _ _ Hwf). rewrite <- E. by left.
      * by destruct (Z.eqb_spec (Z.of_nat (S (length ns'))) 0); [lia|].
  - unfold empty. rewrite Hs. destruct (Z.eqb_spec (Z.of_nat (length ns)) 0).
    + split; [|done]. intros _. destruct (vals s ns); [done|]. cbn in Hlen. lia.
    + split; [done|]. intros E. rewrite E in Hlen. cbn in Hlen. lia.
  - unfold size. by rewrite Hs, Hlen.
Qed.

(** ** Two lists in one heap: the copy and move constructors *)

Lemma same_below_refl s : same_below s s.
Proof. split; [lia|done]. Qed.

Lemma same_below_trans s0 s1 s2 :
  same_below s0 s1 → same_below s1 s2 → same_below s0 s2.
Proof.
  intros [Hb1 H1] [Hb2 H2]. split; [lia|]. intros x Hx.
  destruct (H1 x Hx) as [Hv1 Ht1]. destruct (H2 x ltac:(lia)) as [Hv2 Ht2].
  split; [congruence|]. intros d. destruct (Ht1 d), (Ht2 d).
  split; congruence.
Qed.

Lemma wf_same_below s0 s l ns :
  wf s0 l ns → store_ok s → same_below s0 s → wf s l ns.
Proof.
  intros Hwf Hok [Hb Hsame].
  assert (∀ x, x ∈ head_ l :: ns ++ [tail_ l] → x < brk s0) as Hlt
    by apply (wf_below_brk _ _ _ Hwf).
  split; try apply Hwf; try done.
  - eapply seg_frame; [apply Hwf|]. intros x y Hx Hy [Hf Hbk].
    destruct (Hsame x (Hlt _ Hx)) as [_ Hx'].
    destruct (Hsame y (Hlt _ ltac:(by right))) as [_ Hy'].
    split; [by rewrite (proj1 (Hx' Fwd))|by rewrite (proj1 (Hy' Bwd))].
  - destruct (Hsame (head_ l) (Hlt _ ltac:(by left))) as [_ Hh].
    rewrite (proj2 (Hh Bwd)). apply Hwf.
  - assert (tail_ l ∈ head_ l :: ns ++ [tail_ l]) as Hin.
    { right. apply elem_of_app. right. by left. }
    destruct (Hsame (tail_ l) (Hlt _ Hin)) as [_ Ht].
    rewrite (proj2 (Ht Fwd)). apply Hwf.
  - pose proof (wf_room _ _ _ Hwf). lia.
Qed.

Lemma vals_same_below s0 s l ns :
  wf s0 l ns → same_below s0 s → vals s ns = vals s0 ns.
Proof.
  intros Hwf [_ Hsame]. apply vals_ext. intros x Hx.
  apply Hsame. by eapply wf_ns_below.
Qed.

Lemma node_store_same_below v s : store_ok s → same_below s (node_store v s).
Proof.
  intros Hok. split; [cbn; lia|]. intros x Hx. split.
  - rewrite val_node_store, decide_False by lia. done.
  - intros d. by rewrite tgt_node_store, cell_node_store.
Qed.

Lemma link_store_same_below a b s s0 :
  store_ok s → is_Some (val s a) → is_Some (val s b) →
  same_below s0 s → brk s0 ≤ a → brk s0 ≤ b →
  same_below s0 (link_store a b s).
Proof.
  intros Hok Ha Hb [Hbrk Hs0] Hla Hlb.
  pose proof (link_store_relinked a b s Hok (proj1 (val_allocated _ _) Ha)
                (proj1 (val_allocated _ _) Hb)) as R.
  split; [cbn; lia|]. intros x Hx. destruct (Hs0 x Hx) as [Hv Ht]. split.
  - by rewrite (rl_val _ _ _ _ R).
  - intros []; destruct (Ht Fwd) as [Hf Hfc], (Ht Bwd) as [Hb' Hbc].
    + rewrite (rl_fwd_other _ _ _ _ R), (rl_fcell_other _ _ _ _ R) by lia.
      done.
    + rewrite (rl_bwd_other _ _ _ _ R), (rl_bcell_other _ _ _ _ R) by lia.
      done.
Qed.

Lemma insert_store_same_below v p q s s0 :
  store_ok s → is_Some (val s p) → is_Some (val s q) →
  brk s + 4 < addr_limit →
  same_below s0 s → brk s0 ≤ p → brk s0 ≤ q →
  same_below s0 (insert_store v p q s).
Proof.
  intros Hok Hp Hq Hlt Hs0 Hlp Hlq. unfold insert_store.
  pose proof (ok_nodes _ Hok _ (proj1 (val_allocated _ _) Hp)) as Hp_lt.
  pose proof (ok_nodes _ Hok _ (proj1 (val_allocated _ _) Hq)) as Hq_lt.
  assert (store_ok (node_store v s)) as Hok1 by (apply node_store_ok; [done|lia]).
  assert (same_below s0 (node_store v s)) as H1.
  { eapply same_below_trans; [exact Hs0|by apply node_store_same_below]. }
  assert (val (node_store v s) (brk s) = Some v) as Hv
    by by rewrite val_node_store, decide_True.
  assert (is_Some (val (node_store v s) p)) as Hp1
    by by rewrite val_node_store, decide_False by lia.
  assert (is_Some (val (node_store v s) q)) as Hq1
    by by rewrite val_node_store, decide_False by lia.
  destruct Hs0 as [Hbrk _].
  assert (same_below s0 (link_store p (brk s) (node_store v s))) as H2.
  { apply link_store_same_below; [done|done|by rewrite Hv|done|done|lia]. }
  apply link_store_same_below; [| | |done|lia|done].
  - apply link_store_ok; [done|cbn; lia].
  - rewrite val_link_store, Hv. eauto.
  - by rewrite val_link_store.
Qed.

Lemma new_same_below s0 l s :
  store_ok s0 → MutableList_new T0 s0 = (Ret l, s) →
  same_below s0 s ∧ brk s0 ≤ head_ l ∧ brk s0 ≤ tail_ l.
Proof.
  intros Hok H. unfold MutableList_new, makeSentinel in H.
  step H. apply make_shared_Node_inv in Hstep as (Hlt1 & -> & ->).
  step H. apply make_shared_Node_inv in Hstep as (Hlt2 & -> & ->).
  step H. apply link_inv in Hstep as (Hlt3 & ->).
  injection H as <- <-. cbn [brk head_ tail_] in *.
  assert (store_ok (node_store T0 s0)) as Hok1 by by apply node_store_ok.
  assert (store_ok (node_store T0 (node_store T0 s0))) as Hok2
    by by apply node_store_ok.
  split_and!; [|lia|lia].
  change (same_below s0 (link_store (brk s0) (brk s0 + 1)
                           (node_store T0 (node_store T0 s0)))).
  apply link_store_same_below; [done| | | |lia|lia].
  - rewrite val_node_store, decide_False by (cbn; lia).
    rewrite val_node_store, decide_True by done. eauto.
  - rewrite val_node_store, decide_True by done. eauto.
  - eapply same_below_trans; by apply node_store_same_below.
Qed.

(** The copying loop, with the cursor on the first of the source nodes [r]
    still to be copied and the nodes [dn] already copied into [l]. *)
Lemma copy_loop_spec s0 o ns_o :
  wf s0 o ns_o →
  ∀ r dn fuel s l nl l' s',
    ns_o = dn ++ r →
    same_below s0 s → inv s l nl → reachable T0 s l →
    (∀ x, x ∈ head_ l :: nl ++ [tail_ l] → brk s0 ≤ x) →
    vals s nl = vals s0 dn →
    copy_loop fuel (mkIter (List.hd (tail_ o) r)) (mkIter (tail_ o)) l s =
      (Ret l', s') →
    ∃ nl', same_below s0 s' ∧ inv s' l' nl' ∧ reachable T0 s' l' ∧
           (∀ x, x ∈ head_ l' :: nl' ++ [tail_ l'] → brk s0 ≤ x) ∧
           vals s' nl' = vals s0 ns_o.
Proof.
  intros Hwf0. induction r as [|x r IH];
    intros dn fuel s l nl l' s' -> Hsame Hinv Hreach Hnew Hvals H;
    (destruct fuel as [|fuel]; [done|]); cbn [copy_loop List.hd] in H;
    unfold iter_eq in H; cbn [current_] in H.
  - rewrite Z.eqb_refl in H. injection H as <- <-.
    exists nl. by rewrite app_nil_r in *.
  - destruct (Z.eqb_spec x (tail_ o)) as [E|_].
    { exfalso. apply (wf_tail_not_in _ _ _ Hwf0). rewrite <- E.
      apply elem_of_app. right. by left. }
    destruct (wf_around _ _ _ _ _ Hwf0) as [_ [Hxq _]].
    destruct (tgt_val _ _ _ _ Hxq) as [v Hv0].
    assert (x < brk s0) as Hx.
    { eapply wf_ns_below; [exact Hwf0|]. apply elem_of_app. right. by left. }
    destruct Hsame as [Hbrk Hsame]. destruct (Hsame x Hx) as [Hv _].
    rewrite Hv0 in Hv.
    rewrite (bind_ret _ _ _ _ _ (deref_ret _ _ _ Hv)) in H.
    step H. pose proof (inv_wf _ _ _ Hinv) as Hwfl.
    pose proof (inv_push_back _ _ _ _ _ _ Hinv Hstep) as Hinv1.
    pose proof (reach_push_back T0 true _ _ _ _ _ Hreach Hstep
                  : reachable T0 _ _) as Hreach1.
    destruct (emplace_back_inv _ _ _ _ _ _ Hwfl Hstep) as (Hlt & -> & ->).
    assert (same_below s0
              (insert_store v (end_of (head_ l) nl) (tail_ l) s)) as Hsame1.
    { apply insert_store_same_below; [apply Hwfl| | |done|done| |].
      - apply (wf_allocated _ _ _ Hwfl), end_of_elem_path.
      - apply (wf_allocated _ _ _ Hwfl). right. apply elem_of_app.
        right. by left.
      - apply Hnew, end_of_elem_path.
      - apply Hnew. right. apply elem_of_app. right. by left. }
    destruct Hsame1 as [Hbrk1 Hsame1].
    destruct (Hsame1 x Hx) as [_ Ht1]. destruct (Ht1 Fwd) as [Hf1 _].
    rewrite Hxq in Hf1.
    rewrite (bind_ret _ _ _ _ _ (incr_ret _ _ _ Hf1)) in H.
    apply (IH (dn ++ [x]) fuel _ _ (nl ++ [brk s])) in H; try done.
    + by rewrite <- app_assoc.
    + cbn [head_ tail_]. intros y [->|Hy]%elem_of_cons; [apply Hnew; by left|].
      rewrite <- app_assoc in Hy. apply elem_of_app in Hy as [Hy|Hy].
      * apply Hnew. right. apply elem_of_app. by left.
      * apply elem_of_cons in Hy as [->|Hy]; [lia|].
        apply Hnew. right. apply elem_of_app. by right.
    + rewrite !vals_app, (vals_insert_store _ _ _ _ _ _ Hwfl), Hvals.
      f_equal. rewrite (vals_cons _ _ _ v), (vals_cons _ _ _ v); [done..|].
      by rewrite val_insert_store, decide_True.
Qed.

Lemma copy_spec fuel s o ns l' s' :
  inv s o ns → MutableList_copy T0 fuel o s = (Ret l', s') →
  ∃ nl, same_below s s' ∧ inv s' l' nl ∧ reachable T0 s' l' ∧
        (∀ x, x ∈ head_ l' :: nl ++ [tail_ l'] → brk s ≤ x) ∧
        vals s' nl = vals s ns ∧ wf s' o ns.
Proof.
  intros [Hwf Hh Ht] H. unfold MutableList_copy in H. step H.
  pose proof (wf_ok _ _ _ Hwf) as Hok.
  destruct (wf_new _ _ _ _ Hok Hstep) as (Hwf1 & Hh1 & Ht1 & _).
  destruct (new_same_below _ _ _ Hok Hstep) as (Hsame & Hlh & Hlt).
  pose proof (reach_new T0 true _ _ _ Hok Hstep : reachable T0 _ _) as Hreach.
  destruct (wf_first_linked _ _ _ Hwf) as [Hf _].
  pose proof Hsame as [_ Hsame'].
  assert (head_ o < brk s) as Hho by (apply (wf_below_brk _ _ _ Hwf); by left).
  destruct (Hsame' _ Hho) as [_ Hth]. destruct (Hth Fwd) as [Hf1 _].
  rewrite Hf in Hf1.
  rewrite (bind_ret _ _ _ _ _ (begin_ret _ _ _ Hf1)) in H.
  unfold end_ in H. rewrite ret_bind in H.
  assert (∀ y, y ∈ head_ x :: [] ++ [tail_ x] → brk s ≤ y) as Hnew0.
  { cbn [app].
    intros y [->|[->|[]%elem_of_nil]%elem_of_cons]%elem_of_cons; lia. }
  destruct (copy_loop_spec _ _ _ Hwf ns [] fuel s0 x [] l' s' eq_refl Hsame
              (Build_inv _ _ _ Hwf1 (mk_is_Some _ _ Hh1) (mk_is_Some _ _ Ht1)) Hreach Hnew0 eq_refl H)
    as (nl & Hsame2 & Hinv2 & Hreach2 & Hnew2 & Hvals2).
  exists nl. split_and!; try done.
  eapply wf_same_below; [exact Hwf|apply Hinv2|done].
Qed.

(** X12: the copy constructor, when it returns, has built a list that reads
    the same elements as its source and has the same [size()]. The copy is
    made of objects that did not exist before, and no object that existed
    before has changed: the source reads as it did. *)
Theorem copy_constructor_copies fuel s o l' s' :
  reachable T0 s o → MutableList_copy T0 fuel o s = (Ret l', s') →
  ∃ vs, elements o s = (Ret vs, s) ∧
        elements l' s' = (Ret vs, s') ∧
        elements o s' = (Ret vs, s') ∧
        size l' = size o ∧
        reachable T0 s' l' ∧
        (∀ x, x = head_ l' ∨ x = tail_ l' ∨ attached s' l' x → val s x = None) ∧
        same_below s s'.
Proof.
  intros [ns Hinv]%reachable_inv H.
  destruct (copy_spec _ _ _ _ _ _ Hinv H)
    as (nl & Hsame & Hinv' & Hreach & Hnew & Hvals & Hwfo).
  pose proof (inv_wf _ _ _ Hinv) as Hwf.
  pose proof (inv_wf _ _ _ Hinv') as Hwf'.
  exists (vals s ns). split_and!; try done.
  - by apply elements_wf.
  - by rewrite (elements_wf _ _ _ Hwf'), Hvals.
  - rewrite (elements_wf _ _ _ Hwfo).
    by rewrite (vals_same_below _ _ _ _ Hwf Hsame).
  - unfold size. rewrite (wf_size _ _ _ Hwf'), (wf_size _ _ _ Hwf).
    rewrite <- (vals_length _ _ _ _ (wf_seg _ _ _ Hwf')), Hvals.
    by rewrite (vals_length _ _ _ _ (wf_seg _ _ _ Hwf)).
  - intros x Hx. apply val_fresh; [apply Hwf|]. apply Hnew.
    destruct Hx as [->|[->|Hx]]; [by left| |].
    + right. apply elem_of_app. right. by left.
    + right. apply elem_of_app. left. by apply (attached_elem _ _ _ Hwf').
Qed.

(** X13: copy assignment [a = b] ([operator=] on a copy of [b], through
    [swap]): when it returns, [a] reads the elements of [b], whatever [a]
    held, and [b] reads as before. *)
Theorem copy_assign_copies fuel s this src l' s' :
  reachable T0 s src → copy_assign T0 fuel this src s = (Ret l', s') →
  ∃ vs, elements src s = (Ret vs, s) ∧
        elements l' s' = (Ret vs, s') ∧
        elements src s' = (Ret vs, s') ∧
        size l' = size src ∧
        reachable T0 s' l'.
Proof.
  intros [ns Hinv]%reachable_inv H. unfold copy_assign in H. step H.
  injection H as <- <-.
  destruct (copy_spec _ _ _ _ _ _ Hinv Hstep)
    as (nl & Hsame & Hinv' & Hreach & Hnew & Hvals & Hwfo).
  assert (assign this x = x) as -> by by destruct x.
  pose proof (inv_wf _ _ _ Hinv) as Hwf.
  pose proof (inv_wf _ _ _ Hinv') as Hwf'.
  exists (vals s ns). split_and!; try done.
  - by apply elements_wf.
  - by rewrite (elements_wf _ _ _ Hwf'), Hvals.
  - rewrite (elements_wf _ _ _ Hwfo).
    by rewrite (vals_same_below _ _ _ _ Hwf Hsame).
  - unfold size. rewrite (wf_size _ _ _ Hwf'), (wf_size _ _ _ Hwf).
    rewrite <- (vals_length _ _ _ _ (wf_seg _ _ _ Hwf')), Hvals.
    by rewrite (vals_length _ _ _ _ (wf_seg _ _ _ Hwf)).
Qed.

Lemma noexcept_returned {A} (m : M T A) s (a : A) s' :
  noexcept m s = (Ret (Returned a), s') → m s = (Ret a, s').
Proof.
  unfold noexcept. destruct (m s) as [[x|e| |] s1]; try done.
  by intros [= <- <-].
Qed.

(** X14: the move constructor, when it returns, hands the chain of its
    source over as it is: the new list has the same sentinels and nodes
    (cursors into the source now traverse the new list), reads the same
    elements and has the same [size()]. The source is left as a freshly
    constructed empty list, and no object that existed before is changed. *)
Theorem move_constructor_moves s o this o' s' :
  reachable T0 s o →
  MutableList_move T0 o s = (Ret (Returned (this, o')), s') →
  ∃ vs, elements o s = (Ret vs, s) ∧
        elements this s' = (Ret vs, s') ∧
        head_ this = head_ o ∧ tail_ this = tail_ o ∧ size this = size o ∧
        (∀ x, attached s' this x ↔ attached s o x) ∧
        elements o' s' = (Ret [], s') ∧ size o' = 0 ∧
        reachable T0 s' o' ∧
        same_below s s'.
Proof.
  intros [ns Hinv]%reachable_inv H. pose proof (inv_wf _ _ _ Hinv) as Hwf.
  pose proof (wf_ok _ _ _ Hwf) as Hok.
  apply noexcept_returned in H. cbv zeta in H.
  assert (MutableList_new T0 s = (Ret o', s') ∧
          this = mkList (head_ o) (tail_ o) (size_ o)) as [Hnew ->].
  { unfold MutableList_new. step H. rewrite (bind_ret _ _ _ _ _ Hstep).
    step H. rewrite (bind_ret _ _ _ _ _ Hstep0).
    step H. rewrite (bind_ret _ _ _ _ _ Hstep1).
    by injection H as <- <- <-. }
  destruct (wf_new _ _ _ _ Hok Hnew) as (Hwf1 & Hh1 & Ht1 & _).
  destruct (new_same_below _ _ _ Hok Hnew) as (Hsame & _ & _).
  assert (mkList (head_ o) (tail_ o) (size_ o) = o) as -> by by destruct o.
  assert (wf s' o ns) as Hwfo.
  { eapply wf_same_below; [exact Hwf|apply Hwf1|done]. }
  exists (vals s ns). split_and!; try done.
  - by apply elements_wf.
  - rewrite (elements_wf _ _ _ Hwfo).
    by rewrite (vals_same_below _ _ _ _ Hwf Hsame).
  - intros x. by rewrite (attached_elem _ _ _ Hwfo), (attached_elem _ _ _ Hwf).
  - by rewrite (elements_wf _ _ _ Hwf1).
  - apply Hwf1.
  - by eapply reach_new.
Qed.

(** ** Misuse and failure *)

Lemma unlink_store_idem cp cs p q s :
  unlink_store cp cs p q (unlink_store cp cs p q s) = unlink_store cp cs p q s.
Proof.
  unfold unlink_store. cbn [nodes refs brk]. f_equal.
  apply map_eq. intros k. rewrite !lookup_insert.
  repeat case_decide; done.
Qed.

(** X15: erasing a node a second time, through a cursor still positioned
    on it, right after its removal, goes undetected. The call returns the
    same cursor as the first one and leaves the heap exactly as it is, but
    it decrements [size_] again, so [size()] no longer is the number of
    elements; on a list that held one element it wraps to [2^64 - 1]. *)
Theorem erase_twice_miscounts s l n r s1 :
  reachable T0 s l → attached s l n →
  erase l (mkIter n) s = (Ret r, s1) →
  ∃ vs l2,
    elements (snd r) s1 = (Ret vs, s1) ∧
    size (snd r) = Z.of_nat (length vs) ∧
    erase (snd r) (mkIter n) s1 = (Ret (fst r, l2), s1) ∧
    range_for (S (length vs)) l2 s1 = (Ret vs, s1) ∧
    size l2 = wrap (size l - 2) ∧
    size l2 ≠ Z.of_nat (length vs) ∧
    (size l = 1 → size l2 = 2 ^ size_bits - 1).
Proof.
  intros [ns [Hwf Hh Ht]]%reachable_inv Ha He.
  apply (attached_elem _ _ _ Hwf) in Ha.
  apply list_elem_of_split in Ha as (r1 & r2 & ->).
  destruct (erase_run _ _ _ _ _ Hwf) as (cp & cs & Hcp & Hcs & _ & _ & He' & _).
  rewrite He' in He. injection He as <- <-. clear He'.
  pose proof (wf_unlink _ _ _ _ _ cp cs Hwf Hcp Hcs) as Hwf'.
  pose proof (wf_ok _ _ _ Hwf) as Hok.
  pose proof (unlink_store_relinked cp cs _ _ s Hok Hcp Hcs) as R.
  destruct (wf_around _ _ _ _ _ Hwf) as [[Hpn Hnp] [Hnq Hqn]].
  destruct (wf_pred_ne _ _ _ _ _ Hwf) as (Hnp' & Hnq' & Hpq).
  set (p := end_of (head_ l) r1) in *. set (q := List.hd (tail_ l) r2) in *.
  set (s1 := unlink_store cp cs p q s) in *.
  assert (tgt s1 Bwd n = Some p) as Hnp1
    by by rewrite (rl_bwd_other _ _ _ _ R).
  assert (tgt s1 Fwd n = Some q) as Hnq1
    by by rewrite (rl_fwd_other _ _ _ _ R).
  destruct (step_ret _ _ _ _ Hnp1) as (nn & Hnn & Hpred).
  destruct (step_ret _ _ _ _ Hnq1) as (nn' & Hnn' & Hsucc).
  assert (nn' = nn) as -> by congruence.
  destruct (tgt_cell _ _ _ _ (rl_fwd _ _ _ _ R))
    as (pn & cp' & Hp & Hcp' & Hcellp & Hrp).
  destruct (tgt_cell _ _ _ _ (rl_bwd _ _ _ _ R))
    as (qn & cs' & Hq & Hcs' & Hcells & Hrs).
  assert (cp' = cp) as -> by (change (cell s Fwd p = Some cp') in Hcellp; congruence).
  assert (cs' = cs) as -> by (change (cell s Bwd q = Some cs') in Hcells; congruence).
  pose proof (wf_size _ _ _ Hwf) as Hs. pose proof (wf_room _ _ _ Hwf) as Hr.
  destruct (ok_brk _ Hok) as [_ Hb]. unfold addr_limit in Hb.
  rewrite length_app in Hs, Hr. cbn [length] in Hs, Hr.
  pose proof (vals_length _ _ _ _ (wf_seg _ _ _ Hwf')) as Hlen.
  rewrite length_app in Hlen.
  exists (vals s1 (r1 ++ r2)), (mkList (head_ l) (tail_ l) (wrap (size_ l - 2))).
  cbn [snd fst]. split_and!.
  - by apply elements_wf.
  - unfold size. rewrite (wf_size _ _ _ Hwf'), Hlen. by rewrite length_app.
  - unfold erase. cbn [current_ head_ tail_ size_].
    rewrite (unlink_run s1 nn pn qn n p q cp cs Hnn Hp Hq Hcp' Hcs' Hpred Hsucc
               (mk_is_Some _ _ Hrp) (mk_is_Some _ _ Hrs)
               (λ pred succ, ret (mkIter succ, _))).
    unfold ret, s1. rewrite unlink_store_idem.
    by replace (size_ l - 1 - 1) with (size_ l - 2) by lia.
  - change (range_for (S (length (vals s1 (r1 ++ r2))))
              (mkList (head_ l) (tail_ l) (size_ l - 1)) s1 =
            (Ret (vals s1 (r1 ++ r2)), s1)).
    apply range_for_wf; [done|]. rewrite Hlen, length_app. lia.
  - done.
  - unfold size. cbn [size_]. rewrite Hlen, Hs.
    destruct (decide (length r1 + length r2 = 0)%nat) as [E|E].
    + replace (Z.of_nat (length r1 + S (length r2)) - 2) with (-1) by lia.
      rewrite E. by vm_compute.
    + unfold wrap. rewrite Z.mod_small; lia.
  - unfold size. cbn [size_]. intros ->. by vm_compute.
Qed.

Lemma bind_throw {A B} (m : M T A) (k : A → M T B) s e s1 :
  m s = (Throw e, s1) → bind m k s = (Throw e, s1).
Proof. unfold bind. by intros ->. Qed.

Lemma make_shared_Node_run v s :
  brk s < addr_limit →
  make_shared_Node (mkNode None None v) s = (Ret (brk s), node_store v s).
Proof.
  intros Hlt. unfold make_shared_Node.
  by destruct (Z.ltb_spec (brk s) addr_limit); [|lia].
Qed.

Lemma link_half a b s :
  is_Some (nodes s !! a) → brk s + 1 = addr_limit →
  link a b s = (Throw bad_alloc, half_link_store a b s).
Proof.
  intros [na Ha] Hlim. unfold link, bind, make_shared_Ref, set_next.
  destruct (Z.ltb_spec (brk s) addr_limit); [|lia]. cbn [nodes refs brk].
  rewrite Ha. cbn [nodes refs brk].
  destruct (Z.ltb_spec (brk s + 1) addr_limit); [lia|].
  unfold half_link_store. do 2 f_equal.
  exact (insert_as_alter (with_slot Fwd (brk s)) _ _ _ Ha).
Qed.

Lemma nodes_half_link_store a b s x :
  nodes (half_link_store a b s) !! x =
    (λ nd, if decide (a = x) then with_slot Fwd (brk s) nd else nd) <$>
    nodes s !! x.
Proof.
  cbn [half_link_store nodes]. rewrite lookup_alter.
  destruct (decide (a = x)) as [->|]; by destruct (nodes s !! x).
Qed.

Lemma half_link_store_obs a b s :
  store_ok s → is_Some (nodes s !! a) →
  tgt (half_link_store a b s) Fwd a = Some b ∧
  (∀ x, x ≠ a → tgt (half_link_store a b s) Fwd x = tgt s Fwd x) ∧
  (∀ x, x ≠ a → cell (half_link_store a b s) Fwd x = cell s Fwd x) ∧
  (∀ x, val (half_link_store a b s) x = val s x).
Proof.
  intros Hok [na Ha].
  assert (∀ x, x ≠ a → cell (half_link_store a b s) Fwd x = cell s Fwd x) as Hc.
  { intros x Hx. unfold cell. rewrite nodes_half_link_store.
    destruct (nodes s !! x); [|done]. cbn. by rewrite decide_False. }
  split_and!; [| |done|].
  - unfold tgt, cell. rewrite nodes_half_link_store, Ha. cbn.
    rewrite decide_True by done. cbn. by rewrite lookup_insert_eq.
  - intros x Hx. unfold tgt. rewrite (Hc x Hx).
    destruct (cell s Fwd x) as [c|] eqn:E; [|done].
    change (refs (half_link_store a b s) !! c ≫= (λ r, Some (ptr r)) =
            refs s !! c ≫= (λ r, Some (ptr r))).
    cbn [half_link_store refs]. rewrite lookup_insert_ne; [done|].
    pose proof (ok_cells _ Hok _ _ _ E). lia.
  - intros x. unfold val. rewrite nodes_half_link_store.
    destruct (nodes s !! x); [|done]. cbn. by destruct (decide (a = x)).
Qed.

Lemma fwd_run_app s a r1 r2 :
  fwd_run s a (r1 ++ r2) ↔ fwd_run s a r1 ∧ fwd_run s (end_of a r1) r2.
Proof.
  revert a. induction r1 as [|b r1 IH]; intros a; cbn; [tauto|].
  rewrite IH. tauto.
Qed.

Lemma seg_fwd_run s s' a r :
  seg s a r →
  (∀ x y, x ∈ a :: r → y ∈ r → tgt s Fwd x = Some y → tgt s' Fwd x = Some y) →
  fwd_run s' a r.
Proof.
  revert a. induction r as [|b r IH]; intros a; cbn; [done|].
  intros [[Hf _] Hs] Hframe. split.
  - apply Hframe; [by left|by left|done].
  - apply IH; [done|]. intros x y Hx Hy. apply Hframe; by right.
Qed.

Lemma range_loop_broken s e z r a fuel :
  fwd_run s a (r ++ [z]) →
  (∀ x, x ∈ r ++ [z] → x ≠ e ∧ is_Some (val s x)) →
  cell s Fwd z = None → (length r + 1 < fuel)%nat →
  range_loop fuel (mkIter (List.hd z r)) (mkIter e) s = (Undefined, s).
Proof.
  revert a fuel. induction r as [|b r IH]; intros a fuel Hrun Hall Hz Hfuel;
    (destruct fuel as [|fuel]; [cbn in Hfuel; lia|]);
    cbn [length] in Hfuel; cbn [app fwd_run List.hd range_loop] in *;
    unfold iter_eq; cbn [current_].
  - destruct (Hall z ltac:(by left)) as [Hne [v Hv]].
    destruct (Z.eqb_spec z e) as [?|_]; [done|].
    rewrite (bind_ret _ _ _ _ _ (deref_ret _ _ _ Hv)).
    destruct (val_node _ _ _ Hv) as (nd & Hnd & _).
    pose proof (cell_none_slot _ Fwd _ _ Hnd Hz) as Hn. cbn [slot] in Hn.
    unfold incr. cbn [current_]. apply bind_undefined.
    rewrite (bind_ret _ _ _ _ _ (node_load_ret _ _ _ Hnd)), Hn.
    by apply bind_undefined.
  - destruct Hrun as [_ Hrun].
    destruct (Hall b ltac:(by left)) as [Hne [v Hv]].
    destruct (Z.eqb_spec b e) as [?|_]; [done|].
    rewrite (bind_ret _ _ _ _ _ (deref_ret _ _ _ Hv)).
    pose proof Hrun as Hrun'. rewrite snoc_hd in Hrun'. destruct Hrun' as [Hf _].
    rewrite (bind_ret _ _ _ _ _ (incr_ret _ _ _ Hf)).
    apply bind_undefined. apply (IH b); [done| |done|lia].
    intros x Hx. apply Hall. by right.
Qed.

(** X16: [push_back] does not roll back. When memory runs out at the second
    allocation of its first [link] call, [std::bad_alloc] leaves the
    function with the former last node's forward cell already designating
    the new node, whose own links are still null: a forward traversal of
    the list then visits the old elements and the new one and dereferences
    a null link. *)
Theorem push_back_throw_midway v s l :
  reachable T0 s l → brk s + 2 = addr_limit →
  ∃ s' vs last,
    push_back v l s = (Throw bad_alloc, s') ∧
    elements l s = (Ret vs, s) ∧
    tgt s Bwd (tail_ l) = Some last ∧
    tgt s' Fwd last = Some (brk s) ∧ val s' (brk s) = Some v ∧
    cell s' Fwd (brk s) = None ∧ cell s' Bwd (brk s) = None ∧
    (∀ fuel, (length vs + 1 < fuel)%nat →
       range_for fuel l s' = (Undefined, s')).
Proof.
  intros [ns [Hwf Hh Ht]]%reachable_inv Hlim.
  pose proof (wf_ok _ _ _ Hwf) as Hok.
  set (last := end_of (head_ l) ns). set (s1 := node_store v s).
  assert (store_ok s1) as Hok1 by (apply node_store_ok; [done|lia]).
  destruct (wf_last_linked _ _ _ Hwf) as [Hlf Hlb]. fold last in Hlf, Hlb.
  assert (last ∈ head_ l :: ns ++ [tail_ l]) as Hlast by apply end_of_elem_path.
  pose proof (wf_below_brk _ _ _ Hwf _ Hlast) as Hlast_lt.
  assert (is_Some (nodes s1 !! last)) as Hl1.
  { apply val_allocated. unfold s1.
    rewrite val_node_store, decide_False by lia.
    by apply (wf_allocated _ _ _ Hwf). }
  destruct (half_link_store_obs last (brk s) s1 Hok1 Hl1)
    as (Hf' & Hfo & Hco & Hvo).
  exists (half_link_store last (brk s) s1), (vals s ns), last.
  assert (∀ x, x ≠ last → tgt (half_link_store last (brk s) s1) Fwd x =
                          tgt s Fwd x) as Hfo'.
  { intros x Hx. rewrite (Hfo x Hx). unfold s1. by rewrite tgt_node_store. }
  assert (val (half_link_store last (brk s) s1) (brk s) = Some v) as Hvn.
  { rewrite Hvo. unfold s1. by rewrite val_node_store, decide_True. }
  assert (∀ d, cell s (d : dir) (brk s) = None) as Hcn.
  { intros d. apply cell_unallocated, val_fresh; [done|lia]. }
  assert (cell (half_link_store last (brk s) s1) Fwd (brk s) = None) as Hcf.
  { rewrite Hco by lia. unfold s1. by rewrite cell_node_store. }
  split_and!; try done.
  - unfold push_back, emplace_back.
    rewrite (bind_ret _ _ _ _ _ (make_shared_Node_run v s ltac:(lia))).
    fold s1. assert (tgt s1 Bwd (tail_ l) = Some last) as Hb1
      by (unfold s1; by rewrite tgt_node_store).
    apply step_ret in Hb1 as (nt & Hnt & Hptr). cbn [slot] in Hptr.
    rewrite (bind_ret _ _ _ _ _ (node_load_ret _ _ _ Hnt)).
    rewrite (bind_ret _ _ _ _ _ Hptr).
    apply bind_throw, link_half; [done|]. cbn. lia.
  - by apply elements_wf.
  - unfold cell. rewrite nodes_half_link_store. unfold s1.
    cbn [node_store nodes]. rewrite lookup_insert_eq. cbn.
    by destruct (decide (last = brk s)).
  - intros fuel Hfuel.
    rewrite (vals_length _ _ _ _ (wf_seg _ _ _ Hwf)) in Hfuel.
    assert (fwd_run (half_link_store last (brk s) s1) (head_ l)
              (ns ++ [brk s])) as Hrun.
    { apply fwd_run_app. split; [|by cbn].
      pose proof (wf_seg _ _ _ Hwf) as Hseg. apply seg_app in Hseg as [Hseg _].
      eapply seg_fwd_run; [exact Hseg|]. intros x y Hx Hy Hxy.
      rewrite Hfo'; [done|]. intros ->. rewrite Hlf in Hxy.
      injection Hxy as <-. by apply (wf_tail_not_in _ _ _ Hwf). }
    pose proof Hrun as Hrun'. rewrite snoc_hd in Hrun'. destruct Hrun' as [Hb _].
    unfold range_for, end_.
    rewrite (bind_ret _ _ _ _ _ (begin_ret _ _ _ Hb)), ret_bind.
    eapply range_loop_broken; [exact Hrun| |done|done].
    intros x [Hx|Hx]%elem_of_app; [|apply list_elem_of_singleton in Hx as ->].
    + split.
      * intros ->. by apply (wf_tail_not_in _ _ _ Hwf).
      * rewrite Hvo. unfold s1. rewrite val_node_store.
        case_decide; [eauto|]. apply (wf_allocated _ _ _ Hwf). right.
        apply elem_of_app. by left.
    + split; [|by rewrite Hvn].
      assert (tail_ l < brk s); [|lia]. apply (wf_below_brk _ _ _ Hwf).
      right. apply elem_of_app. right. by left.
Qed.

End More.

(** * Concrete instances of the further properties *)

Lemma one_chain_front_built :
  push_front "data1!"%string empty_chain empty_chain_store =
    (Ret one_chain, one_chain_front_store).
Proof. by vm_compute. Qed.

Lemma demo_cleared_built :
  clear demo_list demo_store = (Ret empty_chain, demo_cleared_store).
Proof. by vm_compute. Qed.

Lemma demo_copy_built :
  MutableList_copy EmptyString 4 demo_list demo_store =
    (Ret demo_copy, demo_copy_store).
Proof. by vm_compute. Qed.

Lemma demo_copy_assigned :
  copy_assign EmptyString 4 empty_chain demo_list demo_store =
    (Ret demo_copy, demo_copy_store).
Proof. by vm_compute. Qed.

Lemma demo_moved_built :
  MutableList_move EmptyString demo_list demo_store =
    (Ret (Returned (demo_list, demo_moved_from)), demo_moved_store).
Proof. by vm_compute. Qed.

Lemma near_full_store_ok : store_ok near_full_store.
Proof.
  split; cbn.
  - unfold addr_limit, size_bits. lia.
  - intros k [? H]. by rewrite lookup_empty in H.
  - intros k [? H]. by rewrite lookup_empty in H.
  - intros d a c. unfold cell. cbn. by rewrite lookup_empty.
  - intros d1 a1 d2 a2 c. unfold cell. cbn. by rewrite lookup_empty.
Qed.

Lemma last_chain_built :
  MutableList_new EmptyString near_full_store = (Ret last_chain, last_chain_store).
Proof. by vm_compute. Qed.

Lemma last_chain_reachable : reachable EmptyString last_chain_store last_chain.
Proof. eapply reach_new; [apply near_full_store_ok|exact last_chain_built]. Qed.

Lemma push_back_appends_witness :
  reachable EmptyString empty_chain_store empty_chain ∧
  push_back "data1!"%string empty_chain empty_chain_store =
    (Ret one_chain, one_chain_store) ∧
  ∃ vs, elements empty_chain empty_chain_store = (Ret vs, empty_chain_store) ∧
        elements one_chain one_chain_store =
          (Ret (vs ++ ["data1!"%string]), one_chain_store) ∧
        size one_chain = size empty_chain + 1 ∧
        back one_chain one_chain_store = (Ret "data1!"%string, one_chain_store).
Proof.
  split; [exact empty_chain_reachable|]. split; [exact one_chain_built|].
  exact (push_back_appends EmptyString "data1!"%string empty_chain_store
           empty_chain one_chain one_chain_store
           empty_chain_reachable one_chain_built).
Defined.

Lemma push_front_prepends_witness :
  reachable EmptyString empty_chain_store empty_chain ∧
  push_front "data1!"%string empty_chain empty_chain_store =
    (Ret one_chain, one_chain_front_store) ∧
  ∃ vs, elements empty_chain empty_chain_store = (Ret vs, empty_chain_store) ∧
        elements one_chain one_chain_front_store =
          (Ret ("data1!"%string :: vs), one_chain_front_store) ∧
        size one_chain = size empty_chain + 1 ∧
        front one_chain one_chain_front_store =
          (Ret "data1!"%string, one_chain_front_store).
Proof.
  split; [exact empty_chain_reachable|]. split; [exact one_chain_front_built|].
  exact (push_front_prepends EmptyString "data1!"%string empty_chain_store
           empty_chain one_chain one_chain_front_store
           empty_chain_reachable one_chain_front_built).
Defined.

Lemma init_reads_back_witness :
  store_ok (@empty_store string) ∧
  MutableList_init EmptyString demo_values empty_store =
    (Ret demo_list, demo_store) ∧
  elements demo_list demo_store = (Ret demo_values, demo_store) ∧
  reverse_for (S (length demo_values)) demo_list demo_store =
    (Ret (rev demo_values), demo_store) ∧
  size demo_list = Z.of_nat (length demo_values).
Proof.
  split; [exact empty_store_ok|]. split; [exact demo_built|].
  exact (init_reads_back EmptyString demo_values empty_store demo_list
           demo_store empty_store_ok demo_built).
Defined.

Lemma clear_empties_witness :
  reachable EmptyString demo_store demo_list ∧
  clear demo_list demo_store = (Ret empty_chain, demo_cleared_store) ∧
  elements empty_chain demo_cleared_store = (Ret [], demo_cleared_store) ∧
  reverse_for 1 empty_chain demo_cleared_store = (Ret [], demo_cleared_store) ∧
  size empty_chain = 0 ∧ empty empty_chain = true ∧
  head_ empty_chain = head_ demo_list ∧ tail_ empty_chain = tail_ demo_list ∧
  ∀ it : iterator, attached demo_store demo_list (current_ it) →
    ∃ v q p,
      deref it demo_store = (Ret v, demo_store) ∧
      deref it demo_cleared_store = (Ret v, demo_cleared_store) ∧
      incr it demo_store = (Ret (mkIter q), demo_store) ∧
      incr it demo_cleared_store = (Ret (mkIter q), demo_cleared_store) ∧
      decr it demo_store = (Ret (mkIter p), demo_store) ∧
      decr it demo_cleared_store = (Ret (mkIter p), demo_cleared_store).
Proof.
  split; [exact demo_reachable|]. split; [exact demo_cleared_built|].
  exact (clear_empties EmptyString demo_store demo_list empty_chain
           demo_cleared_store demo_reachable demo_cleared_built).
Defined.

Lemma front_back_ends_witness :
  reachable EmptyString demo_store demo_list ∧
  ∃ vs, elements demo_list demo_store = (Ret vs, demo_store) ∧
    (∀ v, head vs = Some v → front demo_list demo_store = (Ret v, demo_store)) ∧
    (∀ v, last vs = Some v → back demo_list demo_store = (Ret v, demo_store)).
Proof.
  split; [exact demo_reachable|].
  exact (front_back_ends EmptyString demo_store demo_list demo_reachable).
Defined.

Lemma removal_needs_no_memory_witness :
  addr_limit ≤ brk exhausted_chain_store ∧
  clear exhausted_chain exhausted_chain_store =
    (Throw bad_alloc, exhausted_chain_store) ∧
  ∀ v, push_back v exhausted_chain exhausted_chain_store =
         (Throw bad_alloc, exhausted_chain_store) ∧
       push_front v exhausted_chain exhausted_chain_store =
         (Throw bad_alloc, exhausted_chain_store).
Proof.
  split; [by vm_compute|].
  apply (removal_needs_no_memory exhausted_chain (mkIter 0) 0).
  by vm_compute.
Defined.

Lemma pop_removes_end_witness :
  reachable EmptyString demo_store demo_list ∧
  ∃ vs, elements demo_list demo_store = (Ret vs, demo_store) ∧
    (∃ l' s', pop_back demo_list demo_store = (Ret l', s') ∧
       elements l' s' = (Ret (removelast vs), s') ∧
       size l' = Z.of_nat (length (removelast vs))) ∧
    (∃ l' s', pop_front demo_list demo_store = (Ret l', s') ∧
       elements l' s' = (Ret (List.tl vs), s') ∧
       size l' = Z.of_nat (length (List.tl vs))).
Proof.
  split; [exact demo_reachable|].
  exact (pop_removes_end EmptyString demo_store demo_list demo_reachable).
Defined.

Lemma erase_removes_one_witness :
  reachable EmptyString demo_store demo_list ∧
  attached demo_store demo_list 10 ∧
  ∃ vs1 v vs2 r s',
    elements demo_list demo_store = (Ret (vs1 ++ v :: vs2), demo_store) ∧
    deref (mkIter 10) demo_store = (Ret v, demo_store) ∧
    erase demo_list (mkIter 10) demo_store = (Ret r, s') ∧
    elements (snd r) s' = (Ret (vs1 ++ vs2), s') ∧
    range_loop (S (length vs2)) (fst r) (mkIter (tail_ demo_list)) s' =
      (Ret vs2, s') ∧
    (∀ x, attached s' (snd r) x ↔ attached demo_store demo_list x ∧ x ≠ 10).
Proof.
  split; [exact demo_reachable|]. split; [exact demo_attached_10|].
  exact (erase_removes_one EmptyString demo_store demo_list 10
           demo_reachable demo_attached_10).
Defined.

Lemma erase_while_iterating_filters_witness :
  reachable EmptyString demo_store demo_list ∧
  (Z.to_nat (size demo_list) < 4)%nat ∧
  ∃ vs l' s',
    elements demo_list demo_store = (Ret vs, demo_store) ∧
    erase_while_iterating is_data1 4 demo_list demo_store =
      (Ret (l', map (event_of is_data1) vs), s') ∧
    elements l' s' = (Ret (List.filter (λ v, negb (is_data1 v)) vs), s') ∧
    size l' = Z.of_nat (length (List.filter (λ v, negb (is_data1 v)) vs)).
Proof.
  split; [exact demo_reachable|]. split; [cbn; lia|].
  apply (erase_while_iterating_filters EmptyString is_data1 demo_store
           demo_list 4 demo_reachable).
  cbn. lia.
Defined.

Lemma incr_decr_round_trip_witness :
  reachable EmptyString demo_store demo_list ∧
  on_chain demo_store demo_list 5 ∧
  (5 ≠ tail_ demo_list →
     ∃ q, incr (mkIter 5) demo_store = (Ret (mkIter q), demo_store) ∧
          decr (mkIter q) demo_store = (Ret (mkIter 5), demo_store)) ∧
  (5 ≠ head_ demo_list →
     ∃ q, decr (mkIter 5) demo_store = (Ret (mkIter q), demo_store) ∧
          incr (mkIter q) demo_store = (Ret (mkIter 5), demo_store)) ∧
  (5 = tail_ demo_list → incr (mkIter 5) demo_store = (Undefined, demo_store)) ∧
  (5 = head_ demo_list → decr (mkIter 5) demo_store = (Undefined, demo_store)).
Proof.
  split; [exact demo_reachable|]. split; [exact demo_on_chain_5|].
  exact (incr_decr_round_trip EmptyString demo_store demo_list 5
           demo_reachable demo_on_chain_5).
Defined.

Lemma empty_iff_begin_is_end_witness :
  reachable EmptyString demo_store demo_list ∧
  0 ≤ size demo_list < 2 ^ size_bits ∧
  ∃ b vs, begin_ demo_list demo_store = (Ret b, demo_store) ∧
    elements demo_list demo_store = (Ret vs, demo_store) ∧
    empty demo_list = iter_eq b (mkIter (tail_ demo_list)) ∧
    (empty demo_list = true ↔ vs = []) ∧
    size demo_list = Z.of_nat (length vs).
Proof.
  split; [exact demo_reachable|].
  exact (empty_iff_begin_is_end EmptyString demo_store demo_list
           demo_reachable).
Defined.

Lemma copy_constructor_copies_witness :
  reachable EmptyString demo_store demo_list ∧
  MutableList_copy EmptyString 4 demo_list demo_store =
    (Ret demo_copy, demo_copy_store) ∧
  ∃ vs, elements demo_list demo_store = (Ret vs, demo_store) ∧
        elements demo_copy demo_copy_store = (Ret vs, demo_copy_store) ∧
        elements demo_list demo_copy_store = (Ret vs, demo_copy_store) ∧
        size demo_copy = size demo_list ∧
        reachable EmptyString demo_copy_store demo_copy ∧
        (∀ x, x = head_ demo_copy ∨ x = tail_ demo_copy ∨
              attached demo_copy_store demo_copy x →
              val demo_store x = None) ∧
        same_below demo_store demo_copy_store.
Proof.
  split; [exact demo_reachable|]. split; [exact demo_copy_built|].
  exact (copy_constructor_copies EmptyString 4 demo_store demo_list demo_copy
           demo_copy_store demo_reachable demo_copy_built).
Defined.

Lemma copy_assign_copies_witness :
  reachable EmptyString demo_store demo_list ∧
  copy_assign EmptyString 4 empty_chain demo_list demo_store =
    (Ret demo_copy, demo_copy_store) ∧
  ∃ vs, elements demo_list demo_store = (Ret vs, demo_store) ∧
        elements demo_copy demo_copy_store = (Ret vs, demo_copy_store) ∧
        elements demo_list demo_copy_store = (Ret vs, demo_copy_store) ∧
        size demo_copy = size demo_list ∧
        reachable EmptyString demo_copy_store demo_copy.
Proof.
  split; [exact demo_reachable|]. split; [exact demo_copy_assigned|].
  exact (copy_assign_copies EmptyString 4 demo_store empty_chain demo_list
           demo_copy demo_copy_store demo_reachable demo_copy_assigned).
Defined.

Lemma move_constructor_moves_witness :
  reachable EmptyString demo_store demo_list ∧
  MutableList_move EmptyString demo_list demo_store =
    (Ret (Returned (demo_list, demo_moved_from)), demo_moved_store) ∧
  ∃ vs, elements demo_list demo_store = (Ret vs, demo_store) ∧
        elements demo_list demo_moved_store = (Ret vs, demo_moved_store) ∧
        head_ demo_list = head_ demo_list ∧ tail_ demo_list = tail_ demo_list ∧
        size demo_list = size demo_list ∧
        (∀ x, attached demo_moved_store demo_list x ↔
              attached demo_store demo_list x) ∧
        elements demo_moved_from demo_moved_store = (Ret [], demo_moved_store) ∧
        size demo_moved_from = 0 ∧
        reachable EmptyString demo_moved_store demo_moved_from ∧
        same_below demo_store demo_moved_store.
Proof.
  split; [exact demo_reachable|]. split; [exact demo_moved_built|].
  exact (move_constructor_moves EmptyString demo_store demo_list demo_list
           demo_moved_from demo_moved_store demo_reachable demo_moved_built).
Defined.

Lemma erase_twice_miscounts_witness :
  reachable EmptyString demo_store demo_list ∧
  attached demo_store demo_list 10 ∧
  erase demo_list (mkIter 10) demo_store =
    (Ret (mkIter 15, mkList 1 2 2), demo_store_without_10) ∧
  ∃ vs l2,
    elements (mkList 1 2 2) demo_store_without_10 =
      (Ret vs, demo_store_without_10) ∧
    size (mkList 1 2 2) = Z.of_nat (length vs) ∧
    erase (mkList 1 2 2) (mkIter 10) demo_store_without_10 =
      (Ret (mkIter 15, l2), demo_store_without_10) ∧
    range_for (S (length vs)) l2 demo_store_without_10 =
      (Ret vs, demo_store_without_10) ∧
    size l2 = wrap (size demo_list - 2) ∧
    size l2 ≠ Z.of_nat (length vs) ∧
    (size demo_list = 1 → size l2 = 2 ^ size_bits - 1).
Proof.
  split; [exact demo_reachable|]. split; [exact demo_attached_10|].
  split; [exact demo_erase_10|].
  exact (erase_twice_miscounts EmptyString demo_store demo_list 10
           (mkIter 15, mkList 1 2 2) demo_store_without_10
           demo_reachable demo_attached_10 demo_erase_10).
Defined.

Lemma push_back_throw_midway_witness :
  reachable EmptyString last_chain_store last_chain ∧
  brk last_chain_store + 2 = addr_limit ∧
  ∃ s' vs last,
    push_back "data1!"%string last_chain last_chain_store =
      (Throw bad_alloc, s') ∧
    elements last_chain last_chain_store = (Ret vs, last_chain_store) ∧
    tgt last_chain_store Bwd (tail_ last_chain) = Some last ∧
    tgt s' Fwd last = Some (brk last_chain_store) ∧
    val s' (brk last_chain_store) = Some "data1!"%string ∧
    cell s' Fwd (brk last_chain_store) = None ∧
    cell s' Bwd (brk last_chain_store) = None ∧
    (∀ fuel, (length vs + 1 < fuel)%nat →
       range_for fuel last_chain s' = (Undefined, s')).
Proof.
  split; [exact last_chain_reachable|]. split; [by vm_compute|].
  apply (push_back_throw_midway EmptyString "data1!"%string last_chain_store
           last_chain last_chain_reachable).
  by vm_compute.
Defined.
